(** * Lockstep: monorepo lockstep versioning and ordered publishing

    A shallow embedding of [src/lockstep.ts] (class [Lockstep]) and of
    [src/cli.ts] (the command line), and the properties of the workspace
    graph builder, the topological sequencer, the version policy, the
    orchestration code and the command line.

    Conventions of the embedding.
    - A JavaScript string is a [string]: a sequence of code units, taken
      below 256.  Of the line terminators of ECMAScript only LF and CR exist
      in that range.
    - A thrown [Error] is [Thrown msg], [msg] being the error's message.
    - A [Map] that the source iterates is an association list in insertion
      order ([JsMap]); a [Map] or [Set] that is only probed with [has]/[get]
      and [set] is a [gmap]/[gset].
    - A JavaScript object used as a dictionary (a dependency field of a
      manifest) is the list of its entries in [Object.entries] order.
    - The numbers of [semverBump] are doubles ([double]): a natural number
      that 53 bits of significand can hold, or [Infinity]; they are rounded
      and printed as ECMAScript does.
    - The numbers of [topoSort] are [jsnum]: an integer or [NaN].
    - The world of the orchestrator ([World]) holds the manifests that
      read and parse, the directories [findPackageDirs] finds, what git
      answers when a method is entered, and the commands run.  A write of
      [writeJSON] and a command run through [execSync] with inherited
      output are taken to succeed, and so is the query for the branch; a
      run in which one of them fails, or in which a file that is there
      does not parse, is outside the model.  So the statements about
      [version] and [publish] say what holds when they return, and what
      holds when they throw before their first write or command.
    - Paths are joined as POSIX [path.join] joins a normalised directory
      and a plain name, with one [/]; [findPackageDirs] is modelled over
      any [path.join].
    - What [console.log] prints is left out. *)

From Stdlib Require Import Ascii DecimalString DecimalN.
From stdpp Require Import gmap strings list relations.

Local Open Scope Z_scope.

(* ===================================================================== *)
(** * JavaScript values                                                   *)
(* ===================================================================== *)

(** The outcome of a call that may throw. *)
Inductive result (A : Type) : Type :=
| Returned (a : A)
| Thrown (msg : string).
Arguments Returned {A} a.
Arguments Thrown {A} msg.

(** [String.prototype.startsWith]. *)
Definition startsWith (s searchString : string) : bool :=
  String.prefix searchString s.

(** [String.prototype.includes]. *)
Fixpoint includes (s searchString : string) : bool :=
  String.prefix searchString s ||
  match s with
  | EmptyString => false
  | String _ t => includes t searchString
  end.

(** [Array.prototype.join] on an array of strings. *)
Fixpoint join (sep : string) (l : list string) : string :=
  match l with
  | [] => ""
  | [x] => x
  | x :: t => x +:+ sep +:+ join sep t
  end.

(** Every code unit of [s] satisfies [p]. *)
Fixpoint string_forallb (p : ascii → bool) (s : string) : bool :=
  match s with
  | EmptyString => true
  | String c t => p c && string_forallb p t
  end.

(** White space and line terminators, as [String.prototype.trim] strips
    them: TAB, LF, VT, FF, CR, SP and NBSP. *)
Definition is_space (c : ascii) : bool :=
  let n := nat_of_ascii c in
  ((9 <=? n)%nat && (n <=? 13)%nat) || (n =? 32)%nat || (n =? 160)%nat.

(** [!s.trim()]: the string is empty once trimmed. *)
Definition trims_to_empty (s : string) : bool := string_forallb is_space s.

(** [s.split('\n')]: the pieces between line feeds, at least one. *)
Fixpoint split_lines (s : string) : list string :=
  match s with
  | EmptyString => [""]
  | String c t =>
      if Ascii.eqb c "010"%char then "" :: split_lines t
      else match split_lines t with
           | [] => [String c ""]
           | l :: ls => String c l :: ls
           end
  end.

(* ===================================================================== *)
(** * Regular expressions of the source                                   *)
(* ===================================================================== *)

(** [\d]: an ASCII digit. *)
Definition is_digit (c : ascii) : bool :=
  let n := nat_of_ascii c in (48 <=? n)%nat && (n <=? 57)%nat.

(** [.]: any code unit but a line terminator. *)
Definition is_dot (c : ascii) : bool :=
  negb (Ascii.eqb c "010"%char || Ascii.eqb c "013"%char).

(** [s] with the literal [lit] removed from its head, if it starts with it. *)
Fixpoint strip_literal (lit s : string) : option string :=
  match lit, s with
  | EmptyString, _ => Some s
  | String a lit', String b s' =>
      if Ascii.eqb a b then strip_literal lit' s' else None
  | String _ _, EmptyString => None
  end.

(** Greedy [\d*] at the head of [s]: the longest run of digits and what
    follows it. *)
Fixpoint span_digits (s : string) : string * string :=
  match s with
  | EmptyString => ("", "")
  | String c t =>
      if is_digit c
      then let '(d, r) := span_digits t in (String c d, r)
      else ("", s)
  end.

(** [(\d+)]: a run of at least one digit.  What follows a [\d+] in the
    source's pattern never starts with a digit, so the longest run is the
    only one a match can use. *)
Definition digits1 (s : string) : option (string * string) :=
  match span_digits s with
  | (EmptyString, _) => None
  | (d, r) => Some (d, r)
  end.

(** [(-.+)?$]: the end of input, or a hyphen and one or more code units
    that are not line terminators, up to the end of input. *)
Definition prerelease_end (s : string) : bool :=
  match s with
  | EmptyString => true
  | String c t =>
      Ascii.eqb c "-"%char &&
      match t with
      | EmptyString => false
      | _ => string_forallb is_dot t
      end
  end.

(** [v.match(/^(\d+)\.(\d+)\.(\d+)(-.+)?$/)]: the captures 1 to 3 of a
    match, [None] for no match ([null]). *)
Definition semver_match (v : string) : option (string * string * string) :=
  '(MA, r) ← digits1 v;
  r ← strip_literal "." r;
  '(MI, r) ← digits1 r;
  r ← strip_literal "." r;
  '(PA, r) ← digits1 r;
  if prerelease_end r then Some (MA, MI, PA) else None.

(** [.+\):] at the head of [s]: one or more code units that are not line
    terminators, then a closing parenthesis and a colon. *)
Fixpoint scope_close (s : string) : bool :=
  match s with
  | EmptyString => false
  | String c t => is_dot c && (String.prefix "):" t || scope_close t)
  end.

(** [(\(.+\))?:] at the head of [s]. *)
Definition scope_colon (s : string) : bool :=
  String.prefix ":" s ||
  match s with
  | String c t => Ascii.eqb c "("%char && scope_close t
  | EmptyString => false
  end.

(** [s.match(/^kw(\(.+\))?:/)] for a literal keyword [kw]. *)
Definition match_type (kw s : string) : bool :=
  match strip_literal kw s with
  | Some r => scope_colon r
  | None => false
  end.

(** [commit.match(/^feat(\(.+\))?:/)]. *)
Definition match_feat (commit : string) : bool := match_type "feat" commit.

(** [commit.match(/^(fix|docs|style|refactor|test|chore)(\(.+\))?:/)]. *)
Definition match_fix (commit : string) : bool :=
  existsb (λ kw, match_type kw commit)
    ["fix"; "docs"; "style"; "refactor"; "test"; "chore"].

(* ===================================================================== *)
(** * Version policy                                                      *)
(* ===================================================================== *)

(** [Exclude<BumpType, 'auto'>]: ['patch'], ['minor'] or ['major']. *)
Inductive BumpKind : Type := Patch | Minor | Major.

(** [BumpType] of [types.ts]: one of the three kinds, or ['auto']. *)
Inductive BumpType : Type := Fixed (kind : BumpKind) | Auto.

(** [Number.MAX_SAFE_INTEGER], 2^53 - 1. *)
Definition MAX_SAFE_INTEGER : N := 9007199254740991%N.

(** The value of a decimal digit. *)
Definition digit_value (c : ascii) : N := (N_of_ascii c - 48)%N.

(** The number a string of decimal digits denotes, [acc] being the number
    of the digits already read. *)
Fixpoint to_number_from (acc : N) (s : string) : N :=
  match s with
  | EmptyString => acc
  | String c t => to_number_from (10 * acc + digit_value c)%N t
  end.

(** The mathematical value of a string of decimal digits. *)
Definition to_number (s : string) : N := to_number_from 0%N s.

(** The decimal numeral of a natural number. *)
Definition number_to_string (n : N) : string :=
  NilZero.string_of_uint (N.to_uint n).

(** A JavaScript number that is not negative and has no fraction: an
    IEEE 754 double whose value is the natural number [n], or [Infinity].
    [semverBump] computes with no other numbers. *)
Inductive double : Type :=
| Finite (n : N)
| Infinity.

(** The double nearest to the natural number [n], ties to the even
    significand: a number of at most 53 bits is a double; a longer one keeps
    its 53 leading bits, rounded; what rounds to 2^1024 or more is
    [Infinity]. *)
Definition round_double (n : N) : double :=
  let bits := N.log2 n in
  if (bits <? 53)%N then Finite n
  else
    let shift := (bits - 52)%N in
    let q := N.shiftr n shift in
    let r := N.land n (N.ones shift) in
    let half := N.shiftl 1 (shift - 1) in
    let q' := if (half <? r)%N || ((r =? half)%N && N.odd q) then (q + 1)%N else q in
    let m := N.shiftl q' shift in
    if (N.log2 m <? 1024)%N then Finite m else Infinity.

(** Unary plus on a string of decimal digits ([+MA]). *)
Definition to_double (s : string) : double := round_double (to_number s).

(** [x += 1]. *)
Definition add_one (x : double) : double :=
  match x with
  | Finite n => round_double (n + 1)
  | Infinity => Infinity
  end.

(** The numeral [s] followed by [e] zeros denotes the double [x]. *)
Definition reads_back (x s e : N) : bool :=
  match round_double (s * 10 ^ e) with
  | Finite y => (y =? x)%N
  | Infinity => false
  end.

(** The numeral of [k] digits that denotes the double [x], a number of
    [digits] digits, if there is one: of the two numerals around [x] the
    one closer to [x], and the even one when they are as close. *)
Definition candidate (x : N) (digits k : nat) : option (N * N) :=
  let e := N.of_nat (digits - k) in
  let lo := (x / 10 ^ e)%N in
  let hi := (lo + 1)%N in
  let below := (x - lo * 10 ^ e)%N in
  let above := (hi * 10 ^ e - x)%N in
  match reads_back x lo e, reads_back x hi e with
  | true, true =>
      if (below <? above)%N || ((below =? above)%N && N.even lo)
      then Some (lo, e) else Some (hi, e)
  | true, false => Some (lo, e)
  | false, true => Some (hi, e)
  | false, false => None
  end.

(** The first of the lengths [ks] that has a numeral for [x]. *)
Fixpoint shortest (x : N) (digits : nat) (ks : list nat) : N * N :=
  match ks with
  | [] => (x, 0%N)
  | k :: ks' =>
      match candidate x digits k with
      | Some se => se
      | None => shortest x digits ks'
      end
  end.

(** A string of digits without the zeros at its end. *)
Fixpoint strip_zeros (s : string) : string :=
  match s with
  | EmptyString => EmptyString
  | String c t =>
      match strip_zeros t with
      | EmptyString => if Ascii.eqb c "0" then EmptyString else String c EmptyString
      | t' => String c t'
      end
  end.

(** A number inside a template literal ([Number::toString]): the shortest
    numeral that denotes the double (17 digits always do), followed by
    zeros below 10^21 and in exponent notation from there on. *)
Definition double_to_string (x : double) : string :=
  match x with
  | Infinity => "Infinity"
  | Finite n =>
      let '(s, e) := shortest n (String.length (number_to_string n)) (seq 1 17) in
      let value := (s * 10 ^ e)%N in
      if (value <? 10 ^ 21)%N then number_to_string value
      else
        let exponent := N.of_nat (String.length (number_to_string value) - 1) in
        match number_to_string s with
        | String d rest =>
            String d (match strip_zeros rest with
                      | EmptyString => EmptyString
                      | fraction => "." +:+ fraction
                      end) +:+ "e+" +:+ number_to_string exponent
        | EmptyString => EmptyString
        end
  end.

(** [semverBump(v, type)]. *)
Definition semverBump (v : string) (type : BumpKind) : result string :=
  match semver_match v with
  | None => Thrown ("Not a semver version: " +:+ v)
  | Some (MA, MI, PA) =>
      let major := to_double MA in
      let minor := to_double MI in
      let patch := to_double PA in
      let '(major, minor, patch) :=
        match type with
        | Major => (add_one major, Finite 0, Finite 0)
        | Minor => (major, add_one minor, Finite 0)
        | Patch => (major, minor, add_one patch)
        end in
      Returned (double_to_string major +:+ "." +:+ double_to_string minor
                +:+ "." +:+ double_to_string patch)
  end.

(** [preserveOperator(oldRange, newVersion)]. *)
Definition preserveOperator (oldRange newVersion : string) : string :=
  if startsWith oldRange "^" then "^" +:+ newVersion
  else if startsWith oldRange "~" then "~" +:+ newVersion
  else if startsWith oldRange ">=" then ">=" +:+ newVersion
  else if startsWith oldRange "=" then "=" +:+ newVersion
  else newVersion.

(** The three flags of [determineVersionType]. *)
Record Flags : Type := mkFlags {
  hasBreaking : bool;
  hasFeature : bool;
  hasFix : bool;
}.

(** One turn of the loop over [commitLines] (each branch ends in
    [continue]). *)
Definition scan_commit (f : Flags) (commit : string) : Flags :=
  if includes commit "BREAKING CHANGE" || includes commit "!:"
  then mkFlags true (hasFeature f) (hasFix f)
  else if match_feat commit
  then mkFlags (hasBreaking f) true (hasFix f)
  else if match_fix commit
  then mkFlags (hasBreaking f) (hasFeature f) true
  else f.

Definition scan_commits (commitLines : list string) : Flags :=
  fold_left scan_commit commitLines (mkFlags false false false).

(** The bump the flags resolve to. *)
Definition resolve_flags (f : Flags) : BumpKind :=
  if hasBreaking f then Major
  else if hasFeature f then Minor
  else if hasFix f then Patch
  else Patch.

(** The classification of [determineVersionType], from the commit subject
    lines on (the spec's [classify]). *)
Definition classify (commitLines : list string) : BumpKind :=
  resolve_flags (scan_commits commitLines).

(* ===================================================================== *)
(** * Manifests and workspace packages ([types.ts])                       *)
(* ===================================================================== *)

(** A JSON value, as far as the code tells values apart: [typeof range]
    is ['string'] for [JString] alone. *)
Inductive JsonValue : Type :=
| JString (s : string)
| JNumber (n : Z)
| JBool (b : bool)
| JNull.

(** A dependency object ([Record<string, string>] once parsed from JSON):
    its entries in [Object.keys] order.  The keys of an object are pairwise
    distinct. *)
Definition Deps : Type := list (string * JsonValue).

(** [DependencyField]. *)
Inductive DependencyField : Type :=
| dependencies
| devDependencies
| peerDependencies
| optionalDependencies.

(** All dependency fields to check when building the dependency graph. *)
Definition DEP_FIELDS : list DependencyField :=
  [dependencies; devDependencies; peerDependencies; optionalDependencies].

(** [PackageJson], as far as the code reads it: a parsed manifest, with a
    name and a version that are strings.  The empty version also stands
    for no version at all where the code only tests [version] for truth. *)
Module PackageJson.
Record t : Type := mk {
  name : string;
  version : string;
  dependencies : option Deps;
  devDependencies : option Deps;
  peerDependencies : option Deps;
  optionalDependencies : option Deps;
}.
End PackageJson.

(** [pkg[field]]; [None] is [undefined]. *)
Definition get_deps (pkg : PackageJson.t) (field : DependencyField) : option Deps :=
  match field with
  | dependencies => PackageJson.dependencies pkg
  | devDependencies => PackageJson.devDependencies pkg
  | peerDependencies => PackageJson.peerDependencies pkg
  | optionalDependencies => PackageJson.optionalDependencies pkg
  end.

(** [pkg[field]] holds [value] (the object [pkg[field]] changed in place). *)
Definition set_deps (field : DependencyField) (value : Deps) (pkg : PackageJson.t)
    : PackageJson.t :=
  let '(PackageJson.mk name version d dev peer opt) := pkg in
  match field with
  | dependencies => PackageJson.mk name version (Some value) dev peer opt
  | devDependencies => PackageJson.mk name version d (Some value) peer opt
  | peerDependencies => PackageJson.mk name version d dev (Some value) opt
  | optionalDependencies => PackageJson.mk name version d dev peer (Some value)
  end.

(** [pkg.version = value]. *)
Definition set_version (value : string) (pkg : PackageJson.t) : PackageJson.t :=
  let '(PackageJson.mk name _ d dev peer opt) := pkg in
  PackageJson.mk name value d dev peer opt.

Module WorkspacePackage.
Record t : Type := mk {
  dir : string;
  pkgPath : string;
  name : string;
  version : string;
  data : PackageJson.t;
}.
End WorkspacePackage.

(** [path.join(dir, 'package.json')]. *)
Definition package_json_in (dir : string) : string := dir +:+ "/package.json".

(** The workspace package [buildWorkspace] makes of the manifest read in
    [dir]. *)
Definition package_of (dir : string) (pkg : PackageJson.t) : WorkspacePackage.t :=
  WorkspacePackage.mk dir (package_json_in dir)
    (PackageJson.name pkg) (PackageJson.version pkg) pkg.

(** [Object.keys(deps)]. *)
Definition keys (deps : Deps) : list string := map fst deps.

(** [pkgs.map(p => p.name)]. *)
Definition names (pkgs : list WorkspacePackage.t) : list string :=
  map WorkspacePackage.name pkgs.

(** [deps[dep] = value]: the value of an existing key is replaced where it
    stands, a new key goes last. *)
Fixpoint obj_set (dep : string) (value : JsonValue) (deps : Deps) : Deps :=
  match deps with
  | [] => [(dep, value)]
  | (k, v) :: rest =>
      if decide (k = dep) then (k, value) :: rest
      else (k, v) :: obj_set dep value rest
  end.

(* ===================================================================== *)
(** * Insertion-ordered maps ([Map])                                      *)
(* ===================================================================== *)

Module JsMap.
Definition t (V : Type) : Type := list (string * V).

(** [m.get(k)]. *)
Fixpoint get {V} (k : string) (m : t V) : option V :=
  match m with
  | [] => None
  | (k', v) :: rest => if decide (k' = k) then Some v else get k rest
  end.

(** [m.set(k, v)]: an existing key keeps its place. *)
Fixpoint set {V} (k : string) (v : V) (m : t V) : t V :=
  match m with
  | [] => [(k, v)]
  | (k', v') :: rest =>
      if decide (k' = k) then (k', v) :: rest
      else (k', v') :: set k v rest
  end.

(** [m.entries()]. *)
Definition entries {V} (m : t V) : list (string * V) := m.
End JsMap.

(** The dependency graph: package -> dependents. *)
Definition Graph : Type := JsMap.t (list string).

(** [graph.get(n) || []]. *)
Definition dependents (graph : Graph) (n : string) : list string :=
  default [] (JsMap.get n graph).

Module WorkspaceInfo.
Record t : Type := mk {
  packages : list WorkspacePackage.t;
  byName : gmap string WorkspacePackage.t;
  graph : Graph;
}.
End WorkspaceInfo.

(* ===================================================================== *)
(** * Workspace graph builder                                             *)
(* ===================================================================== *)

(** [new Map(packages.map(p => [p.name, p]))]: a later package of the same
    name replaces an earlier one. *)
Definition byName_of (packages : list WorkspacePackage.t)
    : gmap string WorkspacePackage.t :=
  fold_left (λ m p, <[WorkspacePackage.name p := p]> m) packages ∅.

(** [for (const p of packages) graph.set(p.name, [])]. *)
Definition empty_graph (packages : list WorkspacePackage.t) : Graph :=
  fold_left (λ g p, JsMap.set (WorkspacePackage.name p) [] g) packages [].

(** [graph.get(depName)!.push(name)]: the array held under [depName] grows
    in place.  The source calls it under [byName.has(depName)], and the two
    maps have the same keys ([empty_graph_has], [add_edge_keys]), so the
    array is there. *)
Definition add_edge (depName name : string) (graph : Graph) : Graph :=
  match JsMap.get depName graph with
  | Some dependents => JsMap.set depName (dependents ++ [name]) graph
  | None => graph
  end.

(** The loop over [Object.keys(deps)] for one field of one package. *)
Definition add_field_edges (byName : gmap string WorkspacePackage.t)
    (p : WorkspacePackage.t) (graph : Graph) (field : DependencyField) : Graph :=
  let deps := default [] (get_deps (WorkspacePackage.data p) field) in
  fold_left
    (λ g depName,
       if decide (is_Some (byName !! depName))
       then add_edge depName (WorkspacePackage.name p) g
       else g)
    (keys deps) graph.

(** The loop over [DEP_FIELDS] for one package. *)
Definition add_package_edges (byName : gmap string WorkspacePackage.t)
    (graph : Graph) (p : WorkspacePackage.t) : Graph :=
  fold_left (add_field_edges byName p) DEP_FIELDS graph.

(** The graph [buildWorkspace] builds from the packages it has read. *)
Definition build_graph (packages : list WorkspacePackage.t) : Graph :=
  fold_left (add_package_edges (byName_of packages)) packages
    (empty_graph packages).

(** What [buildWorkspace] returns, from the packages it has read. *)
Definition workspace_of (packages : list WorkspacePackage.t) : WorkspaceInfo.t :=
  WorkspaceInfo.mk packages (byName_of packages) (build_graph packages).

(* ===================================================================== *)
(** * Lockstep check                                                      *)
(* ===================================================================== *)

(** [new Set(array)] as [[...set]] lists it: the distinct members, each
    where it first occurs. *)
Definition set_of (array : list string) : list string :=
  fold_left (λ s x, if decide (x ∈ s) then s else s ++ [x]) array [].

(** [ensureAllSameVersion(packages)]: [set.size !== 1] throws, and
    otherwise [[...set][0]] is the only member. *)
Definition ensureAllSameVersion (packages : list WorkspacePackage.t)
    : result string :=
  let set := set_of (map WorkspacePackage.version packages) in
  match set with
  | [v] => Returned v
  | _ => Thrown ("Lockstep requires all packages have the same version. Found: "
                 +:+ join ", " set)
  end.

(* ===================================================================== *)
(** * Topological sequencer                                               *)
(* ===================================================================== *)

(** The numbers [topoSort] computes with: an integer, or [NaN] (what
    [undefined - 1] is). *)
Inductive jsnum : Type :=
| Num (z : Z)
| NaN.

(** [x || 0] for [x = inDeg.get(n)]: [undefined], [NaN] and [0] give [0]. *)
Definition or_zero (x : option jsnum) : Z :=
  match x with
  | Some (Num z) => z
  | Some NaN | None => 0
  end.

(** [x! - 1] for [x = inDeg.get(v)]. *)
Definition minus_one (x : option jsnum) : jsnum :=
  match x with
  | Some (Num z) => Num (z - 1)
  | Some NaN | None => NaN
  end.

(** [x === 0]. *)
Definition is_zero (x : jsnum) : bool :=
  match x with
  | Num z => z =? 0
  | NaN => false
  end.

(** [new Map(pkgs.map(p => [p.name, 0]))]. *)
Definition zero_degrees (pkgs : list WorkspacePackage.t) : gmap string jsnum :=
  fold_left (λ m p, <[WorkspacePackage.name p := Num 0]> m) pkgs ∅.

(** [inDeg.set(v, (inDeg.get(v) || 0) + 1)]. *)
Definition count_edge (inDeg : gmap string jsnum) (v : string) : gmap string jsnum :=
  <[v := Num (or_zero (inDeg !! v) + 1)]> inDeg.

(** The in-degrees: one count per entry of every dependent list. *)
Definition in_degrees (pkgs : list WorkspacePackage.t) (graph : Graph)
    : gmap string jsnum :=
  fold_left (λ inDeg '(_, vs), fold_left count_edge vs inDeg)
    (JsMap.entries graph) (zero_degrees pkgs).

(** One turn of the loop over the dependents of the dequeued name:
    the in-degree of [v] drops by one, and [v] joins the queue when it
    reaches zero. *)
Definition relax (st : gmap string jsnum * list string) (v : string)
    : gmap string jsnum * list string :=
  let '(inDeg, q) := st in
  let currentDeg := minus_one (inDeg !! v) in
  (<[v := currentDeg]> inDeg, if is_zero currentDeg then q ++ [v] else q).

(** [while (q.length) { ... }], at most [fuel] turns of it; [out] is
    returned once the queue is empty.  [emitted_fuel] shows that the loop
    has ended before the fuel [topoSort] gives is used up. *)
Fixpoint kahn_loop (fuel : nat) (graph : Graph) (inDeg : gmap string jsnum)
    (q out : list string) : list string :=
  match fuel, q with
  | S fuel', n :: q' =>
      let '(inDeg', q'') := fold_left relax (dependents graph n) (inDeg, q') in
      kahn_loop fuel' graph inDeg' q'' (out ++ [n])
  | _, _ => out
  end.

(** The number of entries of all dependent lists. *)
Definition edge_count (graph : Graph) : nat :=
  sum_list (map (λ e, length e.2) graph).

(** The array [out] of [topoSort] when its loop has ended. *)
Definition emitted (pkgs : list WorkspacePackage.t) (graph : Graph)
    : list string :=
  let inDeg := in_degrees pkgs graph in
  let q := filter (λ n, or_zero (inDeg !! n) = 0) (names pkgs) in
  kahn_loop (length pkgs + edge_count graph) graph inDeg q [].

(** [topoSort(pkgs, graph)]. *)
Definition topoSort (pkgs : list WorkspacePackage.t) (graph : Graph)
    : result (list string) :=
  let out := emitted pkgs graph in
  if decide (length out ≠ length pkgs)
  then Thrown "Cycle detected in local dependency graph."
  else Returned out.

(* ===================================================================== *)
(** * The world of the orchestrator                                       *)
(* ===================================================================== *)

(** [PackageManager]. *)
Inductive PackageManager : Type := npm | yarn | pnpm.

(** [Required<LockstepConfig>], as far as [version] and [publish] read it. *)
Record Config : Type := mkConfig {
  root : string;
  packageManager : PackageManager;
}.

(** What the class reads and changes outside itself: the manifest files,
    the answers of git, and the commands it has run.  The answers of git
    are those of the moment a method is entered: [version], [publish] and
    [main] ask git before they run their first command, never after. *)
Record World : Type := mkWorld {
  (** what [findPackageDirs] returns: the package directories as found
      (the search itself is [search_bases] below) *)
  packageDirs : list string;
  (** the JSON files that can be read and parse as a manifest, by path *)
  files : gmap string PackageJson.t;
  (** [git describe --tags --abbrev=0]; [None] when the command fails *)
  lastTag : option string;
  (** [git log <lastTag>..HEAD --pretty=format:"%s"], trimmed; [None] when
      the command fails *)
  commitsSince : option string;
  (** [git rev-parse --abbrev-ref HEAD], in a repository *)
  currentBranch : string;
  (** the commands run with [stdio: 'inherit'], oldest first, each with its
      working directory if one was given *)
  executed : list (string * option string);
}.

(** A method that reads and changes the world and may throw. *)
Definition M (A : Type) : Type := World → result A * World.

Definition ret {A} (a : A) : M A := λ w, (Returned a, w).
Definition throw {A} (msg : string) : M A := λ w, (Thrown msg, w).
Definition bind {A B} (m : M A) (k : A → M B) : M B :=
  λ w, match m w with
       | (Returned a, w') => k a w'
       | (Thrown msg, w') => (Thrown msg, w')
       end.
Definition lift {A} (r : result A) : M A := λ w, (r, w).

Notation "x ←ₘ m ;; k" := (bind m (λ x, k))
  (at level 100, m at next level, right associativity).
Notation "m ;;ₘ k" := (bind m (λ _, k))
  (at level 100, right associativity).

(** [for (const x of l) body(x)]. *)
Fixpoint for_each {A} (l : list A) (body : A → M unit) : M unit :=
  match l with
  | [] => ret tt
  | x :: rest => body x ;;ₘ for_each rest body
  end.

(** [readJSON(p)]: the manifest at [p]; [fs.readFileSync] throws when
    nothing is at [p].  (A file that is there and does not parse makes
    [JSON.parse] throw; [files] holds no such file.) *)
Definition readJSON (p : string) : M PackageJson.t :=
  λ w, match files w !! p with
       | Some pkg => (Returned pkg, w)
       | None => (Thrown ("ENOENT: no such file or directory, open '" +:+ p +:+ "'"), w)
       end.

(** [writeJSON(p, obj)]. *)
Definition writeJSON (p : string) (obj : PackageJson.t) : M unit :=
  λ w, (Returned tt,
        mkWorld (packageDirs w) (<[p := obj]> (files w)) (lastTag w)
                (commitsSince w) (currentBranch w) (executed w)).

(** [exists(p)], for the path of a JSON file that parses if it is there. *)
Definition exists_file (p : string) : M bool :=
  λ w, (Returned (bool_decide (is_Some (files w !! p))), w).

(** [execSync(cmd, { cwd, stdio: 'inherit' })]; the command is taken to
    succeed, and is recorded.  What git answers after it is not modelled:
    no method asks git again once it has run a command. *)
Definition execSync (cmd : string) (cwd : option string) : M unit :=
  λ w, (Returned tt,
        mkWorld (packageDirs w) (files w) (lastTag w) (commitsSince w)
                (currentBranch w) (executed w ++ [(cmd, cwd)])).

(** [dirs.map(dir => ...)] of [buildWorkspace]: the manifest of every
    directory is read, in order. *)
Fixpoint read_packages (dirs : list string) : M (list WorkspacePackage.t) :=
  match dirs with
  | [] => ret []
  | dir :: rest =>
      pkg ←ₘ readJSON (package_json_in dir) ;;
      packages ←ₘ read_packages rest ;;
      ret (package_of dir pkg :: packages)
  end.

(** [findPackageDirs()]. *)
Definition findPackageDirs : M (list string) :=
  λ w, (Returned (packageDirs w), w).

(** [buildWorkspace()]. *)
Definition buildWorkspace : M WorkspaceInfo.t :=
  dirs ←ₘ findPackageDirs ;;
  packages ←ₘ read_packages dirs ;;
  ret (workspace_of packages).

(** [determineVersionType()]. *)
Definition determineVersionType : M BumpKind :=
  λ w,
    match lastTag w with
    | None => (Returned Patch, w)
    | Some _ =>
        match commitsSince w with
        | None => (Returned Patch, w)
        | Some commits =>
            if trims_to_empty commits then (Returned Patch, w)
            else
              let commitLines :=
                filter (λ line, trims_to_empty line = false) (split_lines commits) in
              (Returned (classify commitLines), w)
        end
    end.

(* ===================================================================== *)
(** * Orchestrator: [version]                                             *)
(* ===================================================================== *)

(** [VersionOptions], the defaults of [skipCi] and [noGitCommit] applied. *)
Record VersionOptions : Type := mkVersionOptions {
  type : BumpType;
  skipCi : bool;
  noGitCommit : bool;
}.

(** One turn of the loop over [Object.entries(deps)]: an entry that is not
    internal, or whose range is not a string, is skipped. *)
Definition bump_range (internalNames : gset string) (next : string)
    (deps : Deps) (entry : string * JsonValue) : Deps :=
  let '(dep, range) := entry in
  if decide (dep ∉ internalNames) then deps
  else match range with
       | JString range => obj_set dep (JString (preserveOperator range next)) deps
       | _ => deps
       end.

(** One turn of the loop over [DEP_FIELDS]: the entries are those the
    object had when the loop started, and the object is changed in place. *)
Definition bump_field (internalNames : gset string) (next : string)
    (pkg : PackageJson.t) (field : DependencyField) : PackageJson.t :=
  match get_deps pkg field with
  | None => pkg
  | Some deps =>
      set_deps field
        (fold_left (bump_range internalNames next) deps deps) pkg
  end.

(** The manifest of a package after its turn of the loop of [version]. *)
Definition bump_manifest (internalNames : gset string) (next : string)
    (pkg : PackageJson.t) : PackageJson.t :=
  fold_left (bump_field internalNames next) DEP_FIELDS
    (set_version next pkg).

(** A double quote. *)
Definition dquote : string := String (ascii_of_nat 34) EmptyString.

(** [version(options)]. *)
Definition version (config : Config) (options : VersionOptions) : M unit :=
  actualType ←ₘ match type options with
                | Auto => determineVersionType
                | Fixed kind => ret kind
                end ;;
  ws ←ₘ buildWorkspace ;;
  let packages := WorkspaceInfo.packages ws in
  current ←ₘ lift (ensureAllSameVersion packages) ;;
  next ←ₘ lift (semverBump current actualType) ;;
  let internalNames : gset string := list_to_set (names packages) in
  (for_each packages (λ p,
     writeJSON (WorkspacePackage.pkgPath p)
       (bump_manifest internalNames next (WorkspacePackage.data p)))) ;;ₘ
  let rootPkgPath := package_json_in (root config) in
  (found ←ₘ exists_file rootPkgPath ;;
   if found : bool then
     rootPkg ←ₘ readJSON rootPkgPath ;;
     if decide (PackageJson.version rootPkg ≠ "")
     then writeJSON rootPkgPath (set_version next rootPkg)
     else ret tt
   else ret tt) ;;ₘ
  if noGitCommit options then ret tt
  else
    execSync "git add ." None ;;ₘ
    let commitMessage :=
      "chore(release): v" +:+ next +:+ (if skipCi options then " [skip ci]" else "") in
    execSync ("git commit -m " +:+ dquote +:+ commitMessage +:+ dquote) None ;;ₘ
    execSync ("git tag v" +:+ next) None.

(* ===================================================================== *)
(** * Orchestrator: [publish]                                             *)
(* ===================================================================== *)

(** [PublishOptions], the defaults of [dry] and [gitPush] applied. *)
Record PublishOptions : Type := mkPublishOptions {
  access : option string;
  dry : bool;
  tag : string;
  gitPush : bool;
}.

(** [tag === 'latest' ? 'latest' : `${currentBranch}-${tag}`]. *)
Definition finalTag (currentBranch tag : string) : string :=
  if decide (tag = "latest") then "latest" else currentBranch +:+ "-" +:+ tag.

(** The publish command of one package. *)
Definition publish_command (pm : PackageManager) (access finalTag : string)
    (dry : bool) : string :=
  let args := ["--access"; access; "--tag"; finalTag] in
  let tail := join " " args +:+ " " +:+ (if dry then "--dry-run" else "") in
  match pm with
  | pnpm => "pnpm publish " +:+ tail
  | yarn => "npm publish " +:+ tail
  | npm => "npm publish " +:+ tail
  end.

(** [git('rev-parse --abbrev-ref HEAD')], taken to succeed (it throws
    outside a repository). *)
Definition git_current_branch : M string :=
  λ w, (Returned (currentBranch w), w).

(** [publish(options)]. *)
Definition publish (config : Config) (options : PublishOptions) : M unit :=
  if decide (tag options = "")
  then throw "--tag parameter is required for publish command"
  else
    ws ←ₘ buildWorkspace ;;
    let packages := WorkspaceInfo.packages ws in
    order ←ₘ lift (topoSort packages (WorkspaceInfo.graph ws)) ;;
    branch ←ₘ git_current_branch ;;
    let finalTag := finalTag branch (tag options) in
    (for_each order (λ name,
       match find (λ x, bool_decide (WorkspacePackage.name x = name)) packages with
       | None => throw ("Package " +:+ name +:+ " not found in workspace")
       | Some p =>
           execSync
             (publish_command (packageManager config)
                (default "public" (access options)) finalTag (dry options))
             (Some (WorkspacePackage.dir p))
       end)) ;;ₘ
    if gitPush options && negb (dry options)
    then execSync "git push --follow-tags" None
    else ret tt.

(* ===================================================================== *)
(** * Repository queries                                                  *)
(* ===================================================================== *)

(** [changedSinceLastTag()].  [diffNames tag] is what
    [git diff --name-only <tag>..HEAD] prints, or the error it fails with;
    [diff.split('\n').some(Boolean)] holds when a piece is not empty. *)
Definition changedSinceLastTag (diffNames : string → result string) : M bool :=
  λ w,
    match lastTag w with
    | None => (Returned true, w)
    | Some lastTag =>
        match diffNames lastTag with
        | Returned diff =>
            (Returned (existsb (λ piece, negb (String.eqb piece ""))
                         (split_lines diff)), w)
        | Thrown msg => (Thrown msg, w)
        end
    end.

(** [detectPackageManager()]; [present p] is [exists(p)]. *)
Definition detectPackageManager (present : string → bool) (root : string)
    : PackageManager :=
  if present (root +:+ "/pnpm-lock.yaml") then pnpm
  else if present (root +:+ "/yarn.lock") then yarn
  else if present (root +:+ "/package-lock.json") then npm
  else npm.

(** [LockstepConfig], as far as [version] and [publish] read it. *)
Record LockstepConfig : Type := mkLockstepConfig {
  config_root : option string;
  config_packageManager : option PackageManager;
}.

(** [new Lockstep(config)]: [config.root || process.cwd()] and
    [config.packageManager || this.detectPackageManager()]. *)
Definition new_Lockstep (present : string → bool) (cwd : string)
    (config : LockstepConfig) : Config :=
  let root :=
    match config_root config with
    | Some r => if String.eqb r "" then cwd else r
    | None => cwd
    end in
  mkConfig root
    (match config_packageManager config with
     | Some pm => pm
     | None => detectPackageManager present root
     end).

(* ===================================================================== *)
(** * Command line ([cli.ts])                                             *)
(* ===================================================================== *)

(** The value of an option: the argument after the flag, or [true]. *)
Inductive CliValue : Type :=
| CliString (s : string)
| CliTrue.

(** [CliOptions], the object [Object.fromEntries] builds. *)
Definition CliOptions : Type := gmap string CliValue.

(** [nextArg && !nextArg.startsWith('--') ? nextArg : true], for
    [nextArg = arr[i + 1]], the head of [rest] if it has one. *)
Definition cli_value (rest : list string) : CliValue :=
  match rest with
  | nextArg :: _ =>
      if negb (String.eqb nextArg "") && negb (startsWith nextArg "--")
      then CliString nextArg
      else CliTrue
  | [] => CliTrue
  end.

(** The pairs the [reduce] of [parseCliOptions] collects: one for every
    argument that starts with [--], the key being what follows the
    dashes. *)
Fixpoint cli_entries (args : list string) : list (string * CliValue) :=
  match args with
  | [] => []
  | x :: rest =>
      match strip_literal "--" x with
      | Some key => (key, cli_value rest) :: cli_entries rest
      | None => cli_entries rest
      end
  end.

(** [Object.fromEntries(entries)]: a later pair replaces an earlier one
    of the same key. *)
Definition from_entries (entries : list (string * CliValue)) : CliOptions :=
  fold_left (λ opts entry, <[entry.1 := entry.2]> opts) entries ∅.

(** [parseCliOptions(args)]. *)
Definition parseCliOptions (args : list string) : CliOptions :=
  from_entries (cli_entries args).

(** [Boolean(opts.key)]. *)
Definition truthy (x : option CliValue) : bool :=
  match x with
  | Some CliTrue => true
  | Some (CliString s) => negb (String.eqb s "")
  | None => false
  end.

(** [String(opts.key || fallback)]. *)
Definition string_or (x : option CliValue) (fallback : string) : string :=
  match x with
  | Some CliTrue => "true"
  | Some (CliString s) => if String.eqb s "" then fallback else s
  | None => fallback
  end.

(** [opts.key === true ? ifTrue : String(opts.key || fallback)]. *)
Definition string_unless_true (x : option CliValue) (ifTrue fallback : string)
    : string :=
  match x with
  | Some CliTrue => ifTrue
  | _ => string_or x fallback
  end.

(** The [BumpType] a string is, if it is one of the four. *)
Definition bump_type_of (type : string) : option BumpType :=
  if String.eqb type "patch" then Some (Fixed Patch)
  else if String.eqb type "minor" then Some (Fixed Minor)
  else if String.eqb type "major" then Some (Fixed Major)
  else if String.eqb type "auto" then Some Auto
  else None.

(** What [main] reads of its process besides the arguments. *)
Record Process : Type := mkProcess {
  (** [process.cwd()] *)
  cwd : string;
  (** [exists(p)] for the lock files *)
  present : string → bool;
  (** what [git diff --name-only <tag>..HEAD] prints *)
  diffNames : string → result string;
}.

(** How a run of [main] ends. *)
Inductive Outcome : Type :=
| ShowedHelp                      (** [showHelp()] *)
| ShowedVersion                   (** [showVersion()] *)
| Completed                       (** the command returned *)
| Skipped                         (** no changes: [process.exit(0)] *)
| UnknownCommand (cmd : string)   (** [process.exit(1)] *)
| Failed (msg : string).          (** caught: [Error: msg], [process.exit(1)] *)

(** [main()], for [process.argv = argv]. *)
Definition main (env : Process) (argv : list string) : World → Outcome * World :=
  λ w,
    let cmd := default "" (argv !! 2%nat) in
    let rest := drop 3 argv in
    let opts := parseCliOptions rest in
    if String.eqb cmd "" || String.eqb cmd "help" || truthy (opts !! "help")
    then (ShowedHelp, w)
    else if String.eqb cmd "version" &&
            (truthy (opts !! "version") || truthy (opts !! "v"))
    then (ShowedVersion, w)
    else
      let lockstep := new_Lockstep (present env) (cwd env) (mkLockstepConfig None None) in
      if String.eqb cmd "version" then
        match bump_type_of (string_or (opts !! "type") "patch") with
        | None => (Failed "--type must be patch|minor|major|auto", w)
        | Some type =>
            match changedSinceLastTag (diffNames env) w with
            | (Thrown msg, w') => (Failed msg, w')
            | (Returned false, w') => (Skipped, w')
            | (Returned true, w') =>
                let skipCi := truthy (opts !! "ci") in
                let noGitCommit := truthy (opts !! "no-git-commit") in
                match version lockstep (mkVersionOptions type skipCi noGitCommit) w' with
                | (Returned _, w'') => (Completed, w'')
                | (Thrown msg, w'') => (Failed msg, w'')
                end
            end
        end
      else if String.eqb cmd "publish" then
        let access := string_unless_true (opts !! "access") "public" "public" in
        let dry := truthy (opts !! "dry") in
        let tag := string_unless_true (opts !! "tag") "" "" in
        let gitPush := truthy (opts !! "git-push") in
        if String.eqb tag ""
        then (Failed "--tag parameter is required for publish command", w)
        else
          match publish lockstep (mkPublishOptions (Some access) dry tag gitPush) w with
          | (Returned _, w') => (Completed, w')
          | (Thrown msg, w') => (Failed msg, w')
          end
      else (UnknownCommand cmd, w).

(* ===================================================================== *)
(** * Finding the packages                                                *)
(* ===================================================================== *)

(** What [findPackageDirs] sees of the file system.  [readdirSync] lists
    the entries of a directory in some order, and [entry.isDirectory()]
    holds for an entry that is itself a directory; a link is not one,
    wherever it leads.  [exists] ([fs.accessSync]) follows links: it finds
    everything but a link that leads nowhere. *)
Inductive Node : Type :=
| File                                        (** not a directory, and found by [exists] *)
| Dangling                                    (** a link that leads nowhere *)
| Directory (entries : list (string * Node)). (** a directory, with what [readdirSync] lists *)

(** [exists(p)] for a path [p] that holds [node]. *)
Definition accessible (node : Node) : bool :=
  match node with
  | Dangling => false
  | File | Directory _ => true
  end.

(** [exists(path.join(dir, name))], for a directory [dir] with these
    entries. *)
Definition has_entry (name : string) (entries : list (string * Node)) : bool :=
  existsb (λ entry, String.eqb entry.1 name && accessible entry.2) entries.

Section findPackageDirs.

(** [path.join], of two arguments. *)
Variable path_join : string → string → string.

(** [searchRecursively(dirPath)] for an existing [dirPath] that holds
    [node]: the directories pushed onto [dirs], in order. *)
Fixpoint searchRecursively (dirPath : string) (node : Node) : list string :=
  match node with
  | File | Dangling => []
  | Directory entries =>
      (fix each (entries : list (string * Node)) : list string :=
         match entries with
         | [] => []
         | (name, entry) :: rest =>
             match entry with
             | Directory inside =>
                 let entryPath := path_join dirPath name in
                 (if has_entry "package.json" inside then [entryPath] else []) ++
                 searchRecursively entryPath entry ++ each rest
             | File | Dangling => each rest
             end
         end) entries
  end.

(** [searchRecursively(basePath)] from the top: nothing when [exists]
    does not find the path, and [readdirSync] throws when it is not a
    directory. *)
Definition search_base (fs : string → option Node) (basePath : string)
    : result (list string) :=
  match fs basePath with
  | None | Some Dangling => Returned []
  | Some File => Thrown ("ENOTDIR: not a directory, scandir '" +:+ basePath +:+ "'")
  | Some (Directory entries) => Returned (searchRecursively basePath (Directory entries))
  end.

(** [findPackageDirs()] over the file system [fs], which gives what is at
    a base path. *)
Fixpoint search_bases (fs : string → option Node) (root : string)
    (packagesDirs : list string) : result (list string) :=
  match packagesDirs with
  | [] => Returned []
  | base :: rest =>
      match search_base fs (path_join root base) with
      | Thrown msg => Thrown msg
      | Returned dirs =>
          match search_bases fs root rest with
          | Thrown msg => Thrown msg
          | Returned more => Returned (dirs ++ more)
          end
      end
  end.

End findPackageDirs.

(* ===================================================================== *)
(** * Vocabulary of the statements                                        *)
(* ===================================================================== *)

(** [s] has at least one code unit, and all of them satisfy [p]. *)
Definition run_of (p : ascii → bool) (s : string) : Prop :=
  s ≠ "" ∧ string_forallb p s = true.

(** [sub] occurs in [s]. *)
Definition contains (s sub : string) : Prop :=
  ∃ before after, s = before +:+ sub +:+ after.

(** The strings [/^(\d+)\.(\d+)\.(\d+)(-.+)?$/] matches, with what the
    three groups capture. *)
Definition semver_shape (v MA MI PA : string) : Prop :=
  ∃ suffix,
    v = MA +:+ "." +:+ MI +:+ "." +:+ PA +:+ suffix ∧
    run_of is_digit MA ∧ run_of is_digit MI ∧ run_of is_digit PA ∧
    (suffix = "" ∨ ∃ pre, suffix = "-" +:+ pre ∧ run_of is_dot pre).

(** The strings [/^kw(\(.+\))?:/] matches: the keyword, an optional
    parenthesised scope, a colon, and anything after. *)
Definition type_shape (kw s : string) : Prop :=
  (∃ rest, s = kw +:+ ":" +:+ rest) ∨
  (∃ scope rest, run_of is_dot scope ∧ s = kw +:+ "(" +:+ scope +:+ "):" +:+ rest).

(** The line is flagged BREAKING. *)
Definition is_breaking (commit : string) : bool :=
  includes commit "BREAKING CHANGE" || includes commit "!:".

(** The line is flagged FEATURE: not breaking, and a [feat] line. *)
Definition is_feature (commit : string) : bool :=
  negb (is_breaking commit) && match_feat commit.

(** The line is flagged FIX: neither breaking nor a feature, and a line of
    one of the maintenance types. *)
Definition is_fix (commit : string) : bool :=
  negb (is_breaking commit) && negb (match_feat commit) && match_fix commit.

(** What follows a greedy run of digits does not start with a digit. *)
Definition no_digit_head (r : string) : Prop :=
  match r with
  | EmptyString => True
  | String c _ => is_digit c = false
  end.

(** The version string a bump of the three numbers prints. *)
Definition bumped (type : BumpKind) (major minor patch : N) : string :=
  match type with
  | Major => number_to_string (major + 1) +:+ ".0.0"
  | Minor => number_to_string major +:+ "." +:+ number_to_string (minor + 1) +:+ ".0"
  | Patch => number_to_string major +:+ "." +:+ number_to_string minor +:+ "." +:+
             number_to_string (patch + 1)
  end.

(** The keys of a dependency field of a package, none when the field is
    absent ([Object.keys(p.data[field] || {})]). *)
Definition field_keys (p : WorkspacePackage.t) (field : DependencyField)
    : list string :=
  keys (default [] (get_deps (WorkspacePackage.data p) field)).

(** The dependents recorded for a workspace member [depName]: the name of
    a package once for every key equal to [depName] in each of its four
    fields, package by package and field by field. *)
Definition edges_into (pkgs : list WorkspacePackage.t) (depName : string)
    : list string :=
  p ← pkgs;
  field ← DEP_FIELDS;
  key ← field_keys p field;
  if decide (key = depName) then [WorkspacePackage.name p] else [].

(** The graph builder as the specification words it: as [edges_into], but a
    package that lists its own name, and a dependency whose range is not a
    string, add no edge. *)
Definition spec_edges_into (pkgs : list WorkspacePackage.t) (depName : string)
    : list string :=
  p ← pkgs;
  field ← DEP_FIELDS;
  '(key, range) ← default [] (get_deps (WorkspacePackage.data p) field);
  if decide (key = depName ∧ key ≠ WorkspacePackage.name p)
  then match range with
       | JString _ => [WorkspacePackage.name p]
       | _ => []
       end
  else [].

(** The workspace-internal dependency relation: the package named [p] lists
    the workspace member [d] in one of its dependency fields. *)
Definition depends_on (pkgs : list WorkspacePackage.t) (p d : string) : Prop :=
  d ∈ names pkgs ∧
  ∃ P field, P ∈ pkgs ∧ WorkspacePackage.name P = p ∧ d ∈ field_keys P field.

(** No package depends on itself through a chain of internal
    dependencies. *)
Definition acyclic (pkgs : list WorkspacePackage.t) : Prop :=
  ∀ n, ¬ tc (depends_on pkgs) n n.

(** Some package depends on itself through a chain of internal
    dependencies. *)
Definition has_cycle (pkgs : list WorkspacePackage.t) : Prop :=
  ∃ n, tc (depends_on pkgs) n n.

(* ===================================================================== *)
(** * Notions of the proofs                                               *)
(* ===================================================================== *)

(** How often [v] occurs in [vs]. *)
Definition occ (v : string) (vs : list string) : nat :=
  length (filter (λ x, x = v) vs).

(** The edges into [v] from the names that are not in [out]: what is left
    of the in-degree of [v] once the names of [out] have been dequeued. *)
Definition rdeg (graph : Graph) (out : list string) (v : string) : nat :=
  sum_list (map (λ e, if decide (e.1 ∈ out) then 0%nat else occ v e.2) graph).

(** The invariant of the loops of [topoSort] over a graph whose keys are
    [ns]: [out] holds the names dequeued so far and [todo] the dependents
    of the last of them that the inner loop has not visited yet. *)
Definition kahn_inv (graph : Graph) (ns todo : list string)
    (inDeg : gmap string jsnum) (q out : list string) : Prop :=
  NoDup (out ++ q) ∧
  (∀ x, x ∈ out ++ q → x ∈ ns) ∧
  (∀ v, v ∈ ns →
     inDeg !! v = Some (Num (Z.of_nat (rdeg graph out v + occ v todo)))) ∧
  (∀ v, v ∈ ns → v ∈ out ++ q ↔ (rdeg graph out v + occ v todo = 0)%nat) ∧
  (∀ u v, v ∈ dependents graph u → v ∈ out ++ q →
     ∃ i j, (out ++ q) !! i = Some u ∧ (out ++ q) !! j = Some v ∧ (i < j)%nat) ∧
  (∀ v, v ∈ todo → v ∈ ns).

(** Every member of the list is related to the next one. *)
Fixpoint chain (R : relation string) (l : list string) : Prop :=
  match l with
  | a :: (b :: _) as rest => R a b ∧ chain R rest
  | _ => True
  end.

(** [x > 0]. *)
Definition is_positive (x : jsnum) : bool :=
  match x with
  | Num z => 0 <? z
  | NaN => false
  end.

(** The number of names whose in-degree is a positive number: with the
    length of the queue, the number of turns the loop of [topoSort] still
    makes. *)
Definition positive_degrees (inDeg : gmap string jsnum) : nat :=
  size (filter (λ kv, is_positive kv.2 = true) inDeg).

(** The dependents one field of one package adds to the entry of [k]. *)
Definition field_edges (byName : gmap string WorkspacePackage.t)
    (p : WorkspacePackage.t) (field : DependencyField) (k : string) : list string :=
  key ← field_keys p field;
  if decide (key = k ∧ is_Some (byName !! key)) then [WorkspacePackage.name p] else [].

(** An output of [topoSort] in which every recorded edge goes forward. *)
Definition edges_forward (graph : Graph) (out : list string) : Prop :=
  ∀ dependency dependent, dependent ∈ dependents graph dependency →
  ∀ i j, out !! i = Some dependency → out !! j = Some dependent → (i < j)%nat.

(* ===================================================================== *)
(** * Notions of the further statements                                   *)
(* ===================================================================== *)

(** The commands [version] runs to commit and tag the release [next]. *)
Definition release_commands (skipCi : bool) (next : string)
    : list (string * option string) :=
  [("git add .", None);
   ("git commit -m " +:+ dquote +:+
      ("chore(release): v" +:+ next +:+ (if skipCi then " [skip ci]" else ""))
      +:+ dquote, None);
   ("git tag v" +:+ next, None)].

(** The files once the loop of [version] has written the packages. *)
Definition written_files (internalNames : gset string) (next : string)
    (packages : list WorkspacePackage.t) (files : gmap string PackageJson.t)
    : gmap string PackageJson.t :=
  fold_left
    (λ m p, <[WorkspacePackage.pkgPath p :=
                bump_manifest internalNames next (WorkspacePackage.data p)]> m)
    packages files.

(** The files once [version] has dealt with the root manifest. *)
Definition root_bumped (next rootPkgPath : string)
    (files : gmap string PackageJson.t) : gmap string PackageJson.t :=
  match files !! rootPkgPath with
  | Some rootPkg =>
      if decide (PackageJson.version rootPkg ≠ "")
      then <[rootPkgPath := set_version next rootPkg]> files
      else files
  | None => files
  end.

(** The order of the bump kinds: patch below minor below major. *)
Definition kind_rank (kind : BumpKind) : nat :=
  match kind with
  | Patch => 0
  | Minor => 1
  | Major => 2
  end.

(** The greater of two bump kinds. *)
Definition kind_max (a b : BumpKind) : BumpKind :=
  if (kind_rank a <? kind_rank b)%nat then b else a.

(** What [buildWorkspace] makes of the directory [dir]: the package of the
    manifest found there. *)
Definition read_as (w : World) (dir : string) (p : WorkspacePackage.t) : Prop :=
  ∃ pkg, files w !! package_json_in dir = Some pkg ∧ p = package_of dir pkg.

(** Two packages the graph builder cannot tell apart: the same name and
    the same keys in every dependency field. *)
Definition same_edges (p p' : WorkspacePackage.t) : Prop :=
  WorkspacePackage.name p = WorkspacePackage.name p' ∧
  ∀ field, field_keys p field = field_keys p' field.

(** The commands of the loop of [publish] over [order]: [cmd], run in the
    directory of the first package that has the name. *)
Definition published (cmd : string) (packages : list WorkspacePackage.t)
    (order : list string) : list (string * option string) :=
  omap (λ name,
          (λ p, (cmd, Some (WorkspacePackage.dir p))) <$>
            find (λ x, bool_decide (WorkspacePackage.name x = name)) packages)
       order.

(** The three numbers after a bump. *)
Definition bump_numbers (type : BumpKind) (major minor patch : N) : N * N * N :=
  match type with
  | Major => ((major + 1)%N, 0%N, 0%N)
  | Minor => (major, (minor + 1)%N, 0%N)
  | Patch => (major, minor, (patch + 1)%N)
  end.

(** [dirPath] with the names of [names] joined on by [path.join], one
    after the other. *)
Definition join_path (path_join : string → string → string) (dirPath : string)
    (names : list string) : string :=
  fold_left path_join names dirPath.

(** The directory reached from [node] by going down through the
    directories named in [names]. *)
Inductive reaches : Node → list string → Node → Prop :=
| reaches_here (node : Node) : reaches node [] node
| reaches_down (entries : list (string * Node)) (name : string)
    (inside : list (string * Node)) (names : list string) (node : Node) :
    (name, Directory inside) ∈ entries →
    reaches (Directory inside) names node →
    reaches (Directory entries) (name :: names) node.

(* ===================================================================== *)
(** * Example workspaces                                                  *)
(* ===================================================================== *)

(** Three packages at 1.0.0: [a] depends on [b] and on an external
    package, [b] names [c] both as a dependency and as a development
    dependency. *)
Definition example_a : PackageJson.t :=
  PackageJson.mk "a" "1.0.0"
    (Some [("b", JString "^1.0.0"); ("lodash", JString "^4.17.0")]) None None None.
Definition example_b : PackageJson.t :=
  PackageJson.mk "b" "1.0.0"
    (Some [("c", JString "~1.0.0")]) (Some [("c", JString "~1.0.0")]) None None.
Definition example_c : PackageJson.t :=
  PackageJson.mk "c" "1.0.0" None None None None.

Definition example_packages : list WorkspacePackage.t :=
  [package_of "packages/a" example_a; package_of "packages/b" example_b;
   package_of "packages/c" example_c].

(** Two packages that depend on each other. *)
Definition mutual_packages : list WorkspacePackage.t :=
  [package_of "packages/x"
     (PackageJson.mk "x" "1.0.0" (Some [("y", JString "^1.0.0")]) None None None);
   package_of "packages/y"
     (PackageJson.mk "y" "1.0.0" (Some [("x", JString "^1.0.0")]) None None None)].

(** Two packages named [x], a package [m], a package [n] that depends on
    [m], and a package [d] that depends on [x] and on [n]. *)
Definition twin_packages : list WorkspacePackage.t :=
  [package_of "packages/x" (PackageJson.mk "x" "1.0.0" None None None None);
   package_of "vendor/x" (PackageJson.mk "x" "1.0.0" None None None None);
   package_of "packages/m" (PackageJson.mk "m" "1.0.0" None None None None);
   package_of "packages/n"
     (PackageJson.mk "n" "1.0.0" (Some [("m", JString "^1.0.0")]) None None None);
   package_of "packages/d"
     (PackageJson.mk "d" "1.0.0"
        (Some [("x", JString "^1.0.0"); ("n", JString "^1.0.0")]) None None None)].

(** Two packages named [b] that depend on the package [a]. *)
Definition twin_dependents : list WorkspacePackage.t :=
  [package_of "packages/b"
     (PackageJson.mk "b" "1.0.0" (Some [("a", JString "^1.0.0")]) None None None);
   package_of "vendor/b"
     (PackageJson.mk "b" "1.0.0" (Some [("a", JString "^1.0.0")]) None None None);
   package_of "packages/a" (PackageJson.mk "a" "1.0.0" None None None None)].

(** Two packages named [a], and a package [b] that names [a] both as a
    dependency and as a development dependency. *)
Definition twin_members : list WorkspacePackage.t :=
  [package_of "packages/a" (PackageJson.mk "a" "1.0.0" None None None None);
   package_of "vendor/a" (PackageJson.mk "a" "1.0.0" None None None None);
   package_of "packages/b"
     (PackageJson.mk "b" "1.0.0" (Some [("a", JString "^1.0.0")])
        (Some [("a", JString "^1.0.0")]) None None)].

(** A package that lists its own name, and one whose range for a workspace
    member is not a string. *)
Definition odd_packages : list WorkspacePackage.t :=
  [package_of "packages/s"
     (PackageJson.mk "s" "1.0.0" (Some [("s", JString "^1.0.0")]) None None None);
   package_of "packages/t"
     (PackageJson.mk "t" "1.0.0" (Some [("u", JNull)]) None None None);
   package_of "packages/u" (PackageJson.mk "u" "1.0.0" None None None None)].

(** Two packages whose versions differ. *)
Definition unequal_packages : list WorkspacePackage.t :=
  [package_of "packages/a" example_a;
   package_of "packages/d" (PackageJson.mk "d" "1.1.0" None None None None)].

(** The example workspace on disk, on branch [feature-x]. *)
Definition example_world : World :=
  mkWorld ["packages/a"; "packages/b"; "packages/c"]
    (<["packages/a/package.json" := example_a]>
       (<["packages/b/package.json" := example_b]>
          (<["packages/c/package.json" := example_c]> ∅)))
    None None "feature-x" [].

(** The two packages that depend on each other, on disk. *)
Definition mutual_world : World :=
  mkWorld ["packages/x"; "packages/y"]
    (list_to_map
       ((λ p, (WorkspacePackage.pkgPath p, WorkspacePackage.data p)) <$> mutual_packages))
    None None "main" [].

(** A checkout without packages. *)
Definition empty_world : World := mkWorld [] ∅ None None "main" [].

(** The range a dependency has after [version]: the range of an internal
    dependency that is a string keeps its operator and takes the next
    version, any other range stays. *)
Definition bumped_range (internalNames : gset string) (next dep : string)
    (range : JsonValue) : JsonValue :=
  match range with
  | JString r =>
      if decide (dep ∈ internalNames) then JString (preserveOperator r next)
      else range
  | _ => range
  end.

(** A dependency object after [version]. *)
Definition bumped_deps (internalNames : gset string) (next : string)
    (deps : Deps) : Deps :=
  (λ entry, (entry.1, bumped_range internalNames next entry.1 entry.2)) <$> deps.



(** Two packages that depend on outside packages only. *)
Definition independent_packages : list WorkspacePackage.t :=
  [package_of "packages/p"
     (PackageJson.mk "p" "1.0.0" (Some [("lodash", JString "^4.17.0")]) None None None);
   package_of "packages/q"
     (PackageJson.mk "q" "1.0.0" None (Some [("vitest", JString "^1.0.0")]) None None)].

(** The root of the example workspace and the options of a minor release
    with [--ci]. *)
Definition example_config : Config := mkConfig "." npm.
Definition minor_release : VersionOptions := mkVersionOptions (Fixed Minor) true false.

(** The example workspace after the minor release. *)
Definition released_world : World :=
  (version example_config minor_release example_world).2.

(** Publishing under [alpha] with a push. *)
Definition alpha_publish : PublishOptions := mkPublishOptions None false "alpha" true.

(** The example workspace after it is published. *)
Definition published_world : World :=
  (publish example_config alpha_publish example_world).2.

(** A process in the example workspace: no lock file, and nothing changed
    since the last tag. *)
Definition example_process : Process :=
  mkProcess "." (λ _, false) (λ _, Returned "").

(** The example workspace with a root manifest and a demo outside the
    packages, both depending on the package [a]. *)
Definition rooted_world : World :=
  mkWorld ["packages/a"; "packages/b"; "packages/c"]
    (<["./package.json" :=
         PackageJson.mk "root" "1.0.0" None (Some [("a", JString "^1.0.0")]) None None]>
       (<["demo/package.json" :=
            PackageJson.mk "demo" "0.0.1" (Some [("a", JString "^1.0.0")]) None None None]>
          (files example_world)))
    None None "feature-x" [].

(** The rooted workspace after the minor release. *)
Definition rooted_released_world : World :=
  (version example_config minor_release rooted_world).2.

(* ===================================================================== *)
(** * Strings                                                             *)
(* ===================================================================== *)

Lemma append_nil_l (s : string) : "" +:+ s = s.
Proof. reflexivity. Qed.

Lemma append_cons (c : ascii) (s t : string) :
  String c s +:+ t = String c (s +:+ t).
Proof. reflexivity. Qed.

Lemma append_nil_r (s : string) : s +:+ "" = s.
Proof. induction s as [|c s IH]; [done|]. by rewrite append_cons, IH. Qed.

Lemma append_assoc (s t u : string) : (s +:+ t) +:+ u = s +:+ t +:+ u.
Proof. induction s as [|c s IH]; [done|]. by rewrite !append_cons, IH. Qed.

Lemma prefix_spec (p s : string) :
  String.prefix p s = true ↔ ∃ t, s = p +:+ t.
Proof.
  revert s. induction p as [|a p IH]; intros s; simpl.
  - split; [intros _; by exists s | by destruct s].
  - destruct s as [|b s]; simpl.
    + split; [done | by intros [t ?]].
    + destruct (ascii_dec a b) as [->|Hab].
      * rewrite IH. split; intros [t Ht]; exists t.
        -- by rewrite append_cons, Ht.
        -- rewrite append_cons in Ht. by injection Ht.
      * split; [done|]. intros [t Ht]. rewrite append_cons in Ht.
        injection Ht as ??. by subst.
Qed.

Lemma strip_literal_spec (p s r : string) :
  strip_literal p s = Some r ↔ s = p +:+ r.
Proof.
  revert s. induction p as [|a p IH]; intros s; simpl.
  - rewrite append_nil_l. split; congruence.
  - destruct s as [|b s]; rewrite append_cons; [done|].
    destruct (Ascii.eqb_spec a b) as [->|Hab].
    + rewrite IH. split; congruence.
    + split; [done | congruence].
Qed.

Lemma includes_spec (s sub : string) :
  includes s sub = true ↔ contains s sub.
Proof.
  unfold contains. induction s as [|c s IH]; cbn [includes].
  - rewrite orb_false_r, prefix_spec. split.
    + intros [t Ht]. by exists "", t.
    + intros ([|a before] & after & H); [by exists after|done].
  - rewrite orb_true_iff, prefix_spec, IH. split.
    + intros [[t Ht]|(before & after & H)].
      * by exists "", t.
      * exists (String c before), after. by rewrite append_cons, H.
    + intros ([|a before] & after & H).
      * left. by exists after.
      * right. rewrite append_cons in H. injection H as -> H.
        by exists before, after.
Qed.

Lemma scope_close_spec (s : string) :
  scope_close s = true ↔
  ∃ scope rest, run_of is_dot scope ∧ s = scope +:+ "):" +:+ rest.
Proof.
  unfold run_of. induction s as [|c s IH]; cbn [scope_close].
  - split; [done|]. by intros ([|??] & rest & [??] & ?).
  - rewrite andb_true_iff, orb_true_iff, prefix_spec, IH. split.
    + intros [Hc [[rest ->]|(scope & rest & [_ Hs] & ->)]].
      * exists (String c ""), rest. simpl. by rewrite Hc.
      * exists (String c scope), rest. simpl. by rewrite Hc, Hs.
    + intros ([|a scope] & rest & [Hne Hall] & H); [done|].
      rewrite append_cons in H. injection H as <- ->.
      simpl in Hall. apply andb_true_iff in Hall as [Hc Hall].
      split; [done|]. destruct scope as [|b scope].
      * left. by exists rest.
      * right. by exists (String b scope), rest.
Qed.

Lemma match_type_spec (kw s : string) :
  match_type kw s = true ↔ type_shape kw s.
Proof.
  unfold match_type, type_shape. destruct (strip_literal kw s) as [r|] eqn:Hr.
  - apply strip_literal_spec in Hr as ->. unfold scope_colon.
    rewrite orb_true_iff, prefix_spec. split.
    + intros [[rest ->]|H]; [left; by exists rest|right].
      destruct r as [|c r]; [done|].
      apply andb_true_iff in H as [Hc H].
      apply Ascii.eqb_eq in Hc as ->.
      apply scope_close_spec in H as (scope & rest & ? & ->).
      by exists scope, rest.
    + intros [[rest H]|(scope & rest & ? & H)]; apply (inj (String.app kw)) in H.
      * left. by exists rest.
      * right. subst r. simpl. apply scope_close_spec. by exists scope, rest.
  - split; [done|].
    intros [[rest H]|(scope & rest & ? & H)];
      apply strip_literal_spec in H; congruence.
Qed.


Lemma span_digits_spec (s d r : string) :
  span_digits s = (d, r) ↔
  s = d +:+ r ∧ string_forallb is_digit d = true ∧ no_digit_head r.
Proof.
  revert d r. induction s as [|c s IH]; intros d r; cbn [span_digits].
  - split.
    + by intros [= <- <-].
    + intros (H & _ & _). destruct d; [|done]. by rewrite append_nil_l in H; subst.
  - destruct (is_digit c) eqn:Hc.
    + destruct (span_digits s) as [d' r'] eqn:Hs.
      specialize (IH d' r') as [IH _]. destruct (IH eq_refl) as (-> & Hd' & Hr').
      split.
      * intros [= <- <-]. simpl. by rewrite Hc.
      * intros (H & Hd & Hr). destruct d as [|a d].
        { rewrite append_nil_l in H. subst r. simpl in Hr. congruence. }
        rewrite append_cons in H. injection H as <- H.
        simpl in Hd. apply andb_true_iff in Hd as [_ Hd].
        assert (span_digits (d' +:+ r') = (d, r)) as Heq.
        { rewrite H. clear -Hd Hr. induction d as [|a d IHd]; simpl.
          - rewrite append_nil_l. destruct r as [|b r]; [done|].
            simpl in *. by rewrite Hr.
          - simpl in Hd. apply andb_true_iff in Hd as [-> Hd].
            by rewrite (IHd Hd). }
        rewrite Hs in Heq. by injection Heq as -> ->.
    + split.
      * by intros [= <- <-].
      * intros (H & Hd & Hr). destruct d as [|a d].
        -- by rewrite append_nil_l in H; subst.
        -- rewrite append_cons in H. injection H as <- H.
           simpl in Hd. rewrite Hc in Hd. done.
Qed.

Lemma digits1_spec (s d r : string) :
  digits1 s = Some (d, r) ↔
  s = d +:+ r ∧ run_of is_digit d ∧ no_digit_head r.
Proof.
  unfold digits1, run_of.
  destruct (span_digits s) as [d' r'] eqn:Hs.
  split.
  - intros H. assert (d' ≠ "" ∧ d' = d ∧ r' = r) as (? & -> & ->).
    { destruct d'; [done|]. by injection H as <- <-. }
    apply span_digits_spec in Hs as (? & ? & ?). done.
  - intros (H & [Hne Hd] & Hr).
    assert (span_digits s = (d, r)) as Heq by (apply span_digits_spec; done).
    rewrite Hs in Heq. injection Heq as -> ->. by destruct d.
Qed.

Lemma prerelease_end_spec (r : string) :
  prerelease_end r = true ↔
  r = "" ∨ ∃ pre, r = "-" +:+ pre ∧ run_of is_dot pre.
Proof.
  unfold run_of. destruct r as [|c r]; simpl.
  - split; [by left|done].
  - rewrite andb_true_iff, Ascii.eqb_eq. split.
    + intros [-> H]. right. exists r. destruct r; [done|]. by split_and!.
    + intros [?|(pre & H & Hne & Hall)]; [done|].
      injection H as -> ->. split; [done|]. by destruct pre.
Qed.

Lemma semver_match_spec (v MA MI PA : string) :
  semver_match v = Some (MA, MI, PA) ↔ semver_shape v MA MI PA.
Proof.
  unfold semver_match, semver_shape. split.
  - intros H.
    destruct (digits1 v) as [[ma r1]|] eqn:H1; cbn -[strip_literal digits1 prerelease_end] in H; [|done].
    destruct (strip_literal "." r1) as [r2|] eqn:H2; cbn -[strip_literal digits1 prerelease_end] in H; [|done].
    destruct (digits1 r2) as [[mi r3]|] eqn:H3; cbn -[strip_literal digits1 prerelease_end] in H; [|done].
    destruct (strip_literal "." r3) as [r4|] eqn:H4; cbn -[strip_literal digits1 prerelease_end] in H; [|done].
    destruct (digits1 r4) as [[pa r5]|] eqn:H5; cbn -[strip_literal digits1 prerelease_end] in H; [|done].
    destruct (prerelease_end r5) eqn:H6; [|done]. injection H as -> -> ->.
    apply digits1_spec in H1 as (-> & ? & _), H3 as (-> & ? & _), H5 as (-> & ? & _).
    apply strip_literal_spec in H2 as ->, H4 as ->.
    apply prerelease_end_spec in H6. by exists r5.
  - intros (suffix & -> & HMA & HMI & HPA & Hsuf).
    assert (digits1 (PA +:+ suffix) = Some (PA, suffix)) as HP.
    { apply digits1_spec. split_and!; [done..|].
      destruct Hsuf as [->|(pre & -> & _)]; done. }
    assert (∀ s t, run_of is_digit s →
              digits1 (s +:+ "." +:+ t) = Some (s, "." +:+ t)) as Hd.
    { intros s t Hs. by apply digits1_spec. }
    assert (∀ t, strip_literal "." ("." +:+ t) = Some t) as Hl.
    { intros t. by apply strip_literal_spec. }
    rewrite Hd by done. cbn [mbind option_bind]. rewrite Hl. cbn [mbind option_bind].
    rewrite Hd by done. cbn [mbind option_bind]. rewrite Hl. cbn [mbind option_bind].
    rewrite HP. cbn [mbind option_bind].
    by apply prerelease_end_spec in Hsuf as ->.
Qed.


Lemma scan_commits_from (commitLines : list string) (f : Flags) :
  fold_left scan_commit commitLines f =
  mkFlags (hasBreaking f || existsb is_breaking commitLines)
          (hasFeature f || existsb is_feature commitLines)
          (hasFix f || existsb is_fix commitLines).
Proof.
  revert f. induction commitLines as [|c l IH]; intros [b ft fx]; simpl.
  - by rewrite !orb_false_r.
  - rewrite IH. unfold scan_commit, is_feature, is_fix, is_breaking.
    destruct (includes c "BREAKING CHANGE" || includes c "!:"); simpl.
    { by rewrite orb_true_r. }
    destruct (match_feat c); simpl.
    { by rewrite orb_true_r. }
    destruct (match_fix c); simpl; [by rewrite orb_true_r|done].
Qed.

Lemma string_of_uint_digits (d : Decimal.uint) :
  string_forallb is_digit (NilEmpty.string_of_uint d) = true.
Proof. induction d; simpl; done. Qed.

Lemma number_to_string_digits (n : N) : run_of is_digit (number_to_string n).
Proof.
  unfold number_to_string, NilZero.string_of_uint, run_of.
  destruct (N.to_uint n) eqn:Hn; simpl; try done;
    (split; [done|apply string_of_uint_digits]).
Qed.

(** Claim C3.  [classify] over a sequence of commit subject lines
    accumulates three flags over the whole sequence.  A line is checked
    first for BREAKING (it contains [BREAKING CHANGE] or [!:]), else for
    FEATURE (it matches [^feat(\(.+\))?:]), else for FIX (it matches
    [^(fix|docs|style|refactor|test|chore)(\(.+\))?:]), and sets the flag of
    the first check that holds.  The result is major if some line was
    flagged BREAKING, else minor if some line was flagged FEATURE, else
    patch.  The four examples of the specification hold. *)
Theorem classify_spec (commitLines : list string) :
  scan_commits commitLines =
    mkFlags (existsb is_breaking commitLines) (existsb is_feature commitLines)
            (existsb is_fix commitLines) ∧
  classify commitLines =
    (if existsb is_breaking commitLines then Major
     else if existsb is_feature commitLines then Minor
     else if existsb is_fix commitLines then Patch
     else Patch) ∧
  (∀ c, is_breaking c = true ↔ contains c "BREAKING CHANGE" ∨ contains c "!:") ∧
  (∀ c, is_feature c = true ↔ is_breaking c = false ∧ type_shape "feat" c) ∧
  (∀ c, is_fix c = true ↔
     is_breaking c = false ∧ ¬ type_shape "feat" c ∧
     ∃ kw, kw ∈ ["fix"; "docs"; "style"; "refactor"; "test"; "chore"] ∧
           type_shape kw c) ∧
  classify ["feat: x"; "fix: y"] = Minor ∧
  classify ["fix: y"; "chore: z"] = Patch ∧
  classify ["feat!: x"] = Major ∧
  classify ["BREAKING CHANGE: x"] = Major ∧
  classify [] = Patch.
Proof.
  assert (scan_commits commitLines =
    mkFlags (existsb is_breaking commitLines) (existsb is_feature commitLines)
            (existsb is_fix commitLines)) as Hscan.
  { unfold scan_commits. by rewrite scan_commits_from. }
  split_and!; try reflexivity.
  - done.
  - unfold classify. rewrite Hscan. done.
  - intros c. unfold is_breaking.
    by rewrite orb_true_iff, !includes_spec.
  - intros c. unfold is_feature, match_feat.
    by rewrite andb_true_iff, negb_true_iff, match_type_spec.
  - intros c. unfold is_fix, match_feat, match_fix.
    rewrite !andb_true_iff, !negb_true_iff, existsb_exists. split.
    + intros [[Hb Hf] (kw & Hkw & Hm)]. split_and!; [done| |].
      * intros Hs%match_type_spec. congruence.
      * exists kw. by rewrite list_elem_of_In, <-match_type_spec.
    + intros (Hb & Hf & kw & Hkw & Hm). split_and!; [done| |].
      * destruct (match_type "feat" c) eqn:E; [|done].
        by apply match_type_spec in E.
      * exists kw. by rewrite <-list_elem_of_In, match_type_spec.
Qed.

(* ===================================================================== *)
(** * The numbers of [semverBump]                                         *)
(* ===================================================================== *)

(** A number below 2^53 is a double. *)
Lemma round_double_small (n : N) : (n < 2 ^ 53)%N → round_double n = Finite n.
Proof.
  intros Hn. unfold round_double.
  assert (N.log2 n < 53)%N as Hbits.
  { destruct (N.eq_dec n 0%N) as [->|Hpos]; [done|].
    apply N.log2_lt_pow2; lia. }
  apply N.ltb_lt in Hbits. by rewrite Hbits.
Qed.

(** From 2^53 + 2 on, a number rounds to 2^53 + 2 or more. *)
Lemma round_double_large (y x : N) :
  (2 ^ 53 + 2 ≤ y)%N → round_double y = Finite x → (2 ^ 53 + 2 ≤ x)%N.
Proof.
  intros Hy. unfold round_double.
  assert (0 < y)%N as Hpos by lia.
  pose proof (N.log2_spec y Hpos) as [Hlow Hhigh].
  assert (53 ≤ N.log2 y)%N as Hbits.
  { apply N.log2_le_pow2; [done|]. lia. }
  destruct (N.ltb_spec (N.log2 y) 53%N) as [?|_]; [lia|].
  set (shift := (N.log2 y - 52)%N).
  set (q := N.shiftr y shift).
  set (q' := if _ : bool then (q + 1)%N else q).
  destruct (N.log2 (N.shiftl q' shift) <? 1024)%N; [|done].
  intros [= <-].
  assert (q ≤ q')%N as Hq by (unfold q'; destruct (_ || _); lia).
  rewrite N.shiftl_mul_pow2.
  assert (∀ M : N, (M ≤ y)%N → (M mod 2 ^ shift = 0)%N → (M ≤ q * 2 ^ shift)%N) as Hmult.
  { intros M HM Hdiv. unfold q. rewrite N.shiftr_div_pow2.
    assert (2 ^ shift ≠ 0)%N as Hne by (apply N.pow_nonzero; lia).
    rewrite (N.div_mod M (2 ^ shift) Hne), Hdiv, N.add_0_r, N.mul_comm.
    apply N.mul_le_mono_r. apply N.Div0.div_le_mono. done. }
  etrans; [|apply N.mul_le_mono_r, Hq].
  destruct (N.eq_dec (N.log2 y) 53%N) as [Heq|Hne].
  - apply Hmult; [done|]. unfold shift. rewrite Heq. done.
  - etrans; [|apply (Hmult (2 ^ N.log2 y)%N); [done|]].
    + assert (2 ^ 54 ≤ 2 ^ N.log2 y)%N; [apply N.pow_le_mono_r; lia|lia].
    + assert (2 ^ N.log2 y = 2 ^ 52 * 2 ^ shift)%N as ->.
      { unfold shift. rewrite <-N.pow_add_r. f_equal. lia. }
      apply N.Div0.mod_mul.
Qed.

(** Only [x] rounds to a double [x] up to 2^53, and 2^53 + 1 to 2^53. *)
Lemma round_double_safe (y x : N) :
  (x ≤ 2 ^ 53)%N → round_double y = Finite x →
  y = x ∨ (x = 2 ^ 53 ∧ y = 2 ^ 53 + 1)%N.
Proof.
  intros Hx Hy.
  destruct (N.lt_ge_cases y (2 ^ 53)%N) as [Hsmall|Hbig].
  { rewrite round_double_small in Hy by done. left. by injection Hy. }
  destruct (N.lt_ge_cases y (2 ^ 53 + 2)%N) as [Hnear|Hfar].
  - assert (y = 2 ^ 53 ∨ y = 2 ^ 53 + 1)%N as [->| ->] by lia.
    + vm_compute in Hy. left. injection Hy as <-. done.
    + vm_compute in Hy. right. injection Hy as <-. done.
  - apply (round_double_large y x) in Hfar; [lia|done].
Qed.

(** The numbers up to 2^53 are doubles. *)
Lemma round_double_exact (n : N) : (n ≤ 2 ^ 53)%N → round_double n = Finite n.
Proof.
  intros Hn. destruct (N.eq_dec n (2 ^ 53)%N) as [->|Hne]; [done|].
  apply round_double_small. lia.
Qed.

(** Up to 2^53 a numeral that denotes the double [x] has the value [x]. *)
Lemma candidate_safe (x : N) (digits k : nat) (s e : N) :
  (x ≤ 2 ^ 53)%N → candidate x digits k = Some (s, e) → (s * 10 ^ e = x)%N.
Proof.
  intros Hx. unfold candidate.
  set (e0 := N.of_nat (digits - k)).
  set (lo := (x / 10 ^ e0)%N).
  assert (10 ^ e0 ≠ 0)%N as Hne by (apply N.pow_nonzero; lia).
  assert (lo * 10 ^ e0 ≤ x)%N as Hlo.
  { unfold lo. rewrite N.mul_comm. by apply N.Div0.mul_div_le. }
  assert (x < (lo + 1) * 10 ^ e0)%N as Hhi.
  { unfold lo. rewrite N.mul_comm, N.add_1_r. by apply N.mul_succ_div_gt. }
  clearbody lo e0.
  assert (reads_back x lo e0 = true → lo * 10 ^ e0 = x)%N as Hlo_ok.
  { unfold reads_back. destruct (round_double _) as [y|] eqn:Hy; [|done].
    intros ->%N.eqb_eq. apply round_double_safe in Hy as [?|[? ?]]; [done|lia|done]. }
  assert (reads_back x (lo + 1) e0 = true → reads_back x lo e0 = true ∧ lo * 10 ^ e0 = x)%N
    as Hhi_ok.
  { unfold reads_back at 1. destruct (round_double _) as [y|] eqn:Hy; [|done].
    intros ->%N.eqb_eq. apply round_double_safe in Hy as [?|[-> Hy]]; [lia| |done].
    assert (e0 = 0)%N as He.
    { destruct (N.eq_dec e0 0%N) as [?|Hpos]; [done|].
      rewrite <-(N.succ_pred e0), N.pow_succ_r' in Hy by done.
      set (p := (10 ^ N.pred e0)%N) in *. nia. }
    rewrite He in *. rewrite N.pow_0_r, N.mul_1_r in *.
    assert (lo = 2 ^ 53)%N as -> by lia. split; [|done].
    unfold reads_back. rewrite N.pow_0_r, N.mul_1_r. done. }
  destruct (reads_back x lo e0) eqn:Hl, (reads_back x (lo + 1)%N e0) eqn:Hh.
  - specialize (Hlo_ok eq_refl).
    destruct (N.ltb_spec (x - lo * 10 ^ e0)%N ((lo + 1) * 10 ^ e0 - x)%N) as [_|Hge]; [|lia].
    cbn [orb]. by intros [= <- <-].
  - intros [= <- <-]. by apply Hlo_ok.
  - by destruct (Hhi_ok eq_refl).
  - done.
Qed.

Lemma shortest_safe (x : N) (digits : nat) (ks : list nat) (s e : N) :
  (x ≤ 2 ^ 53)%N → shortest x digits ks = (s, e) → (s * 10 ^ e = x)%N.
Proof.
  intros Hx. induction ks as [|k ks IH]; cbn [shortest].
  - intros [= <- <-]. by rewrite N.pow_0_r, N.mul_1_r.
  - destruct (candidate x digits k) as [[s' e']|] eqn:Hc; [|done].
    intros [= <- <-]. by eapply candidate_safe.
Qed.

(** Up to 2^53 a double prints as the natural number it is. *)
Lemma double_to_string_safe (x : N) :
  (x ≤ 2 ^ 53)%N → double_to_string (Finite x) = number_to_string x.
Proof.
  intros Hx. unfold double_to_string.
  destruct (shortest _ _ _) as [s e] eqn:Hs.
  apply shortest_safe in Hs as ->; [|done].
  destruct (N.ltb_spec x (10 ^ 21)%N) as [_|Hge]; [done|].
  assert (2 ^ 53 < 10 ^ 21)%N by done. lia.
Qed.

Lemma to_double_safe (s : string) :
  (to_number s ≤ 2 ^ 53)%N → to_double s = Finite (to_number s).
Proof. apply round_double_exact. Qed.

(** Up to [MAX_SAFE_INTEGER] the doubles of [semverBump] count and print as
    the natural numbers do. *)
Lemma semverBump_safe (v : string) (type : BumpKind) (MA MI PA : string) :
  semver_match v = Some (MA, MI, PA) →
  (to_number MA ≤ MAX_SAFE_INTEGER)%N →
  (to_number MI ≤ MAX_SAFE_INTEGER)%N →
  (to_number PA ≤ MAX_SAFE_INTEGER)%N →
  semverBump v type =
    Returned (bumped type (to_number MA) (to_number MI) (to_number PA)).
Proof.
  unfold MAX_SAFE_INTEGER. intros Hmatch HMA HMI HPA.
  unfold semverBump. rewrite Hmatch.
  rewrite !to_double_safe by lia.
  destruct type; cbn [add_one bumped];
    rewrite round_double_exact by lia;
    rewrite !double_to_string_safe by lia; reflexivity.
Qed.

(** A printed double starts with a digit, or is [Infinity]. *)
Lemma double_to_string_head (x : double) :
  ∃ c rest, double_to_string x = String c rest ∧ (is_digit c = true ∨ c = "I"%char).
Proof.
  destruct x as [n|]; [|by exists "I"%char, "nfinity"; split; [|right]].
  unfold double_to_string. destruct (shortest _ _ _) as [s e].
  destruct (_ <? _)%N.
  - destruct (number_to_string_digits (s * 10 ^ e)) as [Hne Hdigits].
    destruct (number_to_string _) as [|c rest]; [done|].
    exists c, rest. split; [done|]. left.
    cbn [string_forallb] in Hdigits. by apply andb_true_iff in Hdigits as [? _].
  - destruct (number_to_string_digits s) as [Hne Hdigits].
    destruct (number_to_string s) as [|c rest]; [done|].
    eexists c, _. split; [reflexivity|]. left.
    cbn [string_forallb] in Hdigits. by apply andb_true_iff in Hdigits as [? _].
Qed.

(** Claim C4 as stated fails: the numbers of [semverBump] are doubles.
    A major bump of [9007199254740992.0.0] returns the version unchanged
    (the claim gives [9007199254740993.0.0]), and a patch bump of
    [1.0.999999999999999999999] returns [1.0.1e+21], which is not three
    runs of digits and which [semverBump] itself rejects. *)
Lemma semverBump_rounds :
  semver_shape "9007199254740992.0.0" "9007199254740992" "0" "0" ∧
  semverBump "9007199254740992.0.0" Major = Returned "9007199254740992.0.0" ∧
  bumped Major (to_number "9007199254740992") (to_number "0") (to_number "0") =
    "9007199254740993.0.0" ∧
  semver_shape "1.0.999999999999999999999" "1" "0" "999999999999999999999" ∧
  semverBump "1.0.999999999999999999999" Patch = Returned "1.0.1e+21" ∧
  (∀ MA MI PA, ¬ semver_shape "1.0.1e+21" MA MI PA) ∧
  semverBump "1.0.1e+21" Patch = Thrown "Not a semver version: 1.0.1e+21".
Proof.
  split_and!.
  - exists "". split_and!; [reflexivity|by vm_compute..|by left].
  - vm_compute. reflexivity.
  - vm_compute. reflexivity.
  - exists "". split_and!; [reflexivity|by vm_compute..|by left].
  - vm_compute. reflexivity.
  - intros MA MI PA Hs%semver_match_spec. vm_compute in Hs. discriminate Hs.
  - vm_compute. reflexivity.
Qed.

(** Claim C4.  When [v] matches [^(\d+)\.(\d+)\.(\d+)(-.+)?$] and none of
    its three numbers exceeds [Number.MAX_SAFE_INTEGER], [semverBump v type]
    returns [major+1.0.0], [major.(minor+1).0] or [major.minor.(patch+1)]
    for a major, minor or patch bump, and what it returns is a clean
    [MAJOR.MINOR.PATCH] of three runs of digits, the pre-release suffix
    gone; a [v] that does not match fails with a message that includes
    [v].  The five examples of the specification hold. *)
Theorem semverBump_spec (v : string) (type : BumpKind) :
  (∀ MA MI PA,
     semver_shape v MA MI PA →
     (to_number MA ≤ MAX_SAFE_INTEGER)%N →
     (to_number MI ≤ MAX_SAFE_INTEGER)%N →
     (to_number PA ≤ MAX_SAFE_INTEGER)%N →
     semverBump v type =
       Returned (bumped type (to_number MA) (to_number MI) (to_number PA)) ∧
     ∃ MA' MI' PA',
       semverBump v type = Returned (MA' +:+ "." +:+ MI' +:+ "." +:+ PA') ∧
       run_of is_digit MA' ∧ run_of is_digit MI' ∧ run_of is_digit PA') ∧
  ((∀ MA MI PA, ¬ semver_shape v MA MI PA) →
     semverBump v type = Thrown ("Not a semver version: " +:+ v) ∧
     contains ("Not a semver version: " +:+ v) v) ∧
  semverBump "1.2.3" Patch = Returned "1.2.4" ∧
  semverBump "1.2.3" Minor = Returned "1.3.0" ∧
  semverBump "1.2.3" Major = Returned "2.0.0" ∧
  semverBump "1.2.3-alpha.1" Patch = Returned "1.2.4" ∧
  semverBump "invalid" Patch = Thrown "Not a semver version: invalid".
Proof.
  split_and!; [| |vm_compute; reflexivity..].
  - intros MA MI PA Hshape HMA HMI HPA. apply semver_match_spec in Hshape.
    rewrite (semverBump_safe v type MA MI PA) by done. split; [done|].
    destruct type.
    + exists (number_to_string (to_number MA)), (number_to_string (to_number MI)),
        (number_to_string (to_number PA + 1)).
      split_and!; [done|apply number_to_string_digits..].
    + exists (number_to_string (to_number MA)), (number_to_string (to_number MI + 1)), "0".
      split_and!; [done|apply number_to_string_digits..|done].
    + exists (number_to_string (to_number MA + 1)), "0", "0".
      split_and!; [done|apply number_to_string_digits|done..].
  - intros Hno. unfold semverBump.
    destruct (semver_match v) as [[[MA MI] PA]|] eqn:Hm.
    + apply semver_match_spec in Hm. by destruct (Hno MA MI PA).
    + split; [done|]. exists "Not a semver version: ", "".
      by rewrite append_nil_r.
Qed.

Lemma semverBump_examples :
  semver_shape "1.2.3-alpha.1" "1" "2" "3" ∧
  (semverBump "1.2.3-alpha.1" Minor = Returned "1.3.0" ∧
   ∃ MA' MI' PA',
     semverBump "1.2.3-alpha.1" Minor = Returned (MA' +:+ "." +:+ MI' +:+ "." +:+ PA') ∧
     run_of is_digit MA' ∧ run_of is_digit MI' ∧ run_of is_digit PA') ∧
  (∀ MA MI PA, ¬ semver_shape "invalid" MA MI PA) ∧
  semverBump "invalid" Minor = Thrown "Not a semver version: invalid".
Proof.
  assert (semver_shape "1.2.3-alpha.1" "1" "2" "3") as Hshape.
  { exists "-alpha.1". split_and!; try done. right. by exists "alpha.1". }
  assert (∀ MA MI PA, ¬ semver_shape "invalid" MA MI PA) as Hnone.
  { intros MA MI PA Hs%semver_match_spec. discriminate Hs. }
  split; [exact Hshape|]. split; [|split; [exact Hnone|]].
  - apply (proj1 (semverBump_spec "1.2.3-alpha.1" Minor) "1" "2" "3" Hshape);
      vm_compute; discriminate.
  - apply (proj1 (proj2 (semverBump_spec "invalid" Minor)) Hnone).
Defined.


(* ===================================================================== *)
(** * Insertion-ordered maps                                              *)
(* ===================================================================== *)

Section jsmap.
Context {V : Type}.
Implicit Types (m : JsMap.t V) (k : string) (v : V).

Lemma jsmap_get_set k k' v m :
  JsMap.get k (JsMap.set k' v m) = if decide (k' = k) then Some v else JsMap.get k m.
Proof.
  induction m as [|[k0 v0] m IH]; simpl.
  - by repeat case_decide.
  - repeat (case_decide; simpl; subst); try done.
Qed.

Lemma jsmap_get_Some k v m : JsMap.get k m = Some v → (k, v) ∈ m.
Proof.
  induction m as [|[k0 v0] m IH]; simpl; [done|].
  case_decide; subst.
  - intros [= ->]. left.
  - intros. right. auto.
Qed.

Lemma jsmap_get_None k m : JsMap.get k m = None ↔ k ∉ m.*1.
Proof.
  induction m as [|[k0 v0] m IH]; simpl.
  - split; [intros _; apply not_elem_of_nil|done].
  - rewrite not_elem_of_cons. case_decide; subst; [split; [done|tauto]|].
    rewrite IH. split; [by split|tauto].
Qed.

Lemma jsmap_get_elem k v m : NoDup m.*1 → (k, v) ∈ m → JsMap.get k m = Some v.
Proof.
  induction m as [|[k0 v0] m IH]; simpl.
  - by intros _ ?%elem_of_nil.
  - intros [Hk0 Hm]%NoDup_cons [[= -> ->]|Hin]%elem_of_cons.
    + by rewrite decide_True.
    + rewrite decide_False; [auto|]. intros ->. apply Hk0.
      apply list_elem_of_fmap. by exists (k, v).
Qed.

Lemma jsmap_keys_set k v m :
  (JsMap.set k v m).*1 = if decide (k ∈ m.*1) then m.*1 else m.*1 ++ [k].
Proof.
  induction m as [|[k0 v0] m IH]; csimpl.
  - done.
  - destruct (decide (k0 = k)) as [->|Hne]; csimpl.
    + by rewrite decide_True by left.
    + rewrite IH. destruct (decide (k ∈ m.*1)).
      * by rewrite decide_True by (by right).
      * rewrite decide_False; [done|]. rewrite not_elem_of_cons. naive_solver.
Qed.
End jsmap.

(* ===================================================================== *)
(** * Workspace graph builder                                             *)
(* ===================================================================== *)

Lemma byName_of_is_Some (pkgs : list WorkspacePackage.t) (k : string) :
  is_Some (byName_of pkgs !! k) ↔ k ∈ names pkgs.
Proof.
  unfold byName_of, names.
  assert (∀ m : gmap string WorkspacePackage.t,
    is_Some (fold_left (λ m p, <[WorkspacePackage.name p := p]> m) pkgs m !! k) ↔
    k ∈ map WorkspacePackage.name pkgs ∨ is_Some (m !! k)) as H.
  { induction pkgs as [|p pkgs IH]; intros m; simpl.
    - rewrite elem_of_nil. naive_solver.
    - rewrite IH, elem_of_cons, lookup_insert_is_Some. 
      destruct (decide (WorkspacePackage.name p = k)); naive_solver. }
  rewrite H, lookup_empty, is_Some_alt. naive_solver.
Qed.

Lemma empty_graph_get (pkgs : list WorkspacePackage.t) (k : string) :
  JsMap.get k (empty_graph pkgs) =
  if decide (k ∈ names pkgs) then Some [] else None.
Proof.
  unfold empty_graph, names.
  assert (∀ g : Graph,
    JsMap.get k (fold_left (λ g p, JsMap.set (WorkspacePackage.name p) [] g) pkgs g) =
    if decide (k ∈ map WorkspacePackage.name pkgs) then Some [] else JsMap.get k g) as H.
  { induction pkgs as [|p pkgs IH]; intros g; simpl.
    - done.
    - rewrite IH, jsmap_get_set.
      destruct (decide (k ∈ map WorkspacePackage.name pkgs)).
      + by rewrite decide_True by (by right).
      + destruct (decide (WorkspacePackage.name p = k)) as [->|].
        * by rewrite decide_True by left.
        * rewrite decide_False; [done|]. rewrite not_elem_of_cons. naive_solver. }
  by rewrite H.
Qed.

(** The graph has an array for every name [byName] has. *)
Lemma empty_graph_has (pkgs : list WorkspacePackage.t) (k : string) :
  is_Some (byName_of pkgs !! k) ↔ is_Some (JsMap.get k (empty_graph pkgs)).
Proof.
  rewrite byName_of_is_Some, empty_graph_get. case_decide.
  - split; [by eexists|done].
  - split; [done|by intros [??]].
Qed.

Lemma empty_graph_keys (pkgs : list WorkspacePackage.t) :
  NoDup (names pkgs) → (empty_graph pkgs).*1 = names pkgs.
Proof.
  unfold empty_graph, names.
  assert (∀ g : Graph, NoDup (g.*1 ++ map WorkspacePackage.name pkgs) →
    (fold_left (λ g p, JsMap.set (WorkspacePackage.name p) [] g) pkgs g).*1 =
    g.*1 ++ map WorkspacePackage.name pkgs) as H.
  { induction pkgs as [|p pkgs IH]; intros g Hnd; simpl.
    - by rewrite app_nil_r.
    - simpl in Hnd. rewrite IH; rewrite jsmap_keys_set.
      + rewrite decide_False; [by rewrite <-app_assoc|].
        apply NoDup_app in Hnd as (_ & Hdisj & _). intros ?. eapply Hdisj; [done|left].
      + rewrite decide_False; [by rewrite <-app_assoc|].
        apply NoDup_app in Hnd as (_ & Hdisj & _). intros ?. eapply Hdisj; [done|left]. }
  intros Hnd. by rewrite H.
Qed.

Lemma add_edge_get (d x k : string) (g : Graph) :
  JsMap.get k (add_edge d x g) =
  if decide (d = k) then (λ l, l ++ [x]) <$> JsMap.get k g else JsMap.get k g.
Proof.
  unfold add_edge. destruct (JsMap.get d g) as [l|] eqn:Hd.
  - rewrite jsmap_get_set. case_decide; subst; [by rewrite Hd|done].
  - case_decide; subst; [by rewrite Hd|done].
Qed.

Lemma add_edge_keys (d x : string) (g : Graph) : (add_edge d x g).*1 = g.*1.
Proof.
  unfold add_edge. destruct (JsMap.get d g) as [l|] eqn:Hd; [|done].
  rewrite jsmap_keys_set, decide_True; [done|].
  apply jsmap_get_Some in Hd. apply list_elem_of_fmap. by exists (d, l).
Qed.

Lemma add_field_edges_get byName p g field k :
  JsMap.get k (add_field_edges byName p g field) =
  (λ l, l ++ field_edges byName p field k) <$> JsMap.get k g.
Proof.
  unfold add_field_edges, field_edges. fold (field_keys p field).
  generalize (field_keys p field) as ks. intros ks. revert g.
  induction ks as [|key ks IH]; intros g; simpl.
  - destruct (JsMap.get k g); simpl; by rewrite ?app_nil_r.
  - rewrite IH. destruct (decide (is_Some (byName !! key))) as [Hs|Hs].
    + rewrite add_edge_get. destruct (decide (key = k)) as [->|Hne].
      * rewrite decide_True by done. destruct (JsMap.get k g); simpl; [|done].
        by rewrite <-app_assoc.
      * rewrite decide_False by naive_solver. done.
    + rewrite decide_False by naive_solver. done.
Qed.

Lemma add_field_edges_keys byName p g field :
  (add_field_edges byName p g field).*1 = g.*1.
Proof.
  unfold add_field_edges. generalize (keys (default [] (get_deps (WorkspacePackage.data p) field))).
  intros ks. revert g. induction ks as [|key ks IH]; intros g; simpl; [done|].
  rewrite IH. case_decide; [apply add_edge_keys|done].
Qed.

Lemma add_package_edges_get byName g p k :
  JsMap.get k (add_package_edges byName g p) =
  (λ l, l ++ (field ← DEP_FIELDS; field_edges byName p field k)) <$> JsMap.get k g.
Proof.
  unfold add_package_edges. generalize DEP_FIELDS as fs. intros fs. revert g.
  induction fs as [|f fs IH]; intros g; simpl.
  - destruct (JsMap.get k g); simpl; by rewrite ?app_nil_r.
  - rewrite IH, add_field_edges_get. destruct (JsMap.get k g); simpl; [|done].
    by rewrite <-app_assoc.
Qed.

Lemma add_package_edges_keys byName g p :
  (add_package_edges byName g p).*1 = g.*1.
Proof.
  unfold add_package_edges. generalize DEP_FIELDS as fs. intros fs. revert g.
  induction fs as [|f fs IH]; intros g; simpl; [done|].
  by rewrite IH, add_field_edges_keys.
Qed.

Lemma build_graph_get (pkgs : list WorkspacePackage.t) (k : string) :
  JsMap.get k (build_graph pkgs) =
  if decide (k ∈ names pkgs) then Some (edges_into pkgs k) else None.
Proof.
  unfold build_graph.
  assert (∀ ps (g : Graph),
    JsMap.get k (fold_left (add_package_edges (byName_of pkgs)) ps g) =
    (λ l, l ++ (p ← ps; field ← DEP_FIELDS; field_edges (byName_of pkgs) p field k))
      <$> JsMap.get k g) as H.
  { induction ps as [|p ps IH]; intros g; simpl.
    - destruct (JsMap.get k g); simpl; by rewrite ?app_nil_r.
    - rewrite IH, add_package_edges_get. destruct (JsMap.get k g); simpl; [|done].
      by rewrite <-app_assoc. }
  rewrite H, empty_graph_get. case_decide as Hk; [|done].
  cbn [fmap option_fmap option_map app]. f_equal.
  unfold edges_into, field_edges.
  apply list_bind_ext; [|done]. intros p.
  apply list_bind_ext; [|done]. intros field. apply list_bind_ext; [|done].
  intros key. destruct (decide (key = k)) as [->|].
  - by rewrite decide_True by (by rewrite byName_of_is_Some).
  - by rewrite decide_False by naive_solver.
Qed.


(* ===================================================================== *)
(** * Counting edges                                                      *)
(* ===================================================================== *)

Lemma occ_nil (v : string) : occ v [] = 0%nat.
Proof. done. Qed.

Lemma occ_cons (v x : string) (l : list string) :
  occ v (x :: l) = ((if decide (x = v) then 1 else 0) + occ v l)%nat.
Proof.
  unfold occ. rewrite filter_cons. by case_decide.
Qed.

Lemma occ_zero (v : string) (l : list string) : occ v l = 0%nat ↔ v ∉ l.
Proof.
  induction l as [|x l IH].
  - split; [intros _; apply not_elem_of_nil|done].
  - rewrite occ_cons, not_elem_of_cons. case_decide; subst.
    + split; [done|]. by intros [? _].
    + rewrite <-IH. simpl. split; [by split|tauto].
Qed.

Lemma dependents_cons (k n : string) (vs : list string) (G : Graph) :
  dependents ((k, vs) :: G) n = if decide (k = n) then vs else dependents G n.
Proof. unfold dependents. simpl. by case_decide. Qed.

Lemma dependents_elem (G : Graph) (u v : string) :
  v ∈ dependents G u → ∃ vs, (u, vs) ∈ G ∧ v ∈ vs.
Proof.
  unfold dependents. destruct (JsMap.get u G) as [vs|] eqn:Hu; simpl.
  - exists vs. split; [by apply jsmap_get_Some|done].
  - by intros ?%elem_of_nil.
Qed.

Lemma dependents_of_elem (G : Graph) (u : string) (vs : list string) :
  NoDup G.*1 → (u, vs) ∈ G → dependents G u = vs.
Proof. intros ??. unfold dependents. by erewrite jsmap_get_elem. Qed.

Lemma rdeg_cons (k : string) (vs : list string) (G : Graph) out v :
  rdeg ((k, vs) :: G) out v =
  ((if decide (k ∈ out) then 0 else occ v vs) + rdeg G out v)%nat.
Proof. done. Qed.

Lemma rdeg_snoc_fresh (G : Graph) (out : list string) (n v : string) :
  n ∉ G.*1 → rdeg G (out ++ [n]) v = rdeg G out v.
Proof.
  induction G as [|[k vs] G IH]; [done|]. csimpl.
  intros [Hk HG]%not_elem_of_cons. rewrite !rdeg_cons, IH by done.
  f_equal. destruct (decide (k ∈ out)) as [Hin|Hin].
  - rewrite decide_True; [done|]. apply elem_of_app. by left.
  - rewrite decide_False; [done|]. rewrite elem_of_app, list_elem_of_singleton.
    intros [?|?]; done.
Qed.

Lemma rdeg_snoc (G : Graph) (out : list string) (n v : string) :
  NoDup G.*1 → n ∉ out →
  (rdeg G (out ++ [n]) v + occ v (dependents G n))%nat = rdeg G out v.
Proof.
  intros HG Hn. induction G as [|[k vs] G IH]; [done|]. csimpl in HG.
  apply NoDup_cons in HG as [Hk HG]. rewrite !rdeg_cons, dependents_cons.
  destruct (decide (k = n)) as [->|Hne].
  - rewrite rdeg_snoc_fresh by done.
    rewrite decide_True by (apply elem_of_app; right; by apply list_elem_of_singleton).
    rewrite decide_False by done. lia.
  - rewrite <-(IH HG).
    destruct (decide (k ∈ out)) as [Hin|Hin].
    + rewrite decide_True; [lia|]. apply elem_of_app. by left.
    + rewrite decide_False; [lia|]. rewrite elem_of_app, list_elem_of_singleton.
      intros [?|?]; done.
Qed.

Lemma rdeg_zero_pred (G : Graph) (out : list string) (u v : string) :
  rdeg G out v = 0%nat → v ∈ dependents G u → u ∈ out.
Proof.
  intros Hz (vs & Hin & Hv)%dependents_elem.
  induction G as [|[k ws] G IH]; [by apply elem_of_nil in Hin|].
  rewrite rdeg_cons in Hz. apply Nat.eq_add_0 in Hz as [Hk Hz].
  apply elem_of_cons in Hin as [[= <- <-]|Hin]; [|by apply IH].
  case_decide; [done|]. by apply occ_zero in Hk.
Qed.

Lemma rdeg_pos_pred (G : Graph) (out : list string) (v : string) :
  rdeg G out v ≠ 0%nat → ∃ u vs, (u, vs) ∈ G ∧ u ∉ out ∧ v ∈ vs.
Proof.
  induction G as [|[k ws] G IH]; [done|]. rewrite rdeg_cons. intros Hnz.
  destruct (decide (k ∈ out)) as [Hk|Hk].
  - destruct IH as (u & vs & ? & ? & ?); [done|]. exists u, vs. split_and!; [by right|done..].
  - destruct (decide (v ∈ ws)) as [Hv|Hv].
    + exists k, ws. split_and!; [left|done..].
    + apply occ_zero in Hv. rewrite Hv in Hnz.
      destruct IH as (u & vs & ? & ? & ?); [done|]. exists u, vs. split_and!; [by right|done..].
Qed.

Lemma rdeg_nil_out (G : Graph) (v : string) :
  rdeg G [] v = sum_list (map (λ e, occ v e.2) G).
Proof.
  reflexivity.
Qed.

(* ===================================================================== *)
(** * In-degrees                                                          *)
(* ===================================================================== *)

Lemma zero_degrees_lookup (pkgs : list WorkspacePackage.t) (v : string) :
  v ∈ names pkgs → zero_degrees pkgs !! v = Some (Num 0).
Proof.
  unfold zero_degrees, names.
  assert (∀ m : gmap string jsnum,
    v ∈ map WorkspacePackage.name pkgs ∨ m !! v = Some (Num 0) →
    fold_left (λ m p, <[WorkspacePackage.name p := Num 0]> m) pkgs m !! v
      = Some (Num 0)) as H.
  { induction pkgs as [|p pkgs IH]; intros m; simpl.
    - intros [?%elem_of_nil|?]; done.
    - intros [[->|?]%elem_of_cons|?]; apply IH.
      + right. apply lookup_insert_eq.
      + by left.
      + right. destruct (decide (WorkspacePackage.name p = v)) as [->|].
        * apply lookup_insert_eq.
        * by rewrite lookup_insert_ne. }
  intros. apply H. by left.
Qed.

Lemma count_edges_lookup (vs : list string) (m : gmap string jsnum) v z :
  m !! v = Some (Num z) →
  fold_left count_edge vs m !! v = Some (Num (z + Z.of_nat (occ v vs))).
Proof.
  revert m z. induction vs as [|x vs IH]; intros m z Hm; simpl.
  - rewrite occ_nil. by replace (z + Z.of_nat 0) with z by lia.
  - rewrite occ_cons. destruct (decide (x = v)) as [->|Hne].
    + rewrite (IH _ (z + 1)).
      * f_equal. f_equal. lia.
      * unfold count_edge. by rewrite lookup_insert_eq, Hm.
    + rewrite (IH _ z); [done|]. unfold count_edge. by rewrite lookup_insert_ne.
Qed.

Lemma in_degrees_lookup (pkgs : list WorkspacePackage.t) (G : Graph) v :
  v ∈ names pkgs →
  in_degrees pkgs G !! v = Some (Num (Z.of_nat (rdeg G [] v))).
Proof.
  intros Hv. unfold in_degrees, JsMap.entries. rewrite rdeg_nil_out.
  assert (∀ (m : gmap string jsnum) z, m !! v = Some (Num z) →
    fold_left (λ inDeg '(_, vs), fold_left count_edge vs inDeg) G m !! v =
    Some (Num (z + Z.of_nat (sum_list (map (λ e, occ v e.2) G))))) as H.
  { induction G as [|[k vs] G IH]; intros m z Hm; simpl.
    - by replace (z + Z.of_nat 0) with z by lia.
    - rewrite (IH _ (z + Z.of_nat (occ v vs))); [|by apply count_edges_lookup].
      f_equal. f_equal. lia. }
  rewrite (H _ 0); [|by apply zero_degrees_lookup]. done.
Qed.


(* ===================================================================== *)
(** * The loops of [topoSort]                                             *)
(* ===================================================================== *)

Section kahn.
Context (pkgs : list WorkspacePackage.t) (G : Graph).
Hypothesis Hnames : NoDup (names pkgs).
Hypothesis Hkeys : G.*1 = names pkgs.
Hypothesis Htargets : ∀ u v, v ∈ dependents G u → v ∈ names pkgs.

Local Notation ns := (names pkgs).
Local Notation inv := (kahn_inv G (names pkgs)).

Lemma kahn_inv_init :
  inv [] (in_degrees pkgs G)
    (filter (λ n, or_zero (in_degrees pkgs G !! n) = 0) ns) [].
Proof.
  unfold kahn_inv. rewrite !app_nil_l. split_and!.
  - by apply NoDup_filter.
  - by intros x [_ ?]%list_elem_of_filter.
  - intros v Hv. rewrite occ_nil, Nat.add_0_r. by apply in_degrees_lookup.
  - intros v Hv. rewrite list_elem_of_filter, in_degrees_lookup by done.
    rewrite occ_nil, Nat.add_0_r. simpl. split; [intros [? _]; lia|].
    intros ?. split; [lia|done].
  - intros u v Hdep [Hz Hv]%list_elem_of_filter.
    rewrite in_degrees_lookup in Hz by done. simpl in Hz.
    assert (u ∈ []) as ?%elem_of_nil; [|done].
    eapply rdeg_zero_pred; [|done]. lia.
  - by intros v ?%elem_of_nil.
Qed.

(** The inner loop: one dependent of the dequeued name. *)
Lemma kahn_inv_relax v todo inDeg q out :
  inv (v :: todo) inDeg q out →
  inv todo (relax (inDeg, q) v).1 (relax (inDeg, q) v).2 out.
Proof.
  intros (Hnd & Hsub & Hdeg & Hin & Hord & Htodo).
  assert (v ∈ ns) as Hv by (apply Htodo; left).
  assert (v ∉ out ++ q) as Hfresh.
  { rewrite Hin by done. rewrite occ_cons, decide_True by done. lia. }
  assert (minus_one (inDeg !! v) =
          Num (Z.of_nat (rdeg G out v + occ v todo))) as Hcur.
  { rewrite Hdeg by done. simpl. f_equal.
    rewrite occ_cons, decide_True by done. lia. }
  assert (∀ w, w ≠ v → occ w (v :: todo) = occ w todo) as Hocc.
  { intros w Hw. rewrite occ_cons, decide_False; done. }
  unfold relax. rewrite Hcur. cbn [fst snd is_zero].
  destruct (Z.eqb_spec (Z.of_nat (rdeg G out v + occ v todo)) 0) as [Hz|Hz].
  - (* [v] joins the queue *)
    unfold kahn_inv. rewrite app_assoc. split_and!.
    + apply NoDup_app. split_and!; [done| |apply NoDup_singleton].
      intros x Hx Heq%list_elem_of_singleton. by subst.
    + intros x [?|Heq%list_elem_of_singleton]%elem_of_app; subst; auto.
    + intros w Hw. destruct (decide (w = v)) as [->|Hne].
      * by rewrite lookup_insert_eq.
      * rewrite lookup_insert_ne by done. rewrite Hdeg, Hocc; done.
    + intros w Hw. rewrite elem_of_app, list_elem_of_singleton.
      destruct (decide (w = v)) as [->|Hne].
      * split; [lia|by right].
      * rewrite <-Hocc, <-Hin by done. split; [by intros [?|?]|by left].
    + intros u w Hdep [Hw|Heq%list_elem_of_singleton]%elem_of_app; subst.
      * destruct (Hord u w Hdep Hw) as (i & j & Hi & Hj & Hij).
        exists i, j. split_and!; [by apply lookup_app_l_Some..|done].
      * assert (u ∈ out) as (i & Hi)%list_elem_of_lookup.
        { eapply rdeg_zero_pred; [|done]. lia. }
        exists i, (length (out ++ q)). split_and!.
        -- apply lookup_app_l_Some. by apply lookup_app_l_Some.
        -- by rewrite lookup_app_r, Nat.sub_diag.
        -- apply lookup_lt_Some in Hi. rewrite length_app. lia.
    + intros w Hw. apply Htodo. by right.
  - (* the in-degree of [v] stays above zero *)
    unfold kahn_inv. split_and!; [done..| | |done|].
    + intros w Hw. destruct (decide (w = v)) as [->|Hne].
      * by rewrite lookup_insert_eq.
      * rewrite lookup_insert_ne by done. rewrite Hdeg, Hocc; done.
    + intros w Hw. destruct (decide (w = v)) as [->|Hne].
      * split; [done|lia].
      * rewrite <-Hocc, <-Hin; done.
    + intros w Hw. apply Htodo. by right.
Qed.

Lemma kahn_inv_relax_all todo inDeg q out :
  inv todo inDeg q out →
  inv [] (fold_left relax todo (inDeg, q)).1 (fold_left relax todo (inDeg, q)).2 out.
Proof.
  revert inDeg q. induction todo as [|v todo IH]; intros inDeg q Hinv; [exact Hinv|].
  cbn [fold_left]. apply kahn_inv_relax in Hinv.
  destruct (relax (inDeg, q) v) as [inDeg' q']. apply IH, Hinv.
Qed.

(** The outer loop: a name leaves the queue. *)
Lemma kahn_inv_dequeue n inDeg q out :
  inv [] inDeg (n :: q) out → inv (dependents G n) inDeg q (out ++ [n]).
Proof.
  intros (Hnd & Hsub & Hdeg & Hin & Hord & _).
  assert (n ∉ out) as Hn.
  { apply NoDup_app in Hnd as (_ & Hdisj & _). intros ?. eapply Hdisj; [done|left]. }
  assert (∀ v, (rdeg G (out ++ [n]) v + occ v (dependents G n))%nat
               = (rdeg G out v + occ v [])%nat) as Heq.
  { intros v. rewrite rdeg_snoc, occ_nil; [lia|by rewrite Hkeys|done]. }
  unfold kahn_inv. rewrite <-app_assoc. simpl.
  split_and!; [done..| | |done|].
  - intros v Hv. rewrite Heq. by apply Hdeg.
  - intros v Hv. rewrite Heq. by apply Hin.
  - intros v. apply Htargets.
Qed.

Lemma kahn_loop_inv fuel inDeg q out :
  inv [] inDeg q out →
  (length ns ≤ length out + fuel)%nat →
  ∃ inDeg', inv [] inDeg' [] (kahn_loop fuel G inDeg q out).
Proof.
  revert inDeg q out. induction fuel as [|fuel IH]; intros inDeg q out Hinv Hfuel.
  - assert (q = []) as ->.
    { destruct Hinv as (Hnd & Hsub & _).
      assert (length (out ++ q) ≤ length ns)%nat as Hle.
      { apply submseteq_length, NoDup_submseteq; done. }
      rewrite length_app in Hle. destruct q; [done|simpl in Hle; lia]. }
    by exists inDeg.
  - destruct q as [|n q]; [by exists inDeg|]. cbn [kahn_loop].
    apply kahn_inv_dequeue, kahn_inv_relax_all in Hinv.
    destruct (fold_left relax (dependents G n) (inDeg, q)) as [inDeg' q'].
    apply (IH _ _ _ Hinv). rewrite length_app. simpl. lia.
Qed.

(** What the loop leaves in [out]. *)
Lemma emitted_spec :
  let out := emitted pkgs G in
  NoDup out ∧
  (∀ x, x ∈ out → x ∈ ns) ∧
  (∀ v, v ∈ ns → v ∉ out → ∃ u, u ∈ ns ∧ u ∉ out ∧ v ∈ dependents G u) ∧
  (∀ u v, v ∈ dependents G u → v ∈ out →
     ∃ i j, out !! i = Some u ∧ out !! j = Some v ∧ (i < j)%nat).
Proof.
  intros out. unfold emitted in out.
  destruct (kahn_loop_inv (length pkgs + edge_count G) (in_degrees pkgs G)
    (filter (λ n, or_zero (in_degrees pkgs G !! n) = 0) ns) []) as [inDeg' Hinv].
  { apply kahn_inv_init. }
  { unfold names. rewrite length_map. simpl. lia. }
  fold out in Hinv. destruct Hinv as (Hnd & Hsub & Hdeg & Hin & Hord & _).
  rewrite app_nil_r in *. split_and!; [done..| |done].
  intros v Hv Hout.
  destruct (rdeg_pos_pred G out v) as (u & vs & Hu & Hnot & Hvs).
  { intros Hz. apply Hout, Hin; [done|]. rewrite Hz, occ_nil. done. }
  exists u. split_and!; [|done|].
  - rewrite <-Hkeys. apply list_elem_of_fmap. by exists (u, vs).
  - erewrite dependents_of_elem; [done| |done]. by rewrite Hkeys.
Qed.

End kahn.


(* ===================================================================== *)
(** * Chains and cycles                                                   *)
(* ===================================================================== *)

Section chains.
Context (R : relation string).

Lemma chain_app_r (l1 l2 : list string) : chain R (l1 ++ l2) → chain R l2.
Proof.
  induction l1 as [|a l1 IH]; [done|]. simpl.
  destruct (l1 ++ l2) eqn:E; [|by intros [_ ?]; apply IH].
  apply app_eq_nil in E as [_ ->]. done.
Qed.

Lemma chain_app_l (l1 l2 : list string) : chain R (l1 ++ l2) → chain R l1.
Proof.
  induction l1 as [|a l1 IH]; [done|]. simpl.
  destruct l1 as [|b l1]; [done|]. simpl. intros [? ?]. split; [done|]. by apply IH.
Qed.

Lemma chain_tc (x y : string) (l : list string) :
  chain R (x :: l ++ [y]) → tc R x y.
Proof.
  revert x. induction l as [|a l IH]; intros x; simpl.
  - intros [? _]. by apply tc_once.
  - intros [? ?]. eapply tc_l; [done|]. by apply IH.
Qed.

Lemma duplicate_split (l : list string) :
  ¬ NoDup l → ∃ x l1 l2 l3, l = l1 ++ x :: l2 ++ x :: l3.
Proof.
  induction l as [|a l IH]; intros Hnd.
  - destruct Hnd. constructor.
  - destruct (decide (a ∈ l)) as [Ha|Ha].
    + apply list_elem_of_split in Ha as (l2 & l3 & ->). by exists a, [], l2, l3.
    + destruct IH as (x & l1 & l2 & l3 & ->).
      { intros ?. apply Hnd. by constructor. }
      by exists x, (a :: l1), l2, l3.
Qed.

(** Among names of [ns] that each are related to another one of them,
    one is related to itself through a chain. *)
Lemma stuck_cycle (ns : list string) (stuck : string → Prop) :
  (∀ v, stuck v → v ∈ ns) →
  (∀ v, stuck v → ∃ u, stuck u ∧ R v u) →
  ∀ v, stuck v → ∃ x, tc R x x.
Proof.
  intros Hns Hnext v Hv.
  assert (∀ k v, stuck v →
    ∃ p, length p = k ∧ chain R (v :: p) ∧ Forall stuck (v :: p)) as Hwalk.
  { clear v Hv. induction k as [|k IH]; intros v Hv.
    - exists []. split_and!; [done..|]. by repeat constructor.
    - destruct (Hnext v Hv) as (u & Hu & Hvu).
      destruct (IH u Hu) as (p & Hlen & Hchain & Hall).
      exists (u :: p). split_and!; [by simpl; f_equal|done|by constructor]. }
  destruct (Hwalk (length ns) v Hv) as (p & Hlen & Hchain & Hall).
  destruct (duplicate_split (v :: p)) as (x & l1 & l2 & l3 & Heq).
  { intros Hnd. assert (length (v :: p) ≤ length ns)%nat as Hle.
    { apply submseteq_length, NoDup_submseteq; [done|].
      intros y Hy. apply Hns. by eapply (proj1 (Forall_forall _ _) Hall). }
    simpl in Hle. lia. }
  exists x. apply (chain_tc x x l2). rewrite Heq in Hchain.
  apply chain_app_r in Hchain.
  change (x :: l2 ++ x :: l3) with ((x :: l2) ++ [x] ++ l3) in Hchain.
  rewrite app_assoc in Hchain. by apply chain_app_l in Hchain.
Qed.

(** A relation that goes backwards in a list without repeats has no cycle. *)
Lemma backwards_acyclic (out : list string) :
  NoDup out →
  (∀ a b, R a b → ∃ i j, out !! i = Some a ∧ out !! j = Some b ∧ (j < i)%nat) →
  ∀ x, ¬ tc R x x.
Proof.
  intros Hnd Hback.
  assert (∀ a b, tc R a b →
    ∃ i j, out !! i = Some a ∧ out !! j = Some b ∧ (j < i)%nat) as Htc.
  { intros a b Hab. induction Hab as [a b Hab|a c b Hac _ IH]; [by apply Hback|].
    destruct (Hback _ _ Hac) as (i & k & Hi & Hk & Hki).
    destruct IH as (k' & j & Hk' & Hj & Hjk).
    assert (k = k') as -> by (by eapply NoDup_lookup).
    exists i, j. split_and!; [done..|lia]. }
  intros x (i & j & Hi & Hj & Hji)%Htc.
  assert (i = j) by (by eapply NoDup_lookup). lia.
Qed.
End chains.

(* ===================================================================== *)
(** * The graph of a workspace                                            *)
(* ===================================================================== *)

Lemma build_graph_keys (pkgs : list WorkspacePackage.t) :
  NoDup (names pkgs) → (build_graph pkgs).*1 = names pkgs.
Proof.
  intros Hnd. rewrite <-(empty_graph_keys pkgs Hnd). unfold build_graph.
  generalize (empty_graph pkgs) as g. generalize (byName_of pkgs) as byName.
  intros byName. induction pkgs as [|p ps IH] in |- *; intros g; [done|]. 
  simpl. by rewrite IH, add_package_edges_keys.
Qed.

Lemma build_graph_dependents (pkgs : list WorkspacePackage.t) (d : string) :
  dependents (build_graph pkgs) d =
  if decide (d ∈ names pkgs) then edges_into pkgs d else [].
Proof. unfold dependents. rewrite build_graph_get. by case_decide. Qed.

Lemma elem_of_edges_into (pkgs : list WorkspacePackage.t) (d p : string) :
  p ∈ edges_into pkgs d ↔
  ∃ P field, P ∈ pkgs ∧ WorkspacePackage.name P = p ∧ d ∈ field_keys P field.
Proof.
  unfold edges_into. rewrite list_elem_of_bind. split.
  - intros (P & (field & (key & Hp & Hkey)%list_elem_of_bind & _)%list_elem_of_bind & HP).
    case_decide; [|by apply elem_of_nil in Hp].
    apply list_elem_of_singleton in Hp. subst. by exists P, field.
  - intros (P & field & HP & <- & Hd). exists P. split; [|done].
    apply list_elem_of_bind. exists field. split.
    + apply list_elem_of_bind. exists d. split; [|done].
      rewrite decide_True by done. by apply list_elem_of_singleton.
    + unfold DEP_FIELDS. destruct field; set_solver.
Qed.

Lemma build_graph_edge (pkgs : list WorkspacePackage.t) (d p : string) :
  p ∈ dependents (build_graph pkgs) d ↔ depends_on pkgs p d.
Proof.
  rewrite build_graph_dependents. unfold depends_on. case_decide.
  - rewrite elem_of_edges_into. by split; [|intros [_ ?]].
  - split; [by intros ?%elem_of_nil|by intros [? _]].
Qed.

Lemma build_graph_targets (pkgs : list WorkspacePackage.t) (d p : string) :
  p ∈ dependents (build_graph pkgs) d → p ∈ names pkgs.
Proof.
  intros (_ & P & _ & HP & <- & _)%build_graph_edge.
  unfold names. apply list_elem_of_fmap. by exists P.
Qed.


(* ===================================================================== *)
(** * Topological sequencer                                               *)
(* ===================================================================== *)

(** [topoSort] on the graph of a workspace with distinct names: either a
    complete order in which every edge goes forward, or the cycle error and
    a cycle. *)
Lemma topoSort_cases (pkgs : list WorkspacePackage.t) :
  NoDup (names pkgs) →
  (∃ out, topoSort pkgs (build_graph pkgs) = Returned out ∧
          NoDup out ∧ out ≡ₚ names pkgs ∧ edges_forward (build_graph pkgs) out) ∨
  (topoSort pkgs (build_graph pkgs) = Thrown "Cycle detected in local dependency graph." ∧
   has_cycle pkgs).
Proof.
  intros Hnd.
  destruct (emitted_spec pkgs (build_graph pkgs) Hnd (build_graph_keys pkgs Hnd)
              (build_graph_targets pkgs)) as (Hout & Hsub & Hstuck & Hord).
  unfold topoSort.
  set (out := emitted _ _) in *.
  assert (length pkgs = length (names pkgs)) as Hlen by (unfold names; by rewrite length_map).
  assert (out ⊆+ names pkgs) as Hsubm by (by apply NoDup_submseteq).
  case_decide as Hne; [right|left].
  - split; [done|].
    destruct (decide (Forall (λ v, v ∈ out) (names pkgs))) as [Hall|Hall].
    { destruct Hne. apply Nat.le_antisymm.
      - rewrite Hlen. by apply submseteq_length.
      - rewrite Hlen. apply submseteq_length, NoDup_submseteq; [done|].
        by apply Forall_forall. }
    apply not_Forall_Exists in Hall; [|apply _].
    apply Exists_exists in Hall as (v & Hv & Hvout).
    apply (stuck_cycle (depends_on pkgs) (names pkgs)
             (λ v, v ∈ names pkgs ∧ v ∉ out)) with v; [by intros ? [? _]| |done].
    intros w [Hw Hwout]. destruct (Hstuck w Hw Hwout) as (u & ? & ? & Hdep).
    exists u. split; [done|]. by apply build_graph_edge.
  - assert (out ≡ₚ names pkgs) as Hperm.
    { apply submseteq_length_Permutation; [done|lia]. }
    exists out. split_and!; [done..|].
    intros d p Hdep i j Hi Hj.
    destruct (Hord d p Hdep) as (i' & j' & Hi' & Hj' & Hlt).
    { rewrite Hperm. by eapply build_graph_targets. }
    assert (i = i') as -> by (by eapply NoDup_lookup).
    assert (j = j') as -> by (by eapply NoDup_lookup). done.
Qed.

(** An order in which every edge of the graph goes forward rules out a
    cycle of dependencies. *)
Lemma edges_forward_acyclic (pkgs : list WorkspacePackage.t) (out : list string) :
  NoDup out → out ≡ₚ names pkgs → edges_forward (build_graph pkgs) out →
  acyclic pkgs.
Proof.
  intros Hnd Hperm Hfwd. unfold acyclic.
  apply (backwards_acyclic (depends_on pkgs) out Hnd).
  intros p d Hdep. assert (p ∈ dependents (build_graph pkgs) d) as Hedge
    by (by apply build_graph_edge).
  assert (p ∈ out) as (j & Hj)%list_elem_of_lookup.
  { rewrite Hperm. by eapply build_graph_targets. }
  assert (d ∈ out) as (i & Hi)%list_elem_of_lookup.
  { rewrite Hperm. by destruct Hdep. }
  exists j, i. split_and!; [done..|]. by eapply Hfwd.
Qed.

Lemma topoSort_returned_acyclic (pkgs : list WorkspacePackage.t) (out : list string) :
  NoDup (names pkgs) → topoSort pkgs (build_graph pkgs) = Returned out →
  acyclic pkgs.
Proof.
  intros Hnd Hret.
  destruct (topoSort_cases pkgs Hnd) as [(out' & Hout & ? & ? & ?)|[Hthrown _]].
  - by eapply edges_forward_acyclic.
  - congruence.
Qed.

Lemma relax_all_lookup (vs : list string) (inDeg : gmap string jsnum)
    (q : list string) (v : string) (z : Z) :
  inDeg !! v = Some (Num z) →
  (fold_left relax vs (inDeg, q)).1 !! v = Some (Num (z - Z.of_nat (occ v vs))).
Proof.
  revert inDeg q z. induction vs as [|x vs IH]; intros inDeg q z Hv.
  - simpl. rewrite Hv, occ_nil. f_equal. f_equal. lia.
  - cbn [fold_left]. unfold relax at 2. rewrite occ_cons.
    destruct (decide (x = v)) as [->|Hne].
    + rewrite (IH _ _ (z - 1)).
      * f_equal. f_equal. lia.
      * by rewrite lookup_insert_eq, Hv.
    + rewrite (IH _ _ z); [|by rewrite lookup_insert_ne]. done.
Qed.

(** A list of names in which every package comes after the workspace
    members it depends on rules out a cycle, whether or not the package
    names are distinct. *)
Lemma ranked_acyclic (pkgs : list WorkspacePackage.t) (rank : list string) :
  NoDup rank →
  (∀ d, d ∈ names pkgs → ∀ p, p ∈ dependents (build_graph pkgs) d →
     ∃ i j, rank !! i = Some p ∧ rank !! j = Some d ∧ (j < i)%nat) →
  acyclic pkgs.
Proof.
  intros Hnd Hrank. unfold acyclic.
  apply (backwards_acyclic (depends_on pkgs) rank Hnd).
  intros p d Hdep. apply Hrank; [by destruct Hdep|by apply build_graph_edge].
Qed.

(** The edges of a given list of packages, one goal for each. *)
Ltac by_rank :=
  intros d Hd p Hp;
  repeat (apply elem_of_cons in Hd as [->|Hd]);
  try (by apply elem_of_nil in Hd);
  vm_compute dependents in Hp;
  repeat (apply elem_of_cons in Hp as [->|Hp]);
  try (by apply elem_of_nil in Hp).

(** The places of a dependent and of its dependency in the list. *)
Ltac at_ranks i j := exists i, j; split_and!; [reflexivity..|lia].

Lemma twin_packages_acyclic : acyclic twin_packages.
Proof.
  apply (ranked_acyclic _ ["x"; "m"; "n"; "d"]).
  { apply (bool_decide_unpack _). vm_compute. reflexivity. }
  by_rank.
  - at_ranks 3%nat 0%nat.
  - at_ranks 3%nat 0%nat.
  - at_ranks 2%nat 1%nat.
  - at_ranks 3%nat 2%nat.
Qed.

Lemma twin_dependents_acyclic : acyclic twin_dependents.
Proof.
  apply (ranked_acyclic _ ["a"; "b"]).
  { apply (bool_decide_unpack _). vm_compute. reflexivity. }
  by_rank; at_ranks 1%nat 0%nat.
Qed.

Lemma twin_members_acyclic : acyclic twin_members.
Proof.
  apply (ranked_acyclic _ ["a"; "b"]).
  { apply (bool_decide_unpack _). vm_compute. reflexivity. }
  by_rank; at_ranks 1%nat 0%nat.
Qed.

(** Claim C1 as stated fails: the dependency relation of [twin_packages],
    two of which share the name [x], is acyclic, and [topoSort] returns
    [d] before [n] although the graph records the edge from the
    dependency [n] to its dependent [d]. *)
Lemma topoSort_misorders_twins :
  acyclic twin_packages ∧
  topoSort twin_packages (WorkspaceInfo.graph (workspace_of twin_packages)) =
    Returned ["x"; "x"; "m"; "d"; "n"] ∧
  "d" ∈ dependents (WorkspaceInfo.graph (workspace_of twin_packages)) "n" ∧
  ["x"; "x"; "m"; "d"; "n"] !! 4%nat = Some "n" ∧
  ["x"; "x"; "m"; "d"; "n"] !! 3%nat = Some "d".
Proof.
  split_and!; [apply twin_packages_acyclic|vm_compute; reflexivity| |done..].
  vm_compute dependents. by left.
Qed.

(** Claim C1.  For every package list with distinct names whose
    workspace-internal dependency relation is acyclic, [topoSort] on the
    graph of the workspace returns a permutation of the package names in
    which, for every recorded edge dependency -> dependent, the index of
    the dependency is strictly less than the index of the dependent. *)
Theorem topoSort_sorts (pkgs : list WorkspacePackage.t) :
  NoDup (names pkgs) → acyclic pkgs →
  ∃ out,
    topoSort pkgs (WorkspaceInfo.graph (workspace_of pkgs)) = Returned out ∧
    out ≡ₚ names pkgs ∧
    ∀ dependency dependent,
      dependent ∈ dependents (WorkspaceInfo.graph (workspace_of pkgs)) dependency →
      ∀ i j, out !! i = Some dependency → out !! j = Some dependent → (i < j)%nat.
Proof.
  intros Hnd Hacyclic. simpl.
  destruct (topoSort_cases pkgs Hnd) as [(out & Hout & _ & Hperm & Hfwd)|[_ [n Hn]]].
  - by exists out.
  - by destruct (Hacyclic n).
Qed.

Lemma topoSort_sorts_example :
  ∃ out,
    topoSort example_packages
      (WorkspaceInfo.graph (workspace_of example_packages)) = Returned out ∧
    out ≡ₚ names example_packages ∧
    ∀ dependency dependent,
      dependent ∈ dependents
        (WorkspaceInfo.graph (workspace_of example_packages)) dependency →
      ∀ i j, out !! i = Some dependency → out !! j = Some dependent → (i < j)%nat.
Proof.
  apply (topoSort_sorts example_packages).
  - apply (bool_decide_unpack _). vm_compute. reflexivity.
  - apply (topoSort_returned_acyclic _ ["c"; "b"; "a"]).
    + apply (bool_decide_unpack _). vm_compute. reflexivity.
    + vm_compute. reflexivity.
Defined.

(** Claim C2 as stated fails: no package of [twin_dependents], two of
    which share the name [b], depends on itself through a chain of
    dependencies, and [topoSort] fails with the cycle error: it has emitted
    two names for three packages. *)
Lemma topoSort_rejects_twins :
  acyclic twin_dependents ∧ ¬ has_cycle twin_dependents ∧
  topoSort twin_dependents (build_graph twin_dependents) =
    Thrown "Cycle detected in local dependency graph." ∧
  emitted twin_dependents (build_graph twin_dependents) = ["a"; "b"].
Proof.
  split_and!; [apply twin_dependents_acyclic| |vm_compute; reflexivity..].
  intros [n Hn]. by apply (twin_dependents_acyclic n).
Qed.

(** Claim C2.  On the graph of a workspace with distinct names,
    [topoSort] fails with the cycle error exactly when a cycle exists among
    the workspace-internal dependencies, which is exactly when the emitted
    sequence is shorter than the package count; an ordering it returns is
    never partial: it has the length of the package list and holds every
    name.  Two packages that depend on each other make it fail. *)
Theorem topoSort_cycle (pkgs : list WorkspacePackage.t) :
  NoDup (names pkgs) →
  (topoSort pkgs (build_graph pkgs) = Thrown "Cycle detected in local dependency graph."
     ↔ has_cycle pkgs) ∧
  (has_cycle pkgs ↔ (length (emitted pkgs (build_graph pkgs)) < length pkgs)%nat) ∧
  (∀ out, topoSort pkgs (build_graph pkgs) = Returned out →
          length out = length pkgs ∧ out ≡ₚ names pkgs) ∧
  (∀ a b, depends_on pkgs a b → depends_on pkgs b a →
          topoSort pkgs (build_graph pkgs)
            = Thrown "Cycle detected in local dependency graph.") ∧
  topoSort mutual_packages (build_graph mutual_packages) =
    Thrown "Cycle detected in local dependency graph.".
Proof.
  intros Hnd.
  pose proof (topoSort_cases pkgs Hnd) as Hcases.
  assert (topoSort pkgs (build_graph pkgs)
            = Thrown "Cycle detected in local dependency graph."
          ↔ has_cycle pkgs) as Hiff.
  { split.
    - intros Hthrown. destruct Hcases as [(out & Hout & _)|[_ ?]]; [congruence|done].
    - intros [n Hn]. destruct Hcases as [(out & Hout & _)|[? _]]; [|done].
      by destruct (topoSort_returned_acyclic pkgs out Hnd Hout n). }
  split_and!; [done| | | |reflexivity].
  - rewrite <-Hiff.
    destruct (emitted_spec pkgs (build_graph pkgs) Hnd (build_graph_keys pkgs Hnd)
                (build_graph_targets pkgs)) as (Hout & Hsub & _).
    assert (length (emitted pkgs (build_graph pkgs)) ≤ length pkgs)%nat as Hle.
    { replace (length pkgs) with (length (names pkgs))
        by (unfold names; by rewrite length_map).
      by apply submseteq_length, NoDup_submseteq. }
    unfold topoSort. case_decide; split; [lia|done|done|lia].
  - intros out Hret. destruct Hcases as [(out' & Hout & _ & Hperm & _)|[? _]]; [|congruence].
    assert (out' = out) as -> by congruence. split; [|done].
    rewrite Hperm. unfold names. by rewrite length_map.
  - intros a b Hab Hba. apply Hiff. exists a.
    eapply tc_l; [exact Hab|]. by apply tc_once.
Qed.

Lemma topoSort_cycle_mutual :
  (topoSort mutual_packages (build_graph mutual_packages)
     = Thrown "Cycle detected in local dependency graph."
     ↔ has_cycle mutual_packages) ∧
  (has_cycle mutual_packages ↔
     (length (emitted mutual_packages (build_graph mutual_packages))
        < length mutual_packages)%nat) ∧
  (∀ out, topoSort mutual_packages (build_graph mutual_packages) = Returned out →
          length out = length mutual_packages ∧ out ≡ₚ names mutual_packages) ∧
  (∀ a b, depends_on mutual_packages a b → depends_on mutual_packages b a →
          topoSort mutual_packages (build_graph mutual_packages)
            = Thrown "Cycle detected in local dependency graph.") ∧
  topoSort mutual_packages (build_graph mutual_packages) =
    Thrown "Cycle detected in local dependency graph.".
Proof.
  apply (topoSort_cycle mutual_packages).
  apply (bool_decide_unpack _). vm_compute. reflexivity.
Defined.


(* ===================================================================== *)
(** * The loop of [topoSort] ends                                         *)
(* ===================================================================== *)

Lemma positive_degrees_insert (m : gmap string jsnum) (v : string) (x : jsnum) :
  (positive_degrees (<[v:=x]> m)
   + (if from_option is_positive false (m !! v) then 1 else 0))%nat =
  (positive_degrees m + (if is_positive x then 1 else 0))%nat.
Proof.
  unfold positive_degrees. rewrite map_filter_insert. simpl.
  set (F := filter (λ kv : string * jsnum, is_positive kv.2 = true) m).
  assert (F !! v = match m !! v with
                   | Some y => if is_positive y then Some y else None
                   | None => None
                   end) as HF.
  { unfold F. destruct (m !! v) as [y|] eqn:Hm.
    - destruct (is_positive y) eqn:Hy.
      + apply map_lookup_filter_Some. done.
      + apply map_lookup_filter_None. right. intros y' Hy'. simpl. congruence.
    - apply map_lookup_filter_None. by left. }
  destruct (is_positive x) eqn:Hx.
  - rewrite decide_True by done. rewrite map_size_insert, HF.
    destruct (m !! v) as [y|]; simpl; [destruct (is_positive y)|]; simpl; lia.
  - rewrite decide_False by done. rewrite map_filter_delete.
    fold F. rewrite map_size_delete, HF.
    destruct (m !! v) as [y|] eqn:Hm; simpl; [|lia].
    destruct (is_positive y) eqn:Hy; simpl; [|lia].
    assert (size F ≠ 0%nat); [|lia].
    apply (map_size_ne_0_lookup_2 _ v). rewrite HF. done.
Qed.

(** A turn of the inner loop keeps the number of turns that are left. *)
Lemma relax_measure (inDeg : gmap string jsnum) (q : list string) (v : string) :
  (length (relax (inDeg, q) v).2 + positive_degrees (relax (inDeg, q) v).1)%nat =
  (length q + positive_degrees inDeg)%nat.
Proof.
  unfold relax. cbn [fst snd].
  pose proof (positive_degrees_insert inDeg v (minus_one (inDeg !! v))) as H.
  destruct (inDeg !! v) as [[z|]|]; simpl in *; try lia.
  destruct (Z.eqb_spec (z - 1) 0) as [Hz|Hz].
  - rewrite length_app. simpl.
    replace (0 <? z) with true in H by (symmetry; apply Z.ltb_lt; lia).
    replace (0 <? z - 1) with false in H by (symmetry; apply Z.ltb_ge; lia). lia.
  - destruct (Z.ltb_spec 0 z), (Z.ltb_spec 0 (z - 1)); lia.
Qed.

Lemma relax_all_measure (vs : list string) (inDeg : gmap string jsnum) (q : list string) :
  (length (fold_left relax vs (inDeg, q)).2
   + positive_degrees (fold_left relax vs (inDeg, q)).1)%nat =
  (length q + positive_degrees inDeg)%nat.
Proof.
  revert inDeg q. induction vs as [|v vs IH]; intros inDeg q; [done|].
  cbn [fold_left]. rewrite <-(relax_measure inDeg q v).
  destruct (relax (inDeg, q) v) as [inDeg' q']. apply IH.
Qed.

(** More fuel than turns are left changes nothing. *)
Lemma kahn_loop_fuel (fuel extra : nat) (G : Graph) (inDeg : gmap string jsnum)
    (q out : list string) :
  (length q + positive_degrees inDeg ≤ fuel)%nat →
  kahn_loop (fuel + extra) G inDeg q out = kahn_loop fuel G inDeg q out.
Proof.
  revert inDeg q out. induction fuel as [|fuel IH]; intros inDeg q out Hle.
  - destruct q; [|simpl in Hle; lia]. by destruct extra.
  - destruct q as [|n q]; [done|]. cbn [kahn_loop Nat.add].
    pose proof (relax_all_measure (dependents G n) inDeg q) as Hm.
    destruct (fold_left relax (dependents G n) (inDeg, q)) as [inDeg' q'].
    apply IH. simpl in *. lia.
Qed.

Lemma positive_degrees_zero (pkgs : list WorkspacePackage.t) :
  positive_degrees (zero_degrees pkgs) = 0%nat.
Proof.
  unfold positive_degrees. apply map_size_empty_iff, map_empty_filter.
  assert (∀ m : gmap string jsnum,
    (∀ k x, m !! k = Some x → x = Num 0) →
    ∀ k x, fold_left (λ m p, <[WorkspacePackage.name p:=Num 0]> m) pkgs m !! k = Some x →
           x = Num 0) as H.
  { induction pkgs as [|p ps IH]; intros m Hm; [done|]. simpl. apply IH.
    intros k' x' [[_ <-]|[_ ?]]%lookup_insert_Some; [done|by eapply Hm]. }
  intros k x Hk. simpl. rewrite (H ∅) with (k := k) (x := x); [done| |done].
  intros ? ?. by rewrite lookup_empty.
Qed.

Lemma positive_degrees_in_degrees (pkgs : list WorkspacePackage.t) (G : Graph) :
  (positive_degrees (in_degrees pkgs G) ≤ edge_count G)%nat.
Proof.
  unfold in_degrees, edge_count, JsMap.entries. rewrite <-(Nat.add_0_l (sum_list _)).
  rewrite <-(positive_degrees_zero pkgs). generalize (zero_degrees pkgs) as m.
  assert (∀ vs (m : gmap string jsnum),
    (positive_degrees (fold_left count_edge vs m) ≤ positive_degrees m + length vs)%nat) as Hvs.
  { induction vs as [|v vs IH]; intros m; simpl; [lia|].
    etrans; [apply IH|]. unfold count_edge.
    pose proof (positive_degrees_insert m v (Num (or_zero (m !! v) + 1))) as H.
    destruct (from_option is_positive false (m !! v)), (is_positive _); lia. }
  induction G as [|[k vs] G IH]; intros m; simpl; [lia|].
  etrans; [apply IH|]. specialize (Hvs vs m). lia.
Qed.

(** Property X1.  The loop of [topoSort] has ended when [emitted] reads
    [out]: with more fuel the result is the same, whatever the packages and
    the graph. *)
Lemma emitted_fuel (pkgs : list WorkspacePackage.t) (G : Graph) (extra : nat) :
  kahn_loop (length pkgs + edge_count G + extra) G (in_degrees pkgs G)
    (filter (λ n, or_zero (in_degrees pkgs G !! n) = 0) (names pkgs)) []
  = emitted pkgs G.
Proof.
  apply kahn_loop_fuel.
  pose proof (positive_degrees_in_degrees pkgs G).
  pose proof (length_filter (λ n, or_zero (in_degrees pkgs G !! n) = 0) (names pkgs)) as Hf.
  unfold names in Hf at 2. rewrite length_map in Hf. lia.
Qed.


(* ===================================================================== *)
(** * Repeated edges                                                      *)
(* ===================================================================== *)

Lemma occ_app (v : string) (l1 l2 : list string) :
  occ v (l1 ++ l2) = (occ v l1 + occ v l2)%nat.
Proof. unfold occ. by rewrite filter_app, length_app. Qed.

Lemma occ_bind {A} (v : string) (f : A → list string) (l : list A) :
  occ v (l ≫= f) = sum_list ((λ x, occ v (f x)) <$> l).
Proof.
  induction l as [|x l IH]; [done|]. csimpl. by rewrite occ_app, IH.
Qed.

Lemma occ_NoDup (v : string) (l : list string) :
  NoDup l → v ∈ l → occ v l = 1%nat.
Proof.
  induction 1 as [|x l Hx Hnd IH]; [by intros ?%elem_of_nil|].
  rewrite occ_cons. intros [->|Hv]%elem_of_cons.
  - rewrite decide_True by done. apply occ_zero in Hx. lia.
  - rewrite decide_False by (intros ->; done). by rewrite IH.
Qed.

(** How often a package is recorded as a dependent of [d]: once for every
    key [d] in each of its dependency fields. *)
Lemma occ_edges_into (pkgs : list WorkspacePackage.t) (P : WorkspacePackage.t)
    (d : string) :
  NoDup (names pkgs) → P ∈ pkgs →
  occ (WorkspacePackage.name P) (edges_into pkgs d) =
  sum_list ((λ field, occ d (field_keys P field)) <$> DEP_FIELDS).
Proof.
  intros Hnd HP. unfold edges_into. rewrite occ_bind.
  assert (∀ Q : WorkspacePackage.t,
    occ (WorkspacePackage.name P)
      (field ← DEP_FIELDS; key ← field_keys Q field;
       if decide (key = d) then [WorkspacePackage.name Q] else []) =
    if decide (WorkspacePackage.name Q = WorkspacePackage.name P)
    then sum_list ((λ field, occ d (field_keys Q field)) <$> DEP_FIELDS)
    else 0%nat) as Hone.
  { intros Q. rewrite occ_bind.
    assert (∀ field,
      occ (WorkspacePackage.name P)
        (key ← field_keys Q field;
         if decide (key = d) then [WorkspacePackage.name Q] else []) =
      if decide (WorkspacePackage.name Q = WorkspacePackage.name P)
      then occ d (field_keys Q field) else 0%nat) as Hfield.
    { intros field. rewrite occ_bind.
      induction (field_keys Q field) as [|key ks IH]; csimpl.
      - by case_decide.
      - rewrite IH, (occ_cons d key). repeat case_decide; subst; try done.
        + by rewrite occ_cons, decide_True.
        + by rewrite occ_cons, decide_False. }
    unfold DEP_FIELDS. csimpl. rewrite !Hfield. case_decide; lia. }
  erewrite list_fmap_ext; [|intros ? Q _; apply Hone].
  clear Hone. unfold names in Hnd.
  induction pkgs as [|Q pkgs IH]; [by apply elem_of_nil in HP|].
  csimpl in *. apply NoDup_cons in Hnd as [HQ Hnd].
  assert (∀ c : WorkspacePackage.t → nat,
    WorkspacePackage.name P ∉ WorkspacePackage.name <$> pkgs →
    sum_list ((λ Q, if decide (WorkspacePackage.name Q = WorkspacePackage.name P)
                    then c Q else 0%nat) <$> pkgs) = 0%nat) as Hzero.
  { intros c. clear. induction pkgs as [|Q pkgs IH]; [done|]. csimpl.
    intros [? ?]%not_elem_of_cons. rewrite decide_False by done. by rewrite IH. }
  apply elem_of_cons in HP as [->|HP].
  - rewrite decide_True by done. rewrite Hzero by done. lia.
  - rewrite decide_False, IH; [done..|].
    intros Heq. apply HQ. rewrite Heq. apply list_elem_of_fmap. by exists P.
Qed.

(** Nothing is left of an in-degree once every key of the graph has been
    dequeued. *)
Lemma rdeg_all (G : Graph) (out : list string) (v : string) :
  (∀ k, k ∈ G.*1 → k ∈ out) → rdeg G out v = 0%nat.
Proof.
  induction G as [|[k vs] G IH]; intros Hall; [done|].
  rewrite rdeg_cons, decide_True by (apply Hall; left).
  rewrite IH; [done|]. intros k' Hk'. apply Hall. by right.
Qed.

(** The in-degree of [v] is what is left of it after the names of [out]
    have been dequeued, and one for every entry [v] of their dependent
    lists. *)
Lemma rdeg_dequeued (G : Graph) (out : list string) (v : string) :
  NoDup G.*1 → NoDup out →
  rdeg G [] v =
  (rdeg G out v + sum_list ((λ d, occ v (dependents G d)) <$> out))%nat.
Proof.
  intros HG. induction out as [|n out IH] using rev_ind; intros Hnd.
  - simpl. lia.
  - apply NoDup_app in Hnd as (Hnd & Hn & _).
    rewrite fmap_app, IH by done.
    assert (∀ l1 l2 : list nat, sum_list (l1 ++ l2) = (sum_list l1 + sum_list l2)%nat)
      as -> by (intros l1 l2; induction l1; simpl; lia).
    simpl.
    rewrite <-(rdeg_snoc G out n v HG); [lia|].
    intros Hin. apply (Hn n Hin). by left.
Qed.

(** Claim C9 as stated fails: the dependency relation of [twin_members],
    two of which share the name [a] that [b] lists in two fields, is
    acyclic, and [topoSort] returns the name [a] twice. *)
Lemma topoSort_repeats_twins :
  acyclic twin_members ∧
  dependents (build_graph twin_members) "a" = ["b"; "b"] ∧
  topoSort twin_members (build_graph twin_members) = Returned ["a"; "a"; "b"] ∧
  occ "a" ["a"; "a"; "b"] = 2%nat.
Proof.
  split_and!; [apply twin_members_acyclic|vm_compute; reflexivity..].
Qed.

(** Claim C9.  For every package list with distinct names whose internal
    dependency relation is acyclic, also when a package names the same
    workspace member in several dependency fields, [topoSort] returns every
    package name exactly once, as many names as there are packages, and
    every dependency before its dependents.  A package occurs in the
    dependent list of a member once per field that names the member; the
    in-degree of a name counts every entry of every dependent list, repeats
    included; dequeuing a name lowers the in-degree of a dependent by the
    number of its entries in the list; and the in-degree of a name is
    exactly the number of times the names of the output, dequeued once
    each, lower it. *)
Theorem topoSort_duplicate_edges (pkgs : list WorkspacePackage.t) :
  NoDup (names pkgs) → acyclic pkgs →
  (∃ out, topoSort pkgs (build_graph pkgs) = Returned out ∧
          NoDup out ∧ length out = length pkgs ∧
          (∀ n, n ∈ names pkgs → occ n out = 1%nat) ∧
          edges_forward (build_graph pkgs) out ∧
          ∀ v, v ∈ names pkgs →
            in_degrees pkgs (build_graph pkgs) !! v =
            Some (Num (Z.of_nat (sum_list
              ((λ d, occ v (dependents (build_graph pkgs) d)) <$> out))))) ∧
  (∀ P d, P ∈ pkgs → d ∈ names pkgs →
     occ (WorkspacePackage.name P) (dependents (build_graph pkgs) d) =
     sum_list ((λ field, occ d (field_keys P field)) <$> DEP_FIELDS)) ∧
  (∀ v, v ∈ names pkgs →
     in_degrees pkgs (build_graph pkgs) !! v =
     Some (Num (Z.of_nat (sum_list
       ((λ e, occ v e.2) <$> JsMap.entries (build_graph pkgs)))))) ∧
  (∀ d inDeg q v z, inDeg !! v = Some (Num z) →
     (fold_left relax (dependents (build_graph pkgs) d) (inDeg, q)).1 !! v =
     Some (Num (z - Z.of_nat (occ v (dependents (build_graph pkgs) d))))).
Proof.
  intros Hnd Hacyclic. split_and!.
  - destruct (topoSort_cases pkgs Hnd) as [(out & Hout & Hndout & Hperm & Hfwd)|[_ [n Hn]]];
      [|by destruct (Hacyclic n)].
    exists out. split_and!; [done..| | |done|].
    + rewrite Hperm. unfold names. by rewrite length_map.
    + intros n Hn. apply occ_NoDup; [done|]. by rewrite Hperm.
    + intros v Hv. rewrite in_degrees_lookup by done.
      rewrite (rdeg_dequeued _ out), rdeg_all; [done| |by rewrite build_graph_keys|done].
      intros k Hk. rewrite Hperm. by rewrite build_graph_keys in Hk.
  - intros P d HP Hd. rewrite build_graph_dependents, decide_True by done.
    by apply occ_edges_into.
  - intros v Hv. rewrite in_degrees_lookup by done. by rewrite rdeg_nil_out.
  - intros d inDeg q v z. apply relax_all_lookup.
Qed.

Lemma topoSort_duplicate_edges_example :
  dependents (build_graph example_packages) "c" = ["b"; "b"] ∧
  (∃ out, topoSort example_packages (build_graph example_packages) = Returned out ∧
          NoDup out ∧ length out = length example_packages ∧
          (∀ n, n ∈ names example_packages → occ n out = 1%nat) ∧
          edges_forward (build_graph example_packages) out ∧
          ∀ v, v ∈ names example_packages →
            in_degrees example_packages (build_graph example_packages) !! v =
            Some (Num (Z.of_nat (sum_list
              ((λ d, occ v (dependents (build_graph example_packages) d)) <$> out))))) ∧
  (∀ P d, P ∈ example_packages → d ∈ names example_packages →
     occ (WorkspacePackage.name P) (dependents (build_graph example_packages) d) =
     sum_list ((λ field, occ d (field_keys P field)) <$> DEP_FIELDS)) ∧
  (∀ v, v ∈ names example_packages →
     in_degrees example_packages (build_graph example_packages) !! v =
     Some (Num (Z.of_nat (sum_list
       ((λ e, occ v e.2) <$> JsMap.entries (build_graph example_packages)))))) ∧
  (∀ d inDeg q v z, inDeg !! v = Some (Num z) →
     (fold_left relax (dependents (build_graph example_packages) d) (inDeg, q)).1 !! v =
     Some (Num (z - Z.of_nat (occ v (dependents (build_graph example_packages) d))))).
Proof.
  split; [vm_compute; reflexivity|].
  apply (topoSort_duplicate_edges example_packages).
  - apply (bool_decide_unpack _). vm_compute. reflexivity.
  - apply (topoSort_returned_acyclic _ ["c"; "b"; "a"]).
    + apply (bool_decide_unpack _). vm_compute. reflexivity.
    + vm_compute. reflexivity.
Defined.


(* ===================================================================== *)
(** * The graph builder, as built                                         *)
(* ===================================================================== *)

Lemma read_packages_ok (w : World) (dirs : list string) :
  (∀ dir, dir ∈ dirs → is_Some (files w !! package_json_in dir)) →
  ∃ packages, read_packages dirs w = (Returned packages, w).
Proof.
  induction dirs as [|dir dirs IH]; intros Hfiles.
  - by exists [].
  - destruct (Hfiles dir) as [pkg Hpkg]; [left|].
    destruct IH as [packages Hrest]; [intros; apply Hfiles; by right|].
    exists (package_of dir pkg :: packages).
    cbn [read_packages]. unfold bind, readJSON. rewrite Hpkg, Hrest. done.
Qed.

(** Claim C5, amended.  The dependent list of a workspace member
    [depName] holds the name of a package once for every key [depName] of
    each of its dependency fields, whatever the range is and also when the
    package is [depName] itself; names that are no workspace member have no
    entry; and building the workspace raises no error when the manifests
    can be read. *)
Theorem build_graph_edges (pkgs : list WorkspacePackage.t) :
  (∀ depName, depName ∈ names pkgs →
     JsMap.get depName (build_graph pkgs) = Some (edges_into pkgs depName)) ∧
  (∀ depName, depName ∉ names pkgs → JsMap.get depName (build_graph pkgs) = None) ∧
  (∀ depName dependent,
     dependent ∈ dependents (build_graph pkgs) depName ↔
     depName ∈ names pkgs ∧
     ∃ A field deps range,
       A ∈ pkgs ∧ WorkspacePackage.name A = dependent ∧
       get_deps (WorkspacePackage.data A) field = Some deps ∧
       (depName, range) ∈ deps) ∧
  (∀ w, (∀ dir, dir ∈ packageDirs w → is_Some (files w !! package_json_in dir)) →
        ∃ packages, buildWorkspace w = (Returned (workspace_of packages), w)).
Proof.
  split_and!.
  - intros d Hd. by rewrite build_graph_get, decide_True.
  - intros d Hd. by rewrite build_graph_get, decide_False.
  - intros d p. rewrite build_graph_edge. unfold depends_on, field_keys, keys.
    split; intros [Hd H]; (split; [done|]).
    + destruct H as (A & field & HA & Hname & Hkey).
      apply list_elem_of_fmap in Hkey as ([k range] & -> & Hin).
      destruct (get_deps (WorkspacePackage.data A) field) as [deps|] eqn:Hdeps;
        [|by apply elem_of_nil in Hin].
      by exists A, field, deps, range.
    + destruct H as (A & field & deps & range & HA & Hname & Hdeps & Hin).
      exists A, field. split_and!; [done..|]. rewrite Hdeps. simpl.
      apply list_elem_of_fmap. by exists (d, range).
  - intros w Hfiles. destruct (read_packages_ok w _ Hfiles) as [packages Hread].
    exists packages. unfold buildWorkspace, bind, findPackageDirs. by rewrite Hread.
Qed.

Lemma build_graph_edges_example :
  JsMap.get "c" (build_graph example_packages) = Some ["b"; "b"] ∧
  ∃ packages,
    buildWorkspace example_world = (Returned (workspace_of packages), example_world).
Proof.
  split.
  - rewrite (proj1 (build_graph_edges example_packages) "c").
    + vm_compute. reflexivity.
    + apply (bool_decide_unpack _). vm_compute. reflexivity.
  - apply (proj2 (proj2 (proj2 (build_graph_edges example_packages))) example_world).
    intros dir Hdir. unfold example_world in Hdir. simpl in Hdir.
    repeat (apply elem_of_cons in Hdir as [->|Hdir]; [vm_compute; eauto|]).
    by apply elem_of_nil in Hdir.
Defined.

(** Claim C5 as stated fails: a package that lists its own name is
    recorded as its own dependent, and a dependency whose range is not a
    string is recorded like any other, where the specification has no edge. *)
Lemma build_graph_ignores_nothing :
  dependents (build_graph odd_packages) "s" = ["s"] ∧
  spec_edges_into odd_packages "s" = [] ∧
  dependents (build_graph odd_packages) "u" = ["t"] ∧
  spec_edges_into odd_packages "u" = [].
Proof. vm_compute. done. Qed.

(* ===================================================================== *)
(** * Rewriting the ranges                                                *)
(* ===================================================================== *)

Lemma obj_set_keys (dep : string) (value : JsonValue) (deps : Deps) :
  dep ∈ keys deps → keys (obj_set dep value deps) = keys deps.
Proof.
  unfold keys. induction deps as [|[k v] deps IH]; [by intros ?%elem_of_nil|].
  csimpl. intros Hin. case_decide; [done|]. csimpl. f_equal. apply IH.
  apply elem_of_cons in Hin as [?|?]; [congruence|done].
Qed.

Lemma obj_set_fmap (dep : string) (value : JsonValue) (deps : Deps) :
  dep ∈ keys deps → NoDup (keys deps) →
  obj_set dep value deps =
  (λ entry, (entry.1, if decide (entry.1 = dep) then value else entry.2)) <$> deps.
Proof.
  unfold keys. induction deps as [|[k v] deps IH]; [by intros ?%elem_of_nil|].
  csimpl. intros Hin [Hk Hnd]%NoDup_cons. case_decide as Heq.
  - subst. f_equal. clear IH Hin Hnd. 
    induction deps as [|[k' v'] deps IH]; [done|]. csimpl in *.
    apply not_elem_of_cons in Hk as [? ?]. rewrite decide_False by done.
    f_equal. by apply IH.
  - f_equal. apply IH; [|done]. apply elem_of_cons in Hin as [?|?]; [congruence|done].
Qed.

Lemma entry_value_unique (deps : Deps) (k : string) (v v' : JsonValue) :
  NoDup (keys deps) → (k, v) ∈ deps → (k, v') ∈ deps → v = v'.
Proof.
  unfold keys. induction deps as [|[k0 v0] deps IH]; [by intros _ ?%elem_of_nil|].
  csimpl. intros [Hk Hnd]%NoDup_cons Hv Hv'.
  assert (∀ x, (k0, x) ∈ deps → False) as Habs.
  { intros x Hx. apply Hk. apply list_elem_of_fmap. by exists (k0, x). }
  apply elem_of_cons in Hv as [Hv|Hv], Hv' as [Hv'|Hv'].
  - congruence.
  - injection Hv as -> ->. by destruct (Habs v').
  - injection Hv' as -> ->. by destruct (Habs v).
  - by apply IH.
Qed.

Lemma bump_range_fmap (internalNames : gset string) (next : string)
    (deps : Deps) (dep : string) (range : JsonValue) :
  NoDup (keys deps) → (dep, range) ∈ deps →
  bump_range internalNames next deps (dep, range) =
  (λ entry, (entry.1, if decide (entry.1 = dep)
                      then bumped_range internalNames next entry.1 entry.2
                      else entry.2)) <$> deps.
Proof.
  intros Hnd Hin.
  assert (deps = (λ entry : string * JsonValue, (entry.1, entry.2)) <$> deps) as Hid.
  { rewrite <-(list_fmap_id deps) at 1. apply list_fmap_ext. by intros ? [??]. }
  assert (dep ∈ keys deps) as Hkey.
  { unfold keys. apply list_elem_of_fmap. by exists (dep, range). }
  unfold bump_range. destruct (decide (dep ∉ internalNames)) as [Hext|Hint].
  - rewrite Hid at 1. apply list_fmap_ext. intros i [k v] Hi. simpl.
    case_decide; [|done]. subst. unfold bumped_range.
    destruct v; [|done..]. by rewrite decide_False.
  - apply dec_stable in Hint. destruct range as [r| | |].
    + rewrite obj_set_fmap by done. apply list_fmap_ext. intros i [k v] Hi. simpl.
      case_decide; [|done]. subst.
      assert (v = JString r) as ->.
      { eapply entry_value_unique; [done| |done]. by eapply list_elem_of_lookup_2. }
      unfold bumped_range. by rewrite decide_True.
    + rewrite Hid at 1. apply list_fmap_ext. intros i [k v] Hi. simpl.
      case_decide; [|done]. subst.
      assert (v = JNumber n) as ->; [|done].
      eapply entry_value_unique; [done| |done]. by eapply list_elem_of_lookup_2.
    + rewrite Hid at 1. apply list_fmap_ext. intros i [k v] Hi. simpl.
      case_decide; [|done]. subst.
      assert (v = JBool b) as ->; [|done].
      eapply entry_value_unique; [done| |done]. by eapply list_elem_of_lookup_2.
    + rewrite Hid at 1. apply list_fmap_ext. intros i [k v] Hi. simpl.
      case_decide; [|done]. subst.
      assert (v = JNull) as ->; [|done].
      eapply entry_value_unique; [done| |done]. by eapply list_elem_of_lookup_2.
Qed.

Lemma bump_ranges_fmap (internalNames : gset string) (next : string)
    (entries deps : Deps) :
  NoDup (keys deps) → NoDup (keys entries) →
  (∀ entry, entry ∈ entries → entry ∈ deps) →
  fold_left (bump_range internalNames next) entries deps =
  (λ entry, (entry.1, if decide (entry.1 ∈ keys entries)
                      then bumped_range internalNames next entry.1 entry.2
                      else entry.2)) <$> deps.
Proof.
  revert deps. induction entries as [|[k0 v0] entries IH]; intros deps Hnd Hes Hsub.
  - simpl. rewrite <-(list_fmap_id deps) at 1. apply list_fmap_ext.
    by intros ? [k v] _.
  - cbn [fold_left]. unfold keys in Hes. csimpl in Hes.
    apply NoDup_cons in Hes as [Hk0 Hes].
    rewrite bump_range_fmap; [|done|apply Hsub; left].
    rewrite IH; [| |done|].
    + rewrite <-list_fmap_compose. apply list_fmap_ext. intros i [k v] Hi. simpl.
      unfold keys. csimpl. destruct (decide (k = k0)) as [->|Hne].
      * rewrite decide_False by done. by rewrite decide_True by left.
      * destruct (decide (k ∈ map fst entries)) as [Hin|Hin];
          destruct (decide (k ∈ k0 :: map fst entries)) as [Hin'|Hin']; try done.
        -- destruct Hin'. by right.
        -- by apply elem_of_cons in Hin' as [?|?].
    + unfold keys. rewrite <-list_fmap_compose.
      erewrite list_fmap_ext; [exact Hnd|]. by intros ? [??] _.
    + intros [k v] Hin. apply list_elem_of_fmap. exists (k, v). split; [|apply Hsub; by right].
      simpl. rewrite decide_False; [done|]. intros ->. apply Hk0.
      apply list_elem_of_fmap. by exists (k0, v).
Qed.

Lemma bump_ranges_all (internalNames : gset string) (next : string) (deps : Deps) :
  NoDup (keys deps) →
  fold_left (bump_range internalNames next) deps deps =
  bumped_deps internalNames next deps.
Proof.
  intros Hnd. rewrite bump_ranges_fmap by done. unfold bumped_deps.
  apply list_fmap_ext. intros i [k v] Hi. simpl. rewrite decide_True; [done|].
  unfold keys. apply list_elem_of_fmap. exists (k, v). split; [done|].
  by eapply list_elem_of_lookup_2.
Qed.


Lemma bump_manifest_get (internalNames : gset string) (next : string)
    (pkg : PackageJson.t) (field : DependencyField) :
  get_deps (bump_manifest internalNames next pkg) field =
  (λ deps, fold_left (bump_range internalNames next) deps deps) <$> get_deps pkg field.
Proof.
  destruct pkg as [n v [d|] [dev|] [peer|] [opt|]]; by destruct field.
Qed.

Lemma bump_manifest_version (internalNames : gset string) (next : string)
    (pkg : PackageJson.t) :
  PackageJson.version (bump_manifest internalNames next pkg) = next ∧
  PackageJson.name (bump_manifest internalNames next pkg) = PackageJson.name pkg.
Proof. by destruct pkg as [n v [d|] [dev|] [peer|] [opt|]]. Qed.

Lemma set_version_same (pkg : PackageJson.t) :
  set_version (PackageJson.version pkg) pkg = pkg.
Proof. by destruct pkg. Qed.

Lemma preserveOperator_spec (next : string) :
  (∀ rest, preserveOperator ("^" +:+ rest) next = "^" +:+ next) ∧
  (∀ rest, preserveOperator ("~" +:+ rest) next = "~" +:+ next) ∧
  (∀ rest, preserveOperator (">=" +:+ rest) next = ">=" +:+ next) ∧
  (∀ rest, preserveOperator ("=" +:+ rest) next = "=" +:+ next) ∧
  (∀ oldRange,
     (∀ op, op ∈ ["^"; "~"; ">="; "="] → startsWith oldRange op = false) →
     preserveOperator oldRange next = next).
Proof.
  assert (∀ s, String.prefix "" s = true) as Hnil.
  { intros s. apply prefix_spec. by exists s. }
  split_and!;
    try (intros rest; unfold preserveOperator, startsWith;
         rewrite !append_cons; simpl; by rewrite Hnil).
  intros oldRange Hops. unfold preserveOperator.
  rewrite !Hops; [done|set_solver..].
Qed.

(* ===================================================================== *)
(** * The world of [version]                                              *)
(* ===================================================================== *)

Lemma read_packages_spec (dirs : list string) (w w' : World)
    (r : result (list WorkspacePackage.t)) :
  read_packages dirs w = (r, w') →
  w' = w ∧
  ∀ packages, r = Returned packages →
    ∀ p, p ∈ packages →
      WorkspacePackage.pkgPath p = package_json_in (WorkspacePackage.dir p) ∧
      files w !! WorkspacePackage.pkgPath p = Some (WorkspacePackage.data p).
Proof.
  revert r w'. induction dirs as [|dir dirs IH]; intros r w'; cbn [read_packages].
  - intros [= <- <-]. split; [done|]. intros ? [= <-] p ?%elem_of_nil. done.
  - unfold bind at 1. unfold readJSON at 1.
    destruct (files w !! package_json_in dir) as [pkg|] eqn:Hpkg.
    + unfold bind. destruct (read_packages dirs w) as [[packages|msg] w1] eqn:Hrest.
      * destruct (IH _ _ eq_refl) as [-> Hps]. intros [= <- <-]. split; [done|].
        intros ? [= <-] p [->|Hp]%elem_of_cons; [done|]. by eapply Hps.
      * destruct (IH _ _ eq_refl) as [-> _]. by intros [= <- <-].
    + by intros [= <- <-].
Qed.

Lemma buildWorkspace_spec (w w' : World) (ws : WorkspaceInfo.t) :
  buildWorkspace w = (Returned ws, w') →
  w' = w ∧ ws = workspace_of (WorkspaceInfo.packages ws) ∧
  ∀ p, p ∈ WorkspaceInfo.packages ws →
    files w !! WorkspacePackage.pkgPath p = Some (WorkspacePackage.data p).
Proof.
  unfold buildWorkspace, bind, findPackageDirs.
  destruct (read_packages (packageDirs w) w) as [[packages|msg] w1] eqn:Hread;
    [|done].
  apply read_packages_spec in Hread as [-> Hps]. intros [= <- <-].
  split_and!; [done..|]. intros p Hp. by apply (Hps _ eq_refl).
Qed.

(** The files after the loop of [version] over the packages. *)
Lemma write_packages_files (g : PackageJson.t → PackageJson.t)
    (packages : list WorkspacePackage.t) (w : World) :
  ∃ w', for_each packages (λ p,
          writeJSON (WorkspacePackage.pkgPath p) (g (WorkspacePackage.data p))) w
        = (Returned tt, w') ∧
        executed w' = executed w ∧
        (∀ path pkg, files w !! path = Some pkg →
           (∀ p, p ∈ packages → WorkspacePackage.pkgPath p = path →
                 g (WorkspacePackage.data p) = pkg) →
           files w' !! path = Some pkg) ∧
        (∀ p, p ∈ packages →
           (∀ p', p' ∈ packages →
              WorkspacePackage.pkgPath p' = WorkspacePackage.pkgPath p →
              WorkspacePackage.data p' = WorkspacePackage.data p) →
           files w' !! WorkspacePackage.pkgPath p = Some (g (WorkspacePackage.data p))).
Proof.
  revert w. induction packages as [|a packages IH]; intros w.
  - exists w. split_and!; [done..| |]; [done|by intros p ?%elem_of_nil].
  - cbn [for_each]. unfold bind at 1. unfold writeJSON at 1.
    set (w1 := mkWorld _ _ _ _ _ _).
    destruct (IH w1) as (w' & -> & Hexec & Hkeep & Hnew).
    exists w'. split_and!; [done..| |].
    + intros path pkg Hpath Heq. apply Hkeep.
      * unfold w1. simpl. destruct (decide (WorkspacePackage.pkgPath a = path)) as [<-|].
        -- rewrite lookup_insert_eq. f_equal. apply Heq; [left|done].
        -- by rewrite lookup_insert_ne.
      * intros p Hp. apply Heq. by right.
    + intros p [->|Hp]%elem_of_cons Hsame.
      * apply Hkeep; [unfold w1; simpl; by rewrite lookup_insert_eq|].
        intros p' Hp' Hpath. f_equal. apply Hsame; [by right|done].
      * apply Hnew; [done|]. intros p' Hp'. apply Hsame. by right.
Qed.


Lemma determineVersionType_returns (w : World) :
  ∃ kind, determineVersionType w = (Returned kind, w).
Proof.
  unfold determineVersionType.
  destruct (lastTag w); [|by eexists].
  destruct (commitsSince w) as [commits|]; [|by eexists].
  destruct (trims_to_empty commits); by eexists.
Qed.

(** The bump [version] applies: the one asked for, or the one
    [determineVersionType] finds. *)
Lemma actual_type (options : VersionOptions) (w : World) :
  ∃ kind,
    match type options with
    | Auto => determineVersionType
    | Fixed kind => ret kind
    end w = (Returned kind, w) ∧
    (∀ k, type options = Fixed k → kind = k).
Proof.
  destruct (type options) as [k|].
  - exists k. split; [done|]. by intros ? [= ->].
  - destruct (determineVersionType_returns w) as [kind ?]. by exists kind.
Qed.

(** [version] stops before it writes anything when the versions differ. *)
Lemma version_stops (config : Config) (options : VersionOptions) (w w1 : World)
    (ws : WorkspaceInfo.t) (msg : string) :
  buildWorkspace w = (Returned ws, w1) →
  ensureAllSameVersion (WorkspaceInfo.packages ws) = Thrown msg →
  version config options w = (Thrown msg, w).
Proof.
  intros Hbuild Hens. destruct (buildWorkspace_spec _ _ _ Hbuild) as (-> & _).
  destruct (actual_type options w) as (kind & Hkind & _).
  unfold version. unfold bind at 1. rewrite Hkind.
  unfold bind at 1. rewrite Hbuild.
  unfold bind at 1. unfold lift at 1. by rewrite Hens.
Qed.

(** What [version] has written when it returns. *)
Lemma version_returns (config : Config) (options : VersionOptions) (w w' : World) :
  version config options w = (Returned tt, w') →
  ∃ ws kind current next,
    buildWorkspace w = (Returned ws, w) ∧
    (∀ k, type options = Fixed k → kind = k) ∧
    ensureAllSameVersion (WorkspaceInfo.packages ws) = Returned current ∧
    semverBump current kind = Returned next ∧
    ∀ p, p ∈ WorkspaceInfo.packages ws →
      files w' !! WorkspacePackage.pkgPath p =
      Some (bump_manifest (list_to_set (names (WorkspaceInfo.packages ws))) next
              (WorkspacePackage.data p)).
Proof.
  destruct (actual_type options w) as (kind & Hkind & Hfixed).
  unfold version. unfold bind at 1. rewrite Hkind.
  unfold bind at 1.
  destruct (buildWorkspace w) as [[ws|?] w1] eqn:Hbuild; [|done].
  destruct (buildWorkspace_spec _ _ _ Hbuild) as (-> & _ & Hdata).
  unfold bind at 1. unfold lift at 1.
  destruct (ensureAllSameVersion (WorkspaceInfo.packages ws)) as [current|?] eqn:Hens;
    [|done].
  unfold bind at 1. unfold lift at 1.
  destruct (semverBump current kind) as [next|?] eqn:Hbump; [|done].
  set (names_set := list_to_set (names (WorkspaceInfo.packages ws)) : gset string).
  destruct (write_packages_files (bump_manifest names_set next)
              (WorkspaceInfo.packages ws) w) as (w2 & Hwrite & _ & _ & Hfiles).
  unfold bind at 1. rewrite Hwrite.
  intros Hrest. exists ws, kind, current, next. split_and!; [done..|].
  intros p Hp.
  assert (files w2 !! WorkspacePackage.pkgPath p =
          Some (bump_manifest names_set next (WorkspacePackage.data p))) as Hp2.
  { apply Hfiles; [done|]. intros p' Hp' Hpath.
    apply Hdata in Hp, Hp'. rewrite Hpath in Hp'. congruence. }
  revert Hrest. unfold bind at 1. unfold bind at 1. unfold exists_file at 1.
  set (rootPkgPath := package_json_in (root config)).
  assert (∀ (m : M unit) w3 w4,
    files w3 !! WorkspacePackage.pkgPath p =
      Some (bump_manifest names_set next (WorkspacePackage.data p)) →
    (if noGitCommit options then ret tt else m) w3 = (Returned tt, w4) →
    (∀ w5 w6, m w5 = (Returned tt, w6) → files w6 = files w5) →
    files w4 !! WorkspacePackage.pkgPath p =
      Some (bump_manifest names_set next (WorkspacePackage.data p))) as Hgit.
  { intros m w3 w4 H3. destruct (noGitCommit options).
    - by intros [= <-].
    - intros Hm Hsame. by rewrite (Hsame _ _ Hm). }
  assert (∀ w5 w6,
    (execSync "git add ." None ;;ₘ
     execSync ("git commit -m " +:+ dquote +:+
       ("chore(release): v" +:+ next +:+ (if skipCi options then " [skip ci]" else ""))
       +:+ dquote) None ;;ₘ
     execSync ("git tag v" +:+ next) None) w5 = (Returned tt, w6) →
    files w6 = files w5) as Hexec.
  { intros w5 w6. unfold bind, execSync. simpl. by intros [= <-]. }
  destruct (files w2 !! rootPkgPath) as [rootPkg|] eqn:Hroot.
  - rewrite bool_decide_true by done. unfold bind at 1. unfold readJSON at 1.
    rewrite Hroot. case_decide as Hversion.
    + unfold writeJSON at 1. cbn beta iota. intros Hrest.
      eapply Hgit; [|exact Hrest|exact Hexec]. simpl.
      destruct (decide (rootPkgPath = WorkspacePackage.pkgPath p)) as [Heq|Hne].
      * rewrite Heq, lookup_insert_eq. f_equal.
        rewrite Heq, Hp2 in Hroot. injection Hroot as <-.
        rewrite <-(proj1 (bump_manifest_version names_set next
                            (WorkspacePackage.data p))) at 1.
        apply set_version_same.
      * by rewrite lookup_insert_ne.
    + intros Hrest. by eapply Hgit; [|exact Hrest|exact Hexec].
  - rewrite bool_decide_false by (by intros [??]).
    intros Hrest. by eapply Hgit; [|exact Hrest|exact Hexec].
Qed.


(** Claim C6, amended.  During a version bump to [next], in every
    dependency field of a package record, every dependency whose name is a
    workspace member and whose range is a string has its range rewritten to
    [preserveOperator range next] (a prefix [^], [~], [>=] or [=] is kept,
    anything else gives the bare [next]); a dependency that is external, or
    whose range is not a string, keeps its range.  The record takes the
    version [next], and [version] writes the record so bumped for every
    package of the workspace. *)
Theorem version_rewrites_ranges (internalNames : gset string) (next : string)
    (pkg : PackageJson.t) (field : DependencyField) (deps : Deps) :
  get_deps pkg field = Some deps →
  NoDup (keys deps) →
  get_deps (bump_manifest internalNames next pkg) field =
    Some (bumped_deps internalNames next deps) ∧
  PackageJson.version (bump_manifest internalNames next pkg) = next ∧
  (∀ dep r, dep ∈ internalNames →
     bumped_range internalNames next dep (JString r) =
     JString (preserveOperator r next)) ∧
  (∀ dep range, dep ∉ internalNames →
     bumped_range internalNames next dep range = range) ∧
  (∀ dep range, (∀ r, range ≠ JString r) →
     bumped_range internalNames next dep range = range) ∧
  (∀ rest, preserveOperator ("^" +:+ rest) next = "^" +:+ next) ∧
  (∀ rest, preserveOperator ("~" +:+ rest) next = "~" +:+ next) ∧
  (∀ rest, preserveOperator (">=" +:+ rest) next = ">=" +:+ next) ∧
  (∀ rest, preserveOperator ("=" +:+ rest) next = "=" +:+ next) ∧
  (∀ oldRange,
     (∀ op, op ∈ ["^"; "~"; ">="; "="] → startsWith oldRange op = false) →
     preserveOperator oldRange next = next) ∧
  (∀ config options w w',
     version config options w = (Returned tt, w') →
     ∃ ws kind current bumpedTo,
       buildWorkspace w = (Returned ws, w) ∧
       (∀ k, type options = Fixed k → kind = k) ∧
       ensureAllSameVersion (WorkspaceInfo.packages ws) = Returned current ∧
       semverBump current kind = Returned bumpedTo ∧
       ∀ p, p ∈ WorkspaceInfo.packages ws →
         files w' !! WorkspacePackage.pkgPath p =
         Some (bump_manifest (list_to_set (names (WorkspaceInfo.packages ws)))
                 bumpedTo (WorkspacePackage.data p))).
Proof.
  intros Hdeps Hnd. split_and!.
  - by rewrite bump_manifest_get, Hdeps, <-bump_ranges_all.
  - apply bump_manifest_version.
  - intros dep r Hin. unfold bumped_range. by rewrite decide_True.
  - intros dep range Hout. unfold bumped_range. destruct range; [|done..].
    by rewrite decide_False.
  - intros dep range Hother. unfold bumped_range. destruct range as [r| | |]; [|done..].
    by destruct (Hother r).
  - apply preserveOperator_spec.
  - apply preserveOperator_spec.
  - apply preserveOperator_spec.
  - apply preserveOperator_spec.
  - apply preserveOperator_spec.
  - apply version_returns.
Qed.

Lemma version_rewrites_ranges_example :
  get_deps example_a dependencies =
    Some [("b", JString "^1.0.0"); ("lodash", JString "^4.17.0")] ∧
  NoDup (keys [("b", JString "^1.0.0"); ("lodash", JString "^4.17.0")]) ∧
  get_deps (bump_manifest (list_to_set (names example_packages)) "1.1.0" example_a)
    dependencies =
    Some [("b", JString "^1.1.0"); ("lodash", JString "^4.17.0")].
Proof.
  assert (NoDup (keys [("b", JString "^1.0.0"); ("lodash", JString "^4.17.0")])) as Hnd.
  { apply (bool_decide_unpack _). vm_compute. reflexivity. }
  split_and!; [reflexivity|exact Hnd|].
  rewrite (proj1 (version_rewrites_ranges (list_to_set (names example_packages))
                    "1.1.0" example_a dependencies _ eq_refl Hnd)).
  vm_compute. reflexivity.
Defined.

(** Claim C6 as stated fails: the range [null] of a dependency on the
    workspace member [u] is left as it is by the bump. *)
Lemma version_keeps_other_ranges :
  "u" ∈ names odd_packages ∧
  get_deps (PackageJson.mk "t" "1.0.0" (Some [("u", JNull)]) None None None)
    dependencies = Some [("u", JNull)] ∧
  get_deps
    (bump_manifest (list_to_set (names odd_packages)) "1.0.1"
       (PackageJson.mk "t" "1.0.0" (Some [("u", JNull)]) None None None))
    dependencies = Some [("u", JNull)].
Proof.
  split_and!; [|reflexivity|vm_compute; reflexivity].
  apply (bool_decide_unpack _). vm_compute. reflexivity.
Qed.

(* ===================================================================== *)
(** * Lockstep check                                                      *)
(* ===================================================================== *)

Lemma set_of_from (array s : list string) :
  let set := fold_left (λ s x, if decide (x ∈ s) then s else s ++ [x]) array s in
  (NoDup s → NoDup set) ∧ (∀ x, x ∈ set ↔ x ∈ s ∨ x ∈ array).
Proof.
  revert s. induction array as [|a array IH]; intros s; simpl.
  - split; [done|]. intros x. rewrite elem_of_nil. tauto.
  - destruct (IH (if decide (a ∈ s) then s else s ++ [a])) as [Hnd Hin]. split.
    + intros Hs. apply Hnd. case_decide; [done|].
      apply NoDup_app. split_and!; [done| |apply NoDup_singleton].
      intros x Hx Hx'%list_elem_of_singleton. by subst.
    + intros x. rewrite Hin, elem_of_cons. case_decide.
      * split; [tauto|]. intros [?|[->|?]]; tauto.
      * rewrite elem_of_app, list_elem_of_singleton. tauto.
Qed.

Lemma set_of_spec (array : list string) :
  NoDup (set_of array) ∧ (∀ x, x ∈ set_of array ↔ x ∈ array).
Proof.
  destruct (set_of_from array []) as [Hnd Hin]. split; [apply Hnd; constructor|].
  intros x. unfold set_of. rewrite Hin, elem_of_nil. tauto.
Qed.

Lemma set_of_single (array : list string) (v : string) :
  array ≠ [] → (∀ x, x ∈ array → x = v) → set_of array = [v].
Proof.
  intros Hne Hall. destruct (set_of_spec array) as [Hnd Hin].
  destruct (set_of array) as [|a [|b s]] eqn:Hset.
  - destruct array as [|x array]; [done|].
    assert (x ∈ []) as ?%elem_of_nil; [|done]. apply Hin. left.
  - f_equal. apply Hall, Hin. left.
  - assert (a = v) as -> by (apply Hall, Hin; left).
    assert (b = v) as -> by (apply Hall, Hin; right; left).
    apply NoDup_cons in Hnd as [Hnd _]. destruct Hnd. left.
Qed.

(** Claim C8.  [ensureAllSameVersion] returns the common version when
    every record of a non-empty workspace carries the same version.  When
    two records carry different versions it fails with a message that lists
    the distinct versions found, and [version] then fails with that message
    and leaves the world as it was. *)
Theorem ensureAllSameVersion_spec (packages : list WorkspacePackage.t) :
  (∀ v, packages ≠ [] →
        (∀ p, p ∈ packages → WorkspacePackage.version p = v) →
        ensureAllSameVersion packages = Returned v) ∧
  (∀ p1 p2, p1 ∈ packages → p2 ∈ packages →
     WorkspacePackage.version p1 ≠ WorkspacePackage.version p2 →
     ∃ found,
       ensureAllSameVersion packages =
         Thrown ("Lockstep requires all packages have the same version. Found: "
                 +:+ join ", " found) ∧
       NoDup found ∧
       (∀ v, v ∈ found ↔ ∃ p, p ∈ packages ∧ WorkspacePackage.version p = v) ∧
       ∀ config options w w1,
         buildWorkspace w = (Returned (workspace_of packages), w1) →
         version config options w =
           (Thrown ("Lockstep requires all packages have the same version. Found: "
                    +:+ join ", " found), w)).
Proof.
  split.
  - intros v Hne Hall. unfold ensureAllSameVersion.
    rewrite (set_of_single _ v); [done| |].
    + by destruct packages.
    + intros x (p & -> & Hp)%list_elem_of_fmap. by apply Hall.
  - intros p1 p2 Hp1 Hp2 Hdiff.
    destruct (set_of_spec (map WorkspacePackage.version packages)) as [Hnd Hin].
    assert (ensureAllSameVersion packages =
      Thrown ("Lockstep requires all packages have the same version. Found: "
              +:+ join ", " (set_of (map WorkspacePackage.version packages)))) as Hthrown.
    { unfold ensureAllSameVersion.
      destruct (set_of (map WorkspacePackage.version packages)) as [|a [|b s]] eqn:Hset;
        [done| |done].
      assert (∀ p, p ∈ packages → WorkspacePackage.version p = a) as Hall.
      { intros p Hp. apply list_elem_of_singleton, Hin, list_elem_of_fmap. by exists p. }
      destruct Hdiff. by rewrite !Hall. }
    exists (set_of (map WorkspacePackage.version packages)). split_and!; [done..| |].
    + intros v. rewrite Hin. split.
      * intros (p & -> & Hp)%list_elem_of_fmap. by exists p.
      * intros (p & Hp & <-). apply list_elem_of_fmap. by exists p.
    + intros config options w w1 Hbuild. by eapply version_stops.
Qed.

Lemma ensureAllSameVersion_examples :
  ensureAllSameVersion example_packages = Returned "1.0.0" ∧
  ∃ found,
    ensureAllSameVersion unequal_packages =
      Thrown ("Lockstep requires all packages have the same version. Found: "
              +:+ join ", " found) ∧
    NoDup found ∧
    (∀ v, v ∈ found ↔ ∃ p, p ∈ unequal_packages ∧ WorkspacePackage.version p = v) ∧
    ∀ config options w w1,
      buildWorkspace w = (Returned (workspace_of unequal_packages), w1) →
      version config options w =
        (Thrown ("Lockstep requires all packages have the same version. Found: "
                 +:+ join ", " found), w).
Proof.
  split.
  - apply (proj1 (ensureAllSameVersion_spec example_packages)); [done|].
    intros p Hp. unfold example_packages in Hp.
    repeat (apply elem_of_cons in Hp as [->|Hp]; [reflexivity|]).
    by apply elem_of_nil in Hp.
  - apply (proj2 (ensureAllSameVersion_spec unequal_packages)
             (package_of "packages/a" example_a)
             (package_of "packages/d" (PackageJson.mk "d" "1.1.0" None None None None))).
    + left.
    + right. left.
    + simpl. discriminate.
Defined.

(** Claim C10.  For the empty package list [ensureAllSameVersion] throws
    (the set of versions is empty, not a singleton), so [version] on a
    workspace without packages fails with the inconsistent-versions error
    and changes nothing. *)
Theorem version_empty_workspace (config : Config) (options : VersionOptions)
    (w : World) :
  packageDirs w = [] →
  ensureAllSameVersion [] =
    Thrown "Lockstep requires all packages have the same version. Found: " ∧
  set_of (map WorkspacePackage.version []) = [] ∧
  version config options w =
    (Thrown "Lockstep requires all packages have the same version. Found: ", w).
Proof.
  intros Hdirs. split_and!; [done..|].
  apply (version_stops _ _ _ w (workspace_of [])); [|done].
  unfold buildWorkspace, bind, findPackageDirs. by rewrite Hdirs.
Qed.

Lemma version_empty_workspace_example :
  packageDirs empty_world = [] ∧
  version (mkConfig "." npm) (mkVersionOptions (Fixed Patch) false false) empty_world =
    (Thrown "Lockstep requires all packages have the same version. Found: ",
     empty_world).
Proof.
  split; [reflexivity|].
  apply (version_empty_workspace (mkConfig "." npm)
           (mkVersionOptions (Fixed Patch) false false) empty_world).
  reflexivity.
Defined.


(* ===================================================================== *)
(** * The distribution tag                                                *)
(* ===================================================================== *)

Lemma length_append (s t : string) :
  String.length (s +:+ t) = (String.length s + String.length t)%nat.
Proof. induction s as [|c s IH]; [done|]. rewrite append_cons. simpl. by rewrite IH. Qed.

(** The commands the loop of [publish] runs. *)
Lemma publish_loop_executed (packages : list WorkspacePackage.t) (cmd : string)
    (order : list string) (w w' : World) (r : result unit) :
  for_each order (λ name,
    match find (λ x, bool_decide (WorkspacePackage.name x = name)) packages with
    | None => throw ("Package " +:+ name +:+ " not found in workspace")
    | Some p => execSync cmd (Some (WorkspacePackage.dir p))
    end) w = (r, w') →
  ∀ e, e ∈ executed w' → e ∈ executed w ∨ e.1 = cmd.
Proof.
  revert w. induction order as [|name order IH]; intros w; cbn [for_each].
  - intros [= _ <-]. by left.
  - unfold bind at 1.
    destruct (find _ packages) as [p|].
    + unfold execSync at 1. intros Hrest e He.
      destruct (IH _ Hrest e He) as [Hin|?]; [|by right]. simpl in Hin.
      apply elem_of_app in Hin as [?|Hin]; [by left|right].
      apply list_elem_of_singleton in Hin. by subst.
    + unfold throw. intros [= _ <-]. by left.
Qed.

(** Claim C7.  The final distribution tag equals the input tag if and
    only if the input tag is ["latest"]; for any other input tag and any
    branch [b] it is ["{b}-{tag}"], with no exemption for [main] or
    [master]; and this tag is the one every publish command of [publish]
    carries. *)
Theorem finalTag_spec (branch inputTag : string) :
  (finalTag branch inputTag = inputTag ↔ inputTag = "latest") ∧
  (inputTag ≠ "latest" → finalTag branch inputTag = branch +:+ "-" +:+ inputTag) ∧
  finalTag "main" "alpha" = "main-alpha" ∧
  finalTag "master" "alpha" = "master-alpha" ∧
  (∀ config options w w' e,
     tag options = inputTag → currentBranch w = branch →
     publish config options w = (Returned tt, w') →
     e ∈ executed w' →
     e ∈ executed w ∨ e.1 = "git push --follow-tags" ∨
     e.1 = publish_command (packageManager config)
             (default "public" (access options)) (finalTag branch inputTag)
             (dry options)).
Proof.
  split_and!; [| |done..|].
  - unfold finalTag. case_decide as Htag; [by subst|]. split; [|done].
    intros Heq. apply (f_equal String.length) in Heq.
    rewrite !length_append in Heq. simpl in Heq. lia.
  - intros Htag. unfold finalTag. by rewrite decide_False.
  - intros config options w w' e <- <-. unfold publish.
    case_decide; [done|]. unfold bind at 1.
    destruct (buildWorkspace w) as [[ws|?] w1] eqn:Hbuild; [|done].
    apply buildWorkspace_spec in Hbuild as (-> & _).
    unfold bind at 1. unfold lift at 1.
    destruct (topoSort _ _) as [order|?]; [|done].
    unfold bind at 1. unfold git_current_branch at 1.
    unfold bind at 1.
    destruct (for_each order _ w) as [[[]|?] w2] eqn:Hloop; [|done].
    pose proof (publish_loop_executed _ _ _ _ _ _ Hloop) as Hexec.
    destruct (gitPush options && negb (dry options)).
    + unfold execSync. intros [= <-]. simpl.
      intros [He|He%list_elem_of_singleton]%elem_of_app.
      * destruct (Hexec e He); auto.
      * subst. auto.
    + intros [= <-] He. destruct (Hexec e He); auto.
Qed.

Lemma finalTag_examples :
  "alpha" ≠ "latest" ∧
  finalTag "feature-x" "alpha" = "feature-x-alpha" ∧
  finalTag "feature-x" "latest" = "latest".
Proof.
  assert ("alpha" ≠ "latest") as Hne by discriminate.
  split_and!; [exact Hne| |].
  - apply (proj1 (proj2 (finalTag_spec "feature-x" "alpha")) Hne).
  - apply (proj1 (finalTag_spec "feature-x" "latest")). reflexivity.
Defined.

(* ===================================================================== *)
(** * Scenarios                                                           *)
(* ===================================================================== *)

(** The ranges of the test suite of [preserveOperator]. *)
Lemma preserveOperator_examples :
  preserveOperator "^1.2.3" "1.2.4" = "^1.2.4" ∧
  preserveOperator "~1.2.3" "1.2.4" = "~1.2.4" ∧
  preserveOperator ">=1.2.3" "1.2.4" = ">=1.2.4" ∧
  preserveOperator "=1.2.3" "1.2.4" = "=1.2.4" ∧
  preserveOperator "1.2.3" "1.2.4" = "1.2.4" ∧
  preserveOperator "*" "1.2.4" = "1.2.4" ∧
  preserveOperator ">1.2.3" "1.2.4" = "1.2.4".
Proof. vm_compute. done. Qed.

(** A minor bump of the example workspace: the three packages go to 1.1.0,
    the range of [a] on [b] becomes [^1.1.0], the ranges of [b] on [c]
    become [~1.1.0], the range on the external package stays, and the
    release is committed and tagged. *)
Lemma version_scenario :
  ∃ w',
    version (mkConfig "." npm) (mkVersionOptions (Fixed Minor) true false)
      example_world = (Returned tt, w') ∧
    files w' !! "packages/a/package.json" =
      Some (PackageJson.mk "a" "1.1.0"
              (Some [("b", JString "^1.1.0"); ("lodash", JString "^4.17.0")])
              None None None) ∧
    files w' !! "packages/b/package.json" =
      Some (PackageJson.mk "b" "1.1.0"
              (Some [("c", JString "~1.1.0")]) (Some [("c", JString "~1.1.0")])
              None None) ∧
    files w' !! "packages/c/package.json" =
      Some (PackageJson.mk "c" "1.1.0" None None None None) ∧
    executed w' =
      [("git add .", None);
       ("git commit -m " +:+ dquote +:+ "chore(release): v1.1.0 [skip ci]" +:+ dquote,
        None);
       ("git tag v1.1.0", None)].
Proof.
  exists (version (mkConfig "." npm) (mkVersionOptions (Fixed Minor) true false)
            example_world).2.
  vm_compute. done.
Qed.

(** Publishing the example workspace from branch [feature-x]: the packages
    are published dependencies first, under the tag [latest] as it is and
    under the tag [alpha] with the branch in front. *)
Lemma publish_scenario :
  (∃ w',
     publish (mkConfig "." npm) (mkPublishOptions None false "latest" false)
       example_world = (Returned tt, w') ∧
     executed w' =
       [("npm publish --access public --tag latest ", Some "packages/c");
        ("npm publish --access public --tag latest ", Some "packages/b");
        ("npm publish --access public --tag latest ", Some "packages/a")]) ∧
  (∃ w',
     publish (mkConfig "." pnpm) (mkPublishOptions None true "alpha" true)
       example_world = (Returned tt, w') ∧
     executed w' =
       [("pnpm publish --access public --tag feature-x-alpha --dry-run",
         Some "packages/c");
        ("pnpm publish --access public --tag feature-x-alpha --dry-run",
         Some "packages/b");
        ("pnpm publish --access public --tag feature-x-alpha --dry-run",
         Some "packages/a")]) ∧
  publish (mkConfig "." npm) (mkPublishOptions None false "" false) example_world =
    (Thrown "--tag parameter is required for publish command", example_world).
Proof.
  split_and!.
  - exists (publish (mkConfig "." npm) (mkPublishOptions None false "latest" false)
              example_world).2.
    vm_compute. done.
  - exists (publish (mkConfig "." pnpm) (mkPublishOptions None true "alpha" true)
              example_world).2.
    vm_compute. done.
  - reflexivity.
Qed.

(* ===================================================================== *)
(** * The world after [version]                                        *)
(* ===================================================================== *)

Lemma buildWorkspace_world (w w' : World) (r : result WorkspaceInfo.t) :
  buildWorkspace w = (r, w') → w' = w.
Proof.
  unfold buildWorkspace, bind, findPackageDirs.
  generalize (packageDirs w) as dirs. intros dirs.
  assert (∀ r' w1, read_packages dirs w = (r', w1) → w1 = w) as H.
  { induction dirs as [|dir dirs IH]; intros r' w1; cbn [read_packages].
    - by intros [= <- <-].
    - unfold bind at 1. unfold readJSON at 1.
      destruct (files w !! package_json_in dir) as [pkg|] eqn:Hpkg; [|by intros [= <- <-]].
      unfold bind. destruct (read_packages dirs w) as [[packages|msg] w2] eqn:Hrest;
        rewrite (IH _ _ eq_refl); by intros [= <- <-]. }
  destruct (read_packages dirs w) as [[packages|msg] w1] eqn:Hread;
    rewrite (H _ _ eq_refl); by intros [= <- <-].
Qed.

Lemma write_packages_world (internalNames : gset string) (next : string)
    (packages : list WorkspacePackage.t) (w : World) :
  for_each packages (λ p,
    writeJSON (WorkspacePackage.pkgPath p)
      (bump_manifest internalNames next (WorkspacePackage.data p))) w =
  (Returned tt,
   mkWorld (packageDirs w) (written_files internalNames next packages (files w))
     (lastTag w) (commitsSince w) (currentBranch w) (executed w)).
Proof.
  unfold written_files. revert w. induction packages as [|p packages IH]; intros w.
  - by destruct w.
  - cbn [for_each fold_left]. unfold bind at 1. unfold writeJSON at 1.
    by rewrite IH.
Qed.

(** The world [version] leaves when it returns. *)
Lemma version_world (config : Config) (options : VersionOptions) (w w' : World) :
  version config options w = (Returned tt, w') →
  ∃ ws kind current next,
    buildWorkspace w = (Returned ws, w) ∧
    (∀ k, type options = Fixed k → kind = k) ∧
    (type options = Auto → determineVersionType w = (Returned kind, w)) ∧
    ensureAllSameVersion (WorkspaceInfo.packages ws) = Returned current ∧
    semverBump current kind = Returned next ∧
    w' = mkWorld (packageDirs w)
           (root_bumped next (package_json_in (root config))
              (written_files (list_to_set (names (WorkspaceInfo.packages ws))) next
                 (WorkspaceInfo.packages ws) (files w)))
           (lastTag w) (commitsSince w) (currentBranch w)
           (executed w ++
              if noGitCommit options then []
              else release_commands (skipCi options) next).
Proof.
  assert (∃ kind,
    match type options with
    | Auto => determineVersionType
    | Fixed kind => ret kind
    end w = (Returned kind, w) ∧
    (∀ k, type options = Fixed k → kind = k) ∧
    (type options = Auto → determineVersionType w = (Returned kind, w)))
    as (kind & Hkind & Hfixed & Hauto).
  { destruct (type options) as [k|].
    - exists k. split_and!; [done| |done]. by intros ? [= ->].
    - destruct (determineVersionType_returns w) as [kind ?]. by exists kind. }
  unfold version. unfold bind at 1. rewrite Hkind.
  unfold bind at 1.
  destruct (buildWorkspace w) as [[ws|?] w1] eqn:Hbuild; [|done].
  pose proof (buildWorkspace_world _ _ _ Hbuild) as ->.
  unfold bind at 1. unfold lift at 1.
  destruct (ensureAllSameVersion (WorkspaceInfo.packages ws)) as [current|?] eqn:Hens;
    [|done].
  unfold bind at 1. unfold lift at 1.
  destruct (semverBump current kind) as [next|?] eqn:Hbump; [|done].
  unfold bind at 1. rewrite write_packages_world.
  intros Hrest. exists ws, kind, current, next. split_and!; [done..|].
  revert Hrest. unfold bind at 1. unfold bind at 1. unfold exists_file at 1.
  cbn [files]. unfold root_bumped.
  set (fs := written_files _ _ _ _).
  set (rootPkgPath := package_json_in (root config)).
  assert (∀ w3 w4,
    (if noGitCommit options then ret tt
     else execSync "git add ." None ;;ₘ
          execSync ("git commit -m " +:+ dquote +:+
            ("chore(release): v" +:+ next +:+ (if skipCi options then " [skip ci]" else ""))
            +:+ dquote) None ;;ₘ
          execSync ("git tag v" +:+ next) None) w3 = (Returned tt, w4) →
    w4 = mkWorld (packageDirs w3) (files w3) (lastTag w3) (commitsSince w3)
           (currentBranch w3)
           (executed w3 ++
              if noGitCommit options then []
              else release_commands (skipCi options) next)) as Hgit.
  { intros w3 w4. destruct (noGitCommit options).
    - intros [= <-]. rewrite app_nil_r. by destruct w3.
    - unfold bind, execSync, release_commands. simpl. intros [= <-].
      by rewrite <-!app_assoc. }
  destruct (fs !! rootPkgPath) as [rootPkg|] eqn:Hroot.
  - rewrite bool_decide_true by done. unfold bind at 1. unfold readJSON at 1.
    cbn [files]. rewrite Hroot. case_decide as Hversion.
    + unfold writeJSON at 1. intros Hrest. by apply Hgit in Hrest as ->.
    + intros Hrest. by apply Hgit in Hrest as ->.
  - rewrite bool_decide_false by (by intros [??]).
    intros Hrest. by apply Hgit in Hrest as ->.
Qed.

(** Property X2.  What makes [version] throw before its first write
    leaves the world as it was, no manifest written and no command run:
    when [buildWorkspace] throws, [version] throws the same error; so it
    does when [ensureAllSameVersion] throws; and when the common version
    does not match the semver pattern [version] throws, with the message
    [Not a semver version: <current>] when that version is not empty. *)
Theorem version_fails_clean (config : Config) (options : VersionOptions) (w : World) :
  (∀ msg w1, buildWorkspace w = (Thrown msg, w1) →
     version config options w = (Thrown msg, w)) ∧
  (∀ ws w1 msg,
     buildWorkspace w = (Returned ws, w1) →
     ensureAllSameVersion (WorkspaceInfo.packages ws) = Thrown msg →
     version config options w = (Thrown msg, w)) ∧
  (∀ ws w1 current,
     buildWorkspace w = (Returned ws, w1) →
     ensureAllSameVersion (WorkspaceInfo.packages ws) = Returned current →
     (∀ MA MI PA, ¬ semver_shape current MA MI PA) →
     ∃ msg,
       version config options w = (Thrown msg, w) ∧
       (current ≠ "" → msg = "Not a semver version: " +:+ current)).
Proof.
  destruct (actual_type options w) as (kind & Hkind & _).
  split_and!.
  - intros msg w1 Hbuild. pose proof (buildWorkspace_world _ _ _ Hbuild) as ->.
    unfold version. unfold bind at 1. rewrite Hkind.
    unfold bind at 1. by rewrite Hbuild.
  - intros ws w1 msg Hbuild Hens. by eapply version_stops.
  - intros ws w1 current Hbuild Hens Hshape.
    pose proof (buildWorkspace_world _ _ _ Hbuild) as ->.
    assert (semver_match current = None) as Hmatch.
    { destruct (semver_match current) as [[[MA MI] PA]|] eqn:Hm; [|done].
      apply semver_match_spec in Hm. by destruct (Hshape MA MI PA). }
    exists ("Not a semver version: " +:+ current). split; [|done].
    unfold version. unfold bind at 1. rewrite Hkind.
    unfold bind at 1. rewrite Hbuild.
    unfold bind at 1. unfold lift at 1. rewrite Hens.
    unfold bind at 1. unfold lift at 1. unfold semverBump. by rewrite Hmatch.
Qed.

Lemma written_files_lookup_ne (internalNames : gset string) (next : string)
    (packages : list WorkspacePackage.t) (fs : gmap string PackageJson.t)
    (path : string) :
  (∀ p, p ∈ packages → WorkspacePackage.pkgPath p ≠ path) →
  written_files internalNames next packages fs !! path = fs !! path.
Proof.
  unfold written_files. revert fs.
  induction packages as [|p packages IH]; intros fs Hne; [done|].
  cbn [fold_left]. rewrite IH by (intros; apply Hne; by right).
  apply lookup_insert_ne, Hne. left.
Qed.

Lemma read_packages_returned (dirs : list string) (w w' : World)
    (packages : list WorkspacePackage.t) :
  read_packages dirs w = (Returned packages, w') →
  Forall2 (read_as w) dirs packages.
Proof.
  revert packages w'. induction dirs as [|dir dirs IH]; intros packages w';
    cbn [read_packages].
  - intros [= <- <-]. constructor.
  - unfold bind at 1. unfold readJSON at 1.
    destruct (files w !! package_json_in dir) as [pkg|] eqn:Hpkg; [|done].
    unfold bind. destruct (read_packages dirs w) as [[ps|?] w2] eqn:Hrest; [|done].
    intros [= <- <-]. constructor; [by exists pkg|]. by eapply IH.
Qed.

Lemma read_packages_returns (dirs : list string) (w : World)
    (packages : list WorkspacePackage.t) :
  Forall2 (read_as w) dirs packages →
  read_packages dirs w = (Returned packages, w).
Proof.
  induction 1 as [|dir p dirs packages (pkg & Hpkg & ->) _ IH]; [done|].
  cbn [read_packages]. unfold bind at 1. unfold readJSON at 1. rewrite Hpkg.
  unfold bind. by rewrite IH.
Qed.

Lemma buildWorkspace_returned (w w' : World) (ws : WorkspaceInfo.t) :
  buildWorkspace w = (Returned ws, w') →
  Forall2 (read_as w) (packageDirs w) (WorkspaceInfo.packages ws).
Proof.
  unfold buildWorkspace, bind, findPackageDirs.
  destruct (read_packages (packageDirs w) w) as [[packages|?] w1] eqn:Hread; [|done].
  intros [= <- <-]. by eapply read_packages_returned.
Qed.

(** Property X3.  When [version] returns it has run, after the commands
    run before, [git add .], the commit [chore(release): v<next>] (with
    [ [skip ci]] behind the version under [skipCi]) and [git tag v<next>],
    in this order, and no command at all under [noGitCommit].  [next] is
    the common version bumped by the kind asked for, or under [auto] by
    the kind [determineVersionType] finds. *)
Theorem version_commands (config : Config) (options : VersionOptions) (w w' : World) :
  version config options w = (Returned tt, w') →
  ∃ ws kind current next,
    buildWorkspace w = (Returned ws, w) ∧
    (∀ k, type options = Fixed k → kind = k) ∧
    (type options = Auto → determineVersionType w = (Returned kind, w)) ∧
    ensureAllSameVersion (WorkspaceInfo.packages ws) = Returned current ∧
    semverBump current kind = Returned next ∧
    executed w' =
      executed w ++
      (if noGitCommit options then []
       else [("git add .", None);
             ("git commit -m " +:+ dquote +:+ "chore(release): v" +:+ next +:+
                (if skipCi options then " [skip ci]" else "") +:+ dquote, None);
             ("git tag v" +:+ next, None)]).
Proof.
  intros (ws & kind & current & next & ? & ? & ? & ? & ? & ->)%version_world.
  exists ws, kind, current, next. split_and!; try done. cbn [executed].
  destruct (noGitCommit options); [done|]. unfold release_commands.
  do 3 f_equal. f_equal. by rewrite !append_assoc.
Qed.

(** Property X4.  When the root manifest is not the manifest of a package
    and [version] returns: a root manifest that has a version gets the
    version [next] and keeps everything else, its dependency ranges on
    workspace packages included; a root manifest without a version is left
    alone and a missing one is not created; and every file that is neither
    the root manifest nor the manifest of a package directory is as
    before. *)
Theorem version_frame (config : Config) (options : VersionOptions) (w w' : World)
    (rootPkgPath : string) :
  rootPkgPath = package_json_in (root config) →
  version config options w = (Returned tt, w') →
  (∀ dir, dir ∈ packageDirs w → rootPkgPath ≠ package_json_in dir) →
  ∃ ws kind current next,
    buildWorkspace w = (Returned ws, w) ∧
    (∀ k, type options = Fixed k → kind = k) ∧
    (type options = Auto → determineVersionType w = (Returned kind, w)) ∧
    ensureAllSameVersion (WorkspaceInfo.packages ws) = Returned current ∧
    semverBump current kind = Returned next ∧
    files w' !! rootPkgPath =
      (λ rootPkg, if decide (PackageJson.version rootPkg = "") then rootPkg
                  else PackageJson.mk (PackageJson.name rootPkg) next
                         (PackageJson.dependencies rootPkg)
                         (PackageJson.devDependencies rootPkg)
                         (PackageJson.peerDependencies rootPkg)
                         (PackageJson.optionalDependencies rootPkg))
      <$> files w !! rootPkgPath ∧
    ∀ path,
      (∀ dir, dir ∈ packageDirs w → path ≠ package_json_in dir) →
      path ≠ rootPkgPath →
      files w' !! path = files w !! path.
Proof.
  intros -> Hversion Hnoroot.
  destruct (version_world _ _ _ _ Hversion) as (ws & kind & current & next &
    Hbuild & Hfixed & Hauto & Hens & Hbump & ->).
  exists ws, kind, current, next. split_and!; [done..| |].
  all: pose proof (buildWorkspace_returned _ _ _ Hbuild) as Hread.
  all: assert (∀ path, (∀ dir, dir ∈ packageDirs w → path ≠ package_json_in dir) →
    written_files (list_to_set (names (WorkspaceInfo.packages ws))) next
      (WorkspaceInfo.packages ws) (files w) !! path = files w !! path) as Hother.
  1,3: intros path Hne; apply written_files_lookup_ne; intros p Hp;
    apply list_elem_of_lookup in Hp as [i Hp];
    destruct (Forall2_lookup_r _ _ _ _ _ Hread Hp) as (dir & Hdir & pkg & _ & ->);
    intros Heq; (eapply Hne; [by eapply list_elem_of_lookup_2|done]).
  - cbn [files]. unfold root_bumped. rewrite (Hother (package_json_in (root config))) by done.
    destruct (files w !! package_json_in (root config)) as [rootPkg|] eqn:Hroot;
      [|by rewrite Hother].
    cbn [fmap option_fmap option_map]. case_decide as Hv.
    + rewrite lookup_insert_eq. rewrite decide_False by done. by destruct rootPkg.
    + rewrite Hother by done.
      rewrite Hroot. by rewrite decide_True.
  - intros path Hne Hroot. cbn [files]. unfold root_bumped.
    destruct (written_files _ _ _ _ !! _) as [rootPkg|];
      [case_decide|]; rewrite ?lookup_insert_ne by done; by apply Hother.
Qed.

Lemma keys_bump_ranges (internalNames : gset string) (next : string)
    (entries deps : Deps) :
  (∀ entry, entry ∈ entries → entry.1 ∈ keys deps) →
  keys (fold_left (bump_range internalNames next) entries deps) = keys deps.
Proof.
  revert deps. induction entries as [|[dep range] entries IH]; intros deps Hin; [done|].
  cbn [fold_left].
  assert (keys (bump_range internalNames next deps (dep, range)) = keys deps) as Hstep.
  { unfold bump_range. case_decide; [done|].
    destruct range as [s| | |]; try done. apply obj_set_keys, (Hin (dep, JString s)). left. }
  rewrite IH; [done|]. intros entry Hentry. rewrite Hstep. apply Hin. by right.
Qed.

Lemma field_keys_bump_manifest (internalNames : gset string) (next dir : string)
    (pkg : PackageJson.t) (field : DependencyField) :
  field_keys (package_of dir (bump_manifest internalNames next pkg)) field =
  field_keys (package_of dir pkg) field.
Proof.
  unfold field_keys, package_of. cbn [WorkspacePackage.data].
  rewrite bump_manifest_get. destruct (get_deps pkg field) as [deps|]; [|done].
  cbn [fmap option_fmap option_map default]. apply keys_bump_ranges.
  intros entry Hentry. unfold keys. apply list_elem_of_fmap. by exists entry.
Qed.

Lemma fold_left_names {A} (f : A → string → A) (pkgs : list WorkspacePackage.t) (a : A) :
  fold_left (λ m p, f m (WorkspacePackage.name p)) pkgs a = fold_left f (names pkgs) a.
Proof. revert a. induction pkgs as [|p pkgs IH]; intros a; [done|]. apply IH. Qed.

Lemma topoSort_names (pkgs pkgs' : list WorkspacePackage.t) (graph : Graph) :
  names pkgs = names pkgs' → topoSort pkgs graph = topoSort pkgs' graph.
Proof.
  intros Hnames.
  assert (length pkgs = length pkgs') as Hlen.
  { rewrite <-(length_map WorkspacePackage.name pkgs),
      <-(length_map WorkspacePackage.name pkgs'). by f_equal. }
  assert (zero_degrees pkgs = zero_degrees pkgs') as Hzero.
  { unfold zero_degrees.
    rewrite (fold_left_names (λ m n, <[n := Num 0]> m) pkgs),
      (fold_left_names (λ m n, <[n := Num 0]> m) pkgs'). by rewrite Hnames. }
  unfold topoSort, emitted, in_degrees. by rewrite Hzero, Hnames, Hlen.
Qed.

Lemma add_package_edges_ext (byName byName' : gmap string WorkspacePackage.t)
    (p p' : WorkspacePackage.t) (graph : Graph) :
  (∀ k, is_Some (byName !! k) ↔ is_Some (byName' !! k)) →
  same_edges p p' →
  add_package_edges byName graph p = add_package_edges byName' graph p'.
Proof.
  intros Hhas [Hname Hkeys]. unfold add_package_edges. revert graph.
  induction DEP_FIELDS as [|field fields IH]; intros graph; [done|].
  cbn [fold_left].
  assert (add_field_edges byName p graph field =
          add_field_edges byName' p' graph field) as ->; [|apply IH].
  unfold add_field_edges.
  change (keys (default [] (get_deps (WorkspacePackage.data p) field)))
    with (field_keys p field).
  change (keys (default [] (get_deps (WorkspacePackage.data p') field)))
    with (field_keys p' field).
  rewrite Hkeys, Hname. generalize (field_keys p' field) as ks. clear IH.
  intros ks. revert graph. induction ks as [|k ks IH]; intros graph; [done|].
  cbn [fold_left].
  destruct (decide (is_Some (byName !! k))) as [H|H],
    (decide (is_Some (byName' !! k))) as [H'|H']; try apply IH.
  - destruct H'. by apply Hhas.
  - destruct H. by apply Hhas.
Qed.

Lemma same_edges_names (pkgs pkgs' : list WorkspacePackage.t) :
  Forall2 same_edges pkgs pkgs' → names pkgs = names pkgs'.
Proof.
  unfold names. induction 1 as [|p p' ps ps' [Hn _] _ IH]; [done|].
  cbn [map]. by rewrite Hn, IH.
Qed.

Lemma build_graph_ext (pkgs pkgs' : list WorkspacePackage.t) :
  Forall2 same_edges pkgs pkgs' → build_graph pkgs = build_graph pkgs'.
Proof.
  intros Hsame. pose proof (same_edges_names _ _ Hsame) as Hnames.
  assert (∀ k, is_Some (byName_of pkgs !! k) ↔ is_Some (byName_of pkgs' !! k)) as Hhas.
  { intros k. by rewrite !byName_of_is_Some, Hnames. }
  unfold build_graph.
  assert (empty_graph pkgs = empty_graph pkgs') as ->.
  { unfold empty_graph.
    rewrite (fold_left_names (λ g n, JsMap.set n [] g) pkgs),
      (fold_left_names (λ g n, JsMap.set n [] g) pkgs'). by rewrite Hnames. }
  revert Hhas. generalize (byName_of pkgs) (byName_of pkgs') (empty_graph pkgs').
  intros byName byName' graph Hhas. clear Hnames. revert graph.
  induction Hsame as [|p p' ps ps' Hp _ IH]; intros graph; [done|].
  cbn [fold_left]. rewrite (add_package_edges_ext byName byName' p p') by done.
  apply IH.
Qed.

Lemma released_files (internalNames : gset string) (next rootPkgPath : string)
    (dirs : list string) (packages : list WorkspacePackage.t) (w : World)
    (p : WorkspacePackage.t) :
  Forall2 (read_as w) dirs packages → p ∈ packages →
  root_bumped next rootPkgPath (written_files internalNames next packages (files w))
    !! WorkspacePackage.pkgPath p =
  Some (bump_manifest internalNames next (WorkspacePackage.data p)).
Proof.
  intros Hread Hp.
  assert (written_files internalNames next packages (files w)
            !! WorkspacePackage.pkgPath p =
          Some (bump_manifest internalNames next (WorkspacePackage.data p))) as Hwritten.
  { destruct (write_packages_files (bump_manifest internalNames next) packages w)
      as (w1 & Hw1 & _ & _ & Hnew).
    rewrite write_packages_world in Hw1. injection Hw1 as <-. cbn [files] in Hnew.
    apply Hnew; [done|]. intros p' Hp' Hpath.
    apply list_elem_of_lookup in Hp as [i Hi], Hp' as [j Hj].
    destruct (Forall2_lookup_r _ _ _ _ _ Hread Hi) as (dir & _ & pkg & Hpkg & ->).
    destruct (Forall2_lookup_r _ _ _ _ _ Hread Hj) as (dir' & _ & pkg' & Hpkg' & ->).
    cbn [package_of WorkspacePackage.pkgPath WorkspacePackage.data] in *. congruence. }
  unfold root_bumped.
  destruct (written_files _ _ _ _ !! rootPkgPath) as [rootPkg|] eqn:Hroot; [|done].
  case_decide; [|done].
  destruct (decide (rootPkgPath = WorkspacePackage.pkgPath p)) as [->|Hne].
  - rewrite lookup_insert_eq. rewrite Hroot in Hwritten. injection Hwritten as ->.
    f_equal. rewrite <-(proj1 (bump_manifest_version internalNames next
      (WorkspacePackage.data p))) at 1. apply set_version_same.
  - by rewrite lookup_insert_ne.
Qed.

(** Property X5.  After [version] has returned the workspace reads back in
    lockstep: [buildWorkspace] succeeds on the new world, every package
    carries [next], so that [ensureAllSameVersion] returns it, the names and
    the dependency graph are those from before the release, and [topoSort]
    gives what it gave before. *)
Theorem version_keeps_workspace (config : Config) (options : VersionOptions)
    (w w' : World) :
  version config options w = (Returned tt, w') →
  ∃ ws ws' kind current next,
    buildWorkspace w = (Returned ws, w) ∧
    (∀ k, type options = Fixed k → kind = k) ∧
    (type options = Auto → determineVersionType w = (Returned kind, w)) ∧
    ensureAllSameVersion (WorkspaceInfo.packages ws) = Returned current ∧
    semverBump current kind = Returned next ∧
    buildWorkspace w' = (Returned ws', w') ∧
    ensureAllSameVersion (WorkspaceInfo.packages ws') = Returned next ∧
    names (WorkspaceInfo.packages ws') = names (WorkspaceInfo.packages ws) ∧
    WorkspaceInfo.graph ws' = WorkspaceInfo.graph ws ∧
    topoSort (WorkspaceInfo.packages ws') (WorkspaceInfo.graph ws') =
      topoSort (WorkspaceInfo.packages ws) (WorkspaceInfo.graph ws).
Proof.
  intros Hversion.
  destruct (version_world _ _ _ _ Hversion) as (ws & kind & current & next &
    Hbuild & Hfixed & Hauto & Hens & Hbump & Hw').
  assert (packageDirs w' = packageDirs w) as Hdirs by (by subst w').
  assert (∀ p, p ∈ WorkspaceInfo.packages ws →
    files w' !! WorkspacePackage.pkgPath p =
    Some (bump_manifest (list_to_set (names (WorkspaceInfo.packages ws))) next
            (WorkspacePackage.data p))) as Hfiles.
  { intros p Hp. subst w'. cbn [files].
    apply (released_files _ _ _ (packageDirs w)); [|done].
    by eapply buildWorkspace_returned. }
  clear Hw'.
  pose proof (buildWorkspace_returned _ _ _ Hbuild) as Hread.
  destruct (buildWorkspace_spec _ _ _ Hbuild) as (_ & Hws & _).
  set (packages := WorkspaceInfo.packages ws) in *.
  set (internalNames := list_to_set (names packages) : gset string) in *.
  set (bump := λ p, package_of (WorkspacePackage.dir p)
                      (bump_manifest internalNames next (WorkspacePackage.data p))).
  assert (Forall2 (read_as w') (packageDirs w) (bump <$> packages)) as Hread'.
  { assert (∀ p, p ∈ packages → files w' !! WorkspacePackage.pkgPath p =
      Some (bump_manifest internalNames next (WorkspacePackage.data p))) as Hall
      by done.
    clearbody packages internalNames. clear -Hread Hall.
    induction Hread as [|dir p dirs ps (pkg & Hpkg & ->) _ IH]; [constructor|].
    csimpl. constructor.
    - exists (bump_manifest internalNames next pkg). split; [|done].
      apply (Hall (package_of dir pkg)). left.
    - apply IH. intros p Hp. apply Hall. by right. }
  assert (Forall2 same_edges (bump <$> packages) packages) as Hsame.
  { apply Forall2_fmap_l, Forall_Forall2_diag, Forall_forall. intros p Hp.
    apply list_elem_of_lookup in Hp as [i Hp].
    destruct (Forall2_lookup_r _ _ _ _ _ Hread Hp) as (dir & _ & pkg & _ & ->).
    unfold bump. cbn [package_of WorkspacePackage.dir WorkspacePackage.data]. split.
    - cbn [package_of WorkspacePackage.name]. apply bump_manifest_version.
    - intros field. apply field_keys_bump_manifest. }
  pose proof (same_edges_names _ _ Hsame) as Hnames.
  exists ws, (workspace_of (bump <$> packages)), kind, current, next.
  cbn [workspace_of WorkspaceInfo.packages WorkspaceInfo.graph].
  split_and!; [exact Hbuild|exact Hfixed|exact Hauto|exact Hens|exact Hbump| | |exact Hnames| |].
  - unfold buildWorkspace, bind, findPackageDirs. rewrite Hdirs.
    by rewrite (read_packages_returns _ _ _ Hread').
  - unfold ensureAllSameVersion. erewrite set_of_single; [done| |].
    + unfold ensureAllSameVersion in Hens. fold packages in Hens.
      destruct packages; [done|]. done.
    + intros x (p & -> & (p0 & -> & _)%list_elem_of_fmap)%list_elem_of_fmap.
      unfold bump. cbn [package_of WorkspacePackage.version].
      apply bump_manifest_version.
  - rewrite Hws. cbn [workspace_of WorkspaceInfo.graph]. by apply build_graph_ext.
  - rewrite Hws. cbn [workspace_of WorkspaceInfo.graph WorkspaceInfo.packages].
    fold packages. rewrite (build_graph_ext _ _ Hsame). by apply topoSort_names.
Qed.

(* ===================================================================== *)
(** * The commands of [publish]                                        *)
(* ===================================================================== *)

Lemma relax_all_queue (vs : list string) (inDeg : gmap string jsnum) (q : list string) :
  ∀ x, x ∈ (fold_left relax vs (inDeg, q)).2 → x ∈ q ∨ x ∈ vs.
Proof.
  revert inDeg q. induction vs as [|v vs IH]; intros inDeg q x; [by left|].
  cbn [fold_left]. unfold relax at 2. intros [Hx|Hx]%IH.
  - destruct (is_zero _); [|by left].
    apply elem_of_app in Hx as [?|Hx]; [by left|].
    apply list_elem_of_singleton in Hx as ->. right. left.
  - right. by right.
Qed.

Lemma kahn_loop_elem (fuel : nat) (G : Graph) (inDeg : gmap string jsnum)
    (q out : list string) (P : string → Prop) :
  (∀ n v, v ∈ dependents G n → P v) →
  (∀ x, x ∈ q → P x) → (∀ x, x ∈ out → P x) →
  ∀ x, x ∈ kahn_loop fuel G inDeg q out → P x.
Proof.
  intros HG. revert inDeg q out.
  induction fuel as [|fuel IH]; intros inDeg q out Hq Hout; [by destruct q|].
  destruct q as [|n q]; [done|]. cbn [kahn_loop].
  pose proof (relax_all_queue (dependents G n) inDeg q) as Hrelax.
  destruct (fold_left relax (dependents G n) (inDeg, q)) as [inDeg' q'].
  apply IH.
  - intros x [?|?]%Hrelax; [apply Hq; by right|by eapply HG].
  - intros x [?|Hx]%elem_of_app; [by apply Hout|].
    apply list_elem_of_singleton in Hx as ->. apply Hq. left.
Qed.

Lemma emitted_names (pkgs : list WorkspacePackage.t) (x : string) :
  x ∈ emitted pkgs (build_graph pkgs) → x ∈ names pkgs.
Proof.
  unfold emitted. apply (kahn_loop_elem _ _ _ _ _ (λ x, x ∈ names pkgs)).
  - intros n v. apply build_graph_targets.
  - by intros y [_ ?]%list_elem_of_filter.
  - by intros y ?%elem_of_nil.
Qed.

Lemma find_name_Some (packages : list WorkspacePackage.t) (name : string) :
  name ∈ names packages →
  ∃ p, find (λ x, bool_decide (WorkspacePackage.name x = name)) packages = Some p ∧
       p ∈ packages ∧ WorkspacePackage.name p = name.
Proof.
  unfold names. induction packages as [|p packages IH]; [by intros ?%elem_of_nil|].
  cbn [map find]. intros Hin. case_bool_decide as Hname.
  - exists p. split_and!; [done|left|done].
  - apply elem_of_cons in Hin as [?|Hin]; [done|].
    destruct (IH Hin) as (p' & ? & ? & ?). exists p'. split_and!; [done|by right|done].
Qed.

Lemma published_cons (cmd : string) (packages : list WorkspacePackage.t)
    (name : string) (order : list string) :
  published cmd packages (name :: order) =
  match find (λ x, bool_decide (WorkspacePackage.name x = name)) packages with
  | Some p => (cmd, Some (WorkspacePackage.dir p)) :: published cmd packages order
  | None => published cmd packages order
  end.
Proof. unfold published. csimpl. by destruct (find _ _). Qed.

Lemma publish_loop_world (packages : list WorkspacePackage.t) (cmd : string)
    (order : list string) (w : World) :
  (∀ name, name ∈ order → name ∈ names packages) →
  for_each order (λ name,
    match find (λ x, bool_decide (WorkspacePackage.name x = name)) packages with
    | None => throw ("Package " +:+ name +:+ " not found in workspace")
    | Some p => execSync cmd (Some (WorkspacePackage.dir p))
    end) w =
  (Returned tt,
   mkWorld (packageDirs w) (files w) (lastTag w) (commitsSince w) (currentBranch w)
     (executed w ++ published cmd packages order)).
Proof.
  revert w. induction order as [|name order IH]; intros w Hin; cbn [for_each].
  - unfold ret. change (published cmd packages []) with (@nil (string * option string)).
    rewrite app_nil_r. by destruct w.
  - unfold bind at 1. destruct (find_name_Some packages name) as (p & Hp & _);
      [apply Hin; left|].
    rewrite published_cons, Hp. unfold execSync at 1.
    rewrite IH by (intros; apply Hin; by right). cbn [packageDirs files lastTag
      commitsSince currentBranch executed fmap option_fmap option_map].
    by rewrite <-app_assoc.
Qed.

Lemma published_packages (cmd : string) (packages : list WorkspacePackage.t)
    (order : list string) :
  (∀ name, name ∈ order → name ∈ names packages) →
  ∃ ps,
    names ps = order ∧
    (∀ p, p ∈ ps →
       p ∈ packages ∧
       find (λ x, bool_decide (WorkspacePackage.name x = WorkspacePackage.name p))
         packages = Some p) ∧
    published cmd packages order = (λ p, (cmd, Some (WorkspacePackage.dir p))) <$> ps.
Proof.
  induction order as [|name order IH]; intros Hin.
  - exists []. split_and!; [done| |done]. by intros p ?%elem_of_nil.
  - destruct IH as (ps & Hnames & Hfirst & Hps); [intros; apply Hin; by right|].
    destruct (find_name_Some packages name) as (p & Hp & Hmem & Hname);
      [apply Hin; left|].
    exists (p :: ps). split_and!.
    + unfold names in *. cbn [map]. by rewrite Hname, Hnames.
    + intros p' [->|?]%elem_of_cons; [|by apply Hfirst]. by rewrite Hname.
    + rewrite published_cons, Hp, Hps. done.
Qed.

Lemma publish_world (config : Config) (options : PublishOptions) (w : World) :
  publish config options w =
  if decide (tag options = "")
  then (Thrown "--tag parameter is required for publish command", w)
  else
    match buildWorkspace w with
    | (Thrown msg, _) => (Thrown msg, w)
    | (Returned ws, _) =>
        match topoSort (WorkspaceInfo.packages ws) (WorkspaceInfo.graph ws) with
        | Thrown msg => (Thrown msg, w)
        | Returned order =>
            (Returned tt,
             mkWorld (packageDirs w) (files w) (lastTag w) (commitsSince w)
               (currentBranch w)
               (executed w ++
                published
                  (publish_command (packageManager config)
                     (default "public" (access options))
                     (finalTag (currentBranch w) (tag options)) (dry options))
                  (WorkspaceInfo.packages ws) order ++
                if gitPush options && negb (dry options)
                then [("git push --follow-tags", None)] else []))
        end
    end.
Proof.
  unfold publish. case_decide; [done|].
  unfold bind at 1.
  destruct (buildWorkspace w) as [[ws|msg] w1] eqn:Hbuild;
    pose proof (buildWorkspace_world _ _ _ Hbuild) as ->; [|done].
  destruct (buildWorkspace_spec _ _ _ Hbuild) as (_ & Hws & _).
  unfold bind at 1. unfold lift at 1.
  destruct (topoSort _ _) as [order|msg] eqn:Htopo; [|done].
  unfold bind at 1. unfold git_current_branch at 1. unfold bind at 1.
  rewrite publish_loop_world.
  - cbn [currentBranch]. destruct (gitPush options && negb (dry options)).
    + unfold execSync. cbn [packageDirs files lastTag commitsSince currentBranch
        executed]. by rewrite <-app_assoc.
    + unfold ret. by rewrite app_nil_r.
  - intros name Hname. apply emitted_names. rewrite Hws in Htopo.
    cbn [workspace_of WorkspaceInfo.packages WorkspaceInfo.graph] in Htopo.
    unfold topoSort in Htopo. case_decide; [done|]. by injection Htopo as <-.
Qed.

(** Property X6.  What makes [publish] throw before its first command
    leaves the world as it was: without a tag it throws
    [--tag parameter is required for publish command]; when
    [buildWorkspace] throws it throws the same error; and so it does when
    [topoSort] throws.  The error [Package ... not found in workspace] is
    never raised: every name [topoSort] returns on the workspace that
    [buildWorkspace] built is the name of one of its packages. *)
Theorem publish_fails_clean (config : Config) (options : PublishOptions) (w : World) :
  (tag options = "" →
   publish config options w =
     (Thrown "--tag parameter is required for publish command", w)) ∧
  (∀ msg w1,
     tag options ≠ "" → buildWorkspace w = (Thrown msg, w1) →
     publish config options w = (Thrown msg, w)) ∧
  (∀ ws w1 msg,
     tag options ≠ "" → buildWorkspace w = (Returned ws, w1) →
     topoSort (WorkspaceInfo.packages ws) (WorkspaceInfo.graph ws) = Thrown msg →
     publish config options w = (Thrown msg, w)) ∧
  (∀ ws w1 order name,
     buildWorkspace w = (Returned ws, w1) →
     topoSort (WorkspaceInfo.packages ws) (WorkspaceInfo.graph ws) = Returned order →
     name ∈ order →
     ∃ p, find (λ x, bool_decide (WorkspacePackage.name x = name))
            (WorkspaceInfo.packages ws) = Some p ∧
          p ∈ WorkspaceInfo.packages ws ∧ WorkspacePackage.name p = name).
Proof.
  split_and!.
  - intros Htag. by rewrite publish_world, decide_True.
  - intros msg w1 Htag Hbuild. by rewrite publish_world, decide_False, Hbuild.
  - intros ws w1 msg Htag Hbuild Htopo.
    by rewrite publish_world, decide_False, Hbuild, Htopo.
  - intros ws w1 order name Hbuild Htopo Hname.
    destruct (buildWorkspace_spec _ _ _ Hbuild) as (_ & Hws & _).
    apply find_name_Some. apply emitted_names. rewrite Hws in Htopo.
    cbn [workspace_of WorkspaceInfo.packages WorkspaceInfo.graph] in Htopo.
    unfold topoSort in Htopo. case_decide; [done|]. by injection Htopo as <-.
Qed.

(** Property X7.  When [publish] returns it has run one publish command
    for every name of the order [topoSort] returns, in that order, each in
    the directory of the first package of that name, and the same command
    for all: the one of the package manager, with the access (public by
    default) and the final tag, and [--dry-run] in a dry run.  After them
    comes [git push --follow-tags] when [gitPush] is set and [dry] is not.
    No file is written. *)
Theorem publish_commands (config : Config) (options : PublishOptions) (w w' : World) :
  publish config options w = (Returned tt, w') →
  ∃ ws order ps,
    buildWorkspace w = (Returned ws, w) ∧
    topoSort (WorkspaceInfo.packages ws) (WorkspaceInfo.graph ws) = Returned order ∧
    names ps = order ∧
    (∀ p, p ∈ ps →
       p ∈ WorkspaceInfo.packages ws ∧
       find (λ x, bool_decide (WorkspacePackage.name x = WorkspacePackage.name p))
         (WorkspaceInfo.packages ws) = Some p) ∧
    executed w' =
      executed w ++
      ((λ p, (publish_command (packageManager config)
                (default "public" (access options))
                (finalTag (currentBranch w) (tag options)) (dry options),
              Some (WorkspacePackage.dir p))) <$> ps) ++
      (if gitPush options && negb (dry options)
       then [("git push --follow-tags", None)] else []) ∧
    files w' = files w ∧ packageDirs w' = packageDirs w ∧ lastTag w' = lastTag w ∧
    commitsSince w' = commitsSince w ∧ currentBranch w' = currentBranch w.
Proof.
  rewrite publish_world. case_decide as Htag; [done|].
  destruct (buildWorkspace w) as [[ws|msg'] w1] eqn:Hbuild;
    pose proof (buildWorkspace_world _ _ _ Hbuild) as ->; [|done].
  destruct (buildWorkspace_spec _ _ _ Hbuild) as (_ & Hws & _).
  destruct (topoSort _ _) as [order|msg'] eqn:Htopo; [|done].
  intros [= <-].
  destruct (published_packages
    (publish_command (packageManager config) (default "public" (access options))
       (finalTag (currentBranch w) (tag options)) (dry options))
    (WorkspaceInfo.packages ws) order) as (ps & Hnames & Hfirst & Hps).
  { intros name Hname. apply emitted_names. rewrite Hws in Htopo.
    cbn [workspace_of WorkspaceInfo.packages WorkspaceInfo.graph] in Htopo.
    unfold topoSort in Htopo. case_decide; [done|]. by injection Htopo as <-. }
  exists ws, order, ps. cbn [executed files packageDirs lastTag commitsSince
    currentBranch]. rewrite Hps. done.
Qed.

(** Property X8.  In a workspace with distinct names, [publish] publishes
    every package exactly once, and each package after every workspace
    package it depends on. *)
Theorem publish_dependencies_first (config : Config) (options : PublishOptions)
    (w w' : World) (ws : WorkspaceInfo.t) :
  publish config options w = (Returned tt, w') →
  buildWorkspace w = (Returned ws, w) →
  NoDup (names (WorkspaceInfo.packages ws)) →
  ∃ ps,
    ps ≡ₚ WorkspaceInfo.packages ws ∧
    executed w' =
      executed w ++
      ((λ p, (publish_command (packageManager config)
                (default "public" (access options))
                (finalTag (currentBranch w) (tag options)) (dry options),
              Some (WorkspacePackage.dir p))) <$> ps) ++
      (if gitPush options && negb (dry options)
       then [("git push --follow-tags", None)] else []) ∧
    ∀ i j p d,
      ps !! i = Some p → ps !! j = Some d →
      depends_on (WorkspaceInfo.packages ws)
        (WorkspacePackage.name p) (WorkspacePackage.name d) →
      (j < i)%nat.
Proof.
  rewrite publish_world. intros Hpublish Hbuild Hnd.
  case_decide as Htag; [done|]. rewrite Hbuild in Hpublish.
  destruct (buildWorkspace_spec _ _ _ Hbuild) as (_ & Hws & _).
  rewrite Hws in Hpublish.
  cbn [workspace_of WorkspaceInfo.packages WorkspaceInfo.graph] in Hpublish.
  set (packages := WorkspaceInfo.packages ws) in *.
  destruct (topoSort_cases packages Hnd) as [(order & Hout & Hndout & Hperm & Hfwd)|[Hthrown _]];
    [|by rewrite Hthrown in Hpublish].
  rewrite Hout in Hpublish. injection Hpublish as <-.
  destruct (published_packages
    (publish_command (packageManager config) (default "public" (access options))
       (finalTag (currentBranch w) (tag options)) (dry options))
    packages order) as (ps & Hnames & Hfirst & Hps).
  { intros name Hname. by rewrite <-Hperm. }
  cbn [executed]. rewrite Hps.
  exists ps. split_and!; [|done|].
  - apply NoDup_Permutation.
    + apply (NoDup_fmap_1 WorkspacePackage.name). change (NoDup (names ps)).
      by rewrite Hnames.
    + by apply (NoDup_fmap_1 WorkspacePackage.name).
    + intros p. split; [by intros [? _]%Hfirst|]. intros Hp.
      assert (WorkspacePackage.name p ∈ names ps) as (p' & Heq & Hp')%list_elem_of_fmap.
      { rewrite Hnames, Hperm. apply list_elem_of_fmap. by exists p. }
      destruct (Hfirst _ Hp') as [Hmem _].
      assert (p = p') as ->; [|done].
      apply list_elem_of_lookup in Hp as [i Hi], Hmem as [j Hj].
      assert (i = j) as ->; [|congruence].
      apply (NoDup_lookup _ _ _ (WorkspacePackage.name p) Hnd);
        unfold names; rewrite list_lookup_fmap; [by rewrite Hi|].
      rewrite Hj. cbn. by rewrite Heq.
  - intros i j p d Hi Hj Hdep. apply build_graph_edge in Hdep.
    apply (Hfwd _ _ Hdep); rewrite <-Hnames; unfold names;
      rewrite list_lookup_fmap; [by rewrite Hj|by rewrite Hi].
Qed.

(** Property X9.  [publish] and cycles, with a tag, a workspace that
    reads and distinct names: when some package depends on itself through
    a chain of internal dependencies, [publish] throws the cycle error and
    has run no command; so whenever [publish] returns, no package does. *)
Theorem publish_refuses_cycles (config : Config) (options : PublishOptions)
    (w : World) (ws : WorkspaceInfo.t) :
  tag options ≠ "" →
  buildWorkspace w = (Returned ws, w) →
  NoDup (names (WorkspaceInfo.packages ws)) →
  (has_cycle (WorkspaceInfo.packages ws) →
   publish config options w =
     (Thrown "Cycle detected in local dependency graph.", w)) ∧
  (∀ w', publish config options w = (Returned tt, w') →
         acyclic (WorkspaceInfo.packages ws)).
Proof.
  intros Htag Hbuild Hnd.
  destruct (buildWorkspace_spec _ _ _ Hbuild) as (_ & Hws & _).
  rewrite publish_world, decide_False, Hbuild by done.
  rewrite Hws. cbn [workspace_of WorkspaceInfo.packages WorkspaceInfo.graph].
  set (packages := WorkspaceInfo.packages ws) in *.
  destruct (topoSort_cases packages Hnd)
    as [(out & Hout & Hndout & Hperm & Hfwd)|[Hthrown Hcycle]].
  - rewrite Hout.
    assert (acyclic packages) as Hacyclic by (by eapply edges_forward_acyclic).
    split; [|done]. intros [n Hn]. by destruct (Hacyclic n).
  - rewrite Hthrown. split; [done|]. by intros w' [=].
Qed.

(* ===================================================================== *)
(** * Reading the workspace                                            *)
(* ===================================================================== *)

(** Property X10.  [buildWorkspace] never changes the world, whether it
    returns or throws.  When it returns, the packages are those of the
    directories found, in the order found, each with its directory, the
    path of its manifest and the name, version and data of the manifest
    read, and the lookup table and the graph are built from them.  It
    returns whenever the manifest of every directory found reads. *)
Theorem buildWorkspace_outcome (w : World) :
  (buildWorkspace w).2 = w ∧
  (∀ ws w',
     buildWorkspace w = (Returned ws, w') →
     ws = workspace_of (WorkspaceInfo.packages ws) ∧
     Forall2 (λ dir p, ∃ pkg, files w !! (dir +:+ "/package.json") = Some pkg ∧
                p = WorkspacePackage.mk dir (dir +:+ "/package.json")
                      (PackageJson.name pkg) (PackageJson.version pkg) pkg)
       (packageDirs w) (WorkspaceInfo.packages ws)) ∧
  (∀ packages,
     Forall2 (λ dir p, ∃ pkg, files w !! (dir +:+ "/package.json") = Some pkg ∧
                p = WorkspacePackage.mk dir (dir +:+ "/package.json")
                      (PackageJson.name pkg) (PackageJson.version pkg) pkg)
       (packageDirs w) packages →
     buildWorkspace w = (Returned (workspace_of packages), w)).
Proof.
  split_and!.
  - destruct (buildWorkspace w) as [r w'] eqn:Hbuild.
    by apply buildWorkspace_world in Hbuild.
  - intros ws w' Hbuild. destruct (buildWorkspace_spec _ _ _ Hbuild) as (-> & Hws & _).
    split; [done|]. by apply buildWorkspace_returned in Hbuild.
  - intros packages Hread. unfold buildWorkspace, bind, findPackageDirs.
    by rewrite (read_packages_returns _ _ _ Hread).
Qed.

Lemma byName_of_from (pkgs : list WorkspacePackage.t)
    (m : gmap string WorkspacePackage.t) (n : string) :
  fold_left (λ m p, <[WorkspacePackage.name p := p]> m) pkgs m !! n =
  match last (filter (λ p, WorkspacePackage.name p = n) pkgs) with
  | Some p => Some p
  | None => m !! n
  end.
Proof.
  revert m. induction pkgs as [|p pkgs IH]; intros m; [done|].
  cbn [fold_left]. rewrite IH, filter_cons. case_decide as Hname.
  - destruct (filter _ pkgs) as [|p' ps] eqn:Hf.
    + cbn [last]. subst n. by rewrite lookup_insert_eq.
    + rewrite last_cons_cons. destruct (last (p' :: ps)) eqn:E; [done|]. by apply last_None in E.
  - destruct (last _); [done|]. by rewrite lookup_insert_ne.
Qed.

(** Property X11.  The lookup table [byName] holds, for a name, the last
    package of that name; with distinct names every package is found under
    its name; and the table and the graph have the same keys. *)
Theorem byName_of_lookup (pkgs : list WorkspacePackage.t) :
  (∀ n, byName_of pkgs !! n = last (filter (λ p, WorkspacePackage.name p = n) pkgs)) ∧
  (NoDup (names pkgs) →
   ∀ p, p ∈ pkgs → byName_of pkgs !! WorkspacePackage.name p = Some p) ∧
  (∀ n, is_Some (byName_of pkgs !! n) ↔ is_Some (JsMap.get n (build_graph pkgs))).
Proof.
  assert (∀ n, byName_of pkgs !! n =
    last (filter (λ p, WorkspacePackage.name p = n) pkgs)) as Hlast.
  { intros n. unfold byName_of. rewrite byName_of_from, lookup_empty.
    by destruct (last _). }
  split_and!; [done| |].
  - intros Hnd p Hp. rewrite Hlast.
    assert (filter (λ p0, WorkspacePackage.name p0 = WorkspacePackage.name p) pkgs = [p])
      as ->; [|done].
    clear Hlast. induction pkgs as [|p0 pkgs IH]; [by apply elem_of_nil in Hp|].
    unfold names in Hnd. cbn [map] in Hnd. apply NoDup_cons in Hnd as [Hp0 Hnd].
    rewrite filter_cons. apply elem_of_cons in Hp as [<-|Hp].
    + rewrite decide_True by done. f_equal.
      destruct (filter _ pkgs) as [|x l] eqn:Hf; [done|].
      assert (x ∈ filter (λ p0, WorkspacePackage.name p0 = WorkspacePackage.name p) pkgs)
        as [Hx Hin]%list_elem_of_filter by (rewrite Hf; left).
      destruct Hp0. rewrite <-Hx. apply list_elem_of_fmap. by exists x.
    + rewrite decide_False; [by apply IH|]. intros Heq. apply Hp0.
      rewrite Heq. apply list_elem_of_fmap. by exists p.
  - intros n. rewrite byName_of_is_Some, build_graph_get. case_decide.
    + split; [by eexists|done].
    + split; [done|]. by intros [? ?].
Qed.

(* ===================================================================== *)
(** * The head of the order                                            *)
(* ===================================================================== *)

Lemma relax_all_appends (vs : list string) (inDeg : gmap string jsnum) (q : list string) :
  ∃ added, (fold_left relax vs (inDeg, q)).2 = q ++ added.
Proof.
  revert inDeg q. induction vs as [|v vs IH]; intros inDeg q.
  - exists []. by rewrite app_nil_r.
  - cbn [fold_left]. unfold relax at 2.
    destruct (IH (<[v := minus_one (inDeg !! v)]> inDeg)
                (if is_zero (minus_one (inDeg !! v)) then q ++ [v] else q))
      as [added ->].
    destruct (is_zero _); [|by eexists]. rewrite <-app_assoc. by eexists.
Qed.

Lemma kahn_loop_prefix (fuel : nat) (G : Graph) (inDeg : gmap string jsnum)
    (q out : list string) :
  ∃ rest, kahn_loop fuel G inDeg q out = out ++ take fuel q ++ rest.
Proof.
  revert inDeg q out. induction fuel as [|fuel IH]; intros inDeg q out.
  - exists []. destruct q; cbn [kahn_loop take]; by rewrite ?app_nil_r.
  - destruct q as [|n q]; [exists []; cbn; by rewrite app_nil_r|].
    cbn [kahn_loop take].
    destruct (relax_all_appends (dependents G n) inDeg q) as [added Hq].
    destruct (fold_left relax (dependents G n) (inDeg, q)) as [inDeg' q'].
    cbn [snd] in Hq. subst q'.
    destruct (IH inDeg' (q ++ added) (out ++ [n])) as [rest ->].
    rewrite take_app. rewrite <-!app_assoc. cbn [app]. by eexists.
Qed.

Lemma in_degree_zero (pkgs : list WorkspacePackage.t) (n : string) :
  NoDup (names pkgs) → n ∈ names pkgs →
  or_zero (in_degrees pkgs (build_graph pkgs) !! n) = 0 ↔ ∀ d, ¬ depends_on pkgs n d.
Proof.
  intros Hnd Hn. rewrite in_degrees_lookup by done. cbn [or_zero].
  pose proof (build_graph_keys pkgs Hnd) as Hkeys.
  split.
  - intros Hz d Hdep%build_graph_edge.
    assert (rdeg (build_graph pkgs) [] n = 0%nat) as Hz' by lia.
    by apply (rdeg_zero_pred _ _ d) in Hz'; [apply elem_of_nil in Hz'|].
  - intros Hnone.
    destruct (decide (rdeg (build_graph pkgs) [] n = 0%nat)) as [->|Hpos]; [done|].
    apply rdeg_pos_pred in Hpos as (u & vs & Hin & _ & Hv).
    destruct (Hnone u). apply build_graph_edge. unfold dependents.
    rewrite (jsmap_get_elem u vs); [done| |done]. by rewrite Hkeys.
Qed.

(** Property X12.  With distinct names, the order [topoSort] returns
    starts with the packages that have no internal dependency, in the
    order of the workspace; every package behind them has one. *)
Theorem topoSort_roots_first (pkgs : list WorkspacePackage.t) (out : list string) :
  NoDup (names pkgs) →
  topoSort pkgs (build_graph pkgs) = Returned out →
  ∃ roots rest,
    out = roots ++ rest ∧
    roots `sublist_of` names pkgs ∧
    (∀ n, n ∈ roots ↔ n ∈ names pkgs ∧ ∀ d, ¬ depends_on pkgs n d) ∧
    (∀ n, n ∈ rest → ∃ d, depends_on pkgs n d).
Proof.
  intros Hnd Hsort.
  destruct (topoSort_cases pkgs Hnd) as [(out' & Hout & Hndout & Hperm & _)|[? _]];
    [|congruence].
  assert (out' = out) as -> by congruence.
  unfold topoSort in Hsort. case_decide; [done|]. injection Hsort as Hsort.
  unfold emitted in Hsort.
  set (G := build_graph pkgs) in *.
  set (roots := filter (λ n, or_zero (in_degrees pkgs G !! n) = 0) (names pkgs)) in *.
  destruct (kahn_loop_prefix (length pkgs + edge_count G) G (in_degrees pkgs G) roots [])
    as [rest Hrest].
  rewrite Hsort in Hrest. cbn [app] in Hrest.
  rewrite take_ge in Hrest.
  2:{ pose proof (length_filter (λ n, or_zero (in_degrees pkgs G !! n) = 0) (names pkgs))
        as Hlen. unfold names in Hlen at 2. rewrite length_map in Hlen.
      fold roots in Hlen. lia. }
  assert (∀ n, n ∈ roots ↔ n ∈ names pkgs ∧ ∀ d, ¬ depends_on pkgs n d) as Hroots.
  { intros n. unfold roots. rewrite list_elem_of_filter. split.
    - intros [Hz Hn]. split; [done|]. by apply in_degree_zero.
    - intros [Hn Hz]. split; [|done]. by apply in_degree_zero. }
  exists roots, rest. split_and!; [done|apply sublist_filter|done|].
  intros n Hn.
  assert (n ∉ roots) as Hnot.
  { rewrite Hrest in Hndout. apply NoDup_app in Hndout as (_ & Hdisj & _).
    intros ?. by eapply Hdisj. }
  assert (n ∈ names pkgs) as Hnames.
  { rewrite <-Hperm, Hrest. apply elem_of_app. by right. }
  destruct (decide (or_zero (in_degrees pkgs G !! n) = 0)) as [Hz|Hz].
  - destruct Hnot. apply Hroots. split; [done|]. by apply in_degree_zero.
  - rewrite in_degrees_lookup in Hz by done. cbn [or_zero] in Hz.
    assert (rdeg G [] n ≠ 0%nat) as Hpos by lia.
    apply rdeg_pos_pred in Hpos as (u & vs & Hin & _ & Hv).
    exists u. apply build_graph_edge. unfold dependents.
    rewrite (jsmap_get_elem u vs); [done| |done]. unfold G.
    by rewrite build_graph_keys.
Qed.

(** Property X13.  With distinct names and no dependency between
    workspace packages, [topoSort] returns the names in the order of the
    workspace. *)
Theorem topoSort_independent (pkgs : list WorkspacePackage.t) :
  NoDup (names pkgs) →
  (∀ p field key, p ∈ pkgs → key ∈ field_keys p field → key ∉ names pkgs) →
  topoSort pkgs (build_graph pkgs) = Returned (names pkgs).
Proof.
  intros Hnd Hext.
  assert (∀ n d, ¬ depends_on pkgs n d) as Hnone.
  { intros n d (Hd & P & field & HP & _ & Hkey). by eapply Hext. }
  destruct (topoSort_cases pkgs Hnd) as [(out & Hout & Hndout & Hperm & _)|[_ [n Hn]]].
  - rewrite Hout. f_equal.
    unfold topoSort in Hout. case_decide; [done|]. injection Hout as Hout.
    unfold emitted in Hout.
    set (G := build_graph pkgs) in *.
    assert (filter (λ n, or_zero (in_degrees pkgs G !! n) = 0) (names pkgs) = names pkgs)
      as Hroots.
    { assert (∀ n, n ∈ names pkgs → or_zero (in_degrees pkgs G !! n) = 0) as Hz.
      { intros n Hin. by apply in_degree_zero. }
      revert Hz. generalize (names pkgs) as ns. intros ns.
      induction ns as [|n ns IH]; intros Hz; [done|].
      rewrite filter_cons_True by (apply Hz; left).
      f_equal. apply IH. intros; apply Hz. by right. }
    rewrite Hroots in Hout.
    destruct (kahn_loop_prefix (length pkgs + edge_count G) G (in_degrees pkgs G)
                (names pkgs) []) as [rest Hrest].
    rewrite Hout in Hrest. cbn [app] in Hrest.
    rewrite take_ge in Hrest by (unfold names; rewrite length_map; lia).
    apply Permutation_length in Hperm. rewrite Hrest, length_app in Hperm.
    destruct rest; [by rewrite app_nil_r in Hrest|]. simpl in Hperm. lia.
  - destruct Hn as [? ? Hdep|? ? ? Hdep _]; by destruct (Hnone _ _ Hdep).
Qed.

(* ===================================================================== *)
(** * The bump of a log                                                *)
(* ===================================================================== *)

Lemma string_forallb_app (p : ascii → bool) (s t : string) :
  string_forallb p (s +:+ t) = string_forallb p s && string_forallb p t.
Proof.
  induction s as [|c s IH]; [done|].
  rewrite append_cons. cbn [string_forallb]. by rewrite IH, andb_assoc.
Qed.

Lemma blank_includes (line sub : string) (c : ascii) :
  trims_to_empty line = true → is_space c = false →
  includes line (String c sub) = false.
Proof.
  intros Hblank Hc. destruct (includes line (String c sub)) eqn:Hinc; [|done].
  apply includes_spec in Hinc as (before & after & ->).
  unfold trims_to_empty in Hblank.
  rewrite string_forallb_app, append_cons in Hblank. cbn [string_forallb] in Hblank.
  rewrite Hc in Hblank. by rewrite andb_false_r in Hblank.
Qed.

Lemma blank_match_type (line kw : string) (c : ascii) :
  trims_to_empty line = true → is_space c = false →
  match_type (String c kw) line = false.
Proof.
  intros Hblank Hc. unfold match_type.
  destruct (strip_literal (String c kw) line) as [r|] eqn:Hr; [|done].
  apply strip_literal_spec in Hr as ->.
  unfold trims_to_empty in Hblank. rewrite append_cons in Hblank.
  cbn [string_forallb] in Hblank. by rewrite Hc in Hblank.
Qed.

Lemma scan_commit_blank (f : Flags) (line : string) :
  trims_to_empty line = true → scan_commit f line = f.
Proof.
  intros Hblank. unfold scan_commit, match_feat, match_fix.
  rewrite !(blank_includes line) by done. cbn [existsb orb].
  rewrite !(blank_match_type line) by done. done.
Qed.

Lemma scan_commits_filter (commitLines : list string) (f : Flags) :
  fold_left scan_commit (filter (λ line, trims_to_empty line = false) commitLines) f =
  fold_left scan_commit commitLines f.
Proof.
  revert f. induction commitLines as [|line l IH]; intros f; [done|].
  rewrite filter_cons. cbn [fold_left]. case_decide as Hblank.
  - cbn [fold_left]. apply IH.
  - apply not_false_is_true in Hblank. rewrite scan_commit_blank by done. apply IH.
Qed.

Lemma split_lines_blank (s : string) :
  trims_to_empty s = true → Forall (λ line, trims_to_empty line = true) (split_lines s).
Proof.
  unfold trims_to_empty. induction s as [|c s IH]; cbn [split_lines string_forallb].
  - intros _. by constructor.
  - intros [Hc Hs]%andb_true_iff. specialize (IH Hs).
    destruct (Ascii.eqb c "010"); [by constructor|].
    destruct (split_lines s) as [|l ls]; constructor; try done.
    + cbn [string_forallb]. by rewrite Hc.
    + apply Forall_cons in IH as [Hl _]. cbn [string_forallb]. by rewrite Hc, Hl.
    + by apply Forall_cons in IH as [_ ?].
Qed.

Lemma scan_commits_blank (commitLines : list string) (f : Flags) :
  Forall (λ line, trims_to_empty line = true) commitLines →
  fold_left scan_commit commitLines f = f.
Proof.
  intros Hall. revert f. induction Hall as [|line l Hline _ IH]; intros f; [done|].
  cbn [fold_left]. by rewrite scan_commit_blank, IH.
Qed.

(** Property X14.  [determineVersionType] never throws and changes
    nothing.  Without a tag or without a log it answers patch; otherwise
    its answer is the classification of all the lines of the log: neither
    the test for an empty log nor the removal of blank lines changes
    it. *)
Theorem determineVersionType_classify (w : World) :
  determineVersionType w =
  (Returned match lastTag w, commitsSince w with
            | Some _, Some commits => classify (split_lines commits)
            | _, _ => Patch
            end, w).
Proof.
  unfold determineVersionType.
  destruct (lastTag w); [|done]. destruct (commitsSince w) as [commits|]; [|done].
  unfold classify, scan_commits. destruct (trims_to_empty commits) eqn:Hblank.
  - by rewrite scan_commits_blank by (by apply split_lines_blank).
  - by rewrite scan_commits_filter.
Qed.

Lemma classify_exists (commitLines : list string) :
  classify commitLines =
  if existsb is_breaking commitLines then Major
  else if existsb is_feature commitLines then Minor else Patch.
Proof.
  unfold classify, scan_commits, resolve_flags. rewrite scan_commits_from.
  cbn [hasBreaking hasFeature hasFix orb].
  by destruct (existsb is_breaking commitLines), (existsb is_feature commitLines),
    (existsb is_fix commitLines).
Qed.

(** Property X15.  The bump read from a log does not depend on the order
    of its commits: the bump of two logs put together is the greater of
    their bumps (patch below minor below major), logs that are
    permutations of each other give the same bump, and one more commit
    can only raise it. *)
Theorem classify_order_free :
  (∀ l1 l2, classify (l1 ++ l2) = kind_max (classify l1) (classify l2)) ∧
  (∀ l l', l ≡ₚ l' → classify l = classify l') ∧
  (∀ l commit, classify (commit :: l) =
     kind_max (if is_breaking commit then Major
               else if match_feat commit then Minor else Patch)
              (classify l)).
Proof.
  assert (∀ l1 l2, classify (l1 ++ l2) = kind_max (classify l1) (classify l2)) as Happ.
  { intros l1 l2. rewrite !classify_exists, !existsb_app.
    by destruct (existsb is_breaking l1), (existsb is_breaking l2),
      (existsb is_feature l1), (existsb is_feature l2). }
  split_and!; [done| |].
  - intros l l' Hperm. rewrite !classify_exists.
    assert (∀ p, existsb p l = existsb p l') as Hex.
    { intros p. apply eq_true_iff_eq. rewrite !existsb_exists.
      split; intros (x & Hx & ?); exists x; (split; [|done]).
      - rewrite <-list_elem_of_In in *. by rewrite <-Hperm.
      - rewrite <-list_elem_of_In in *. by rewrite Hperm. }
    by rewrite !Hex.
  - intros l commit. change (commit :: l) with ([commit] ++ l).
    rewrite (Happ [commit] l). f_equal.
    rewrite classify_exists. cbn [existsb]. rewrite !orb_false_r.
    unfold is_feature. by destruct (is_breaking commit), (match_feat commit).
Qed.

(* ===================================================================== *)
(** * Repeated releases                                                *)
(* ===================================================================== *)

Lemma to_number_from_uint (d : Decimal.uint) (acc : positive) :
  to_number_from (Npos acc) (NilEmpty.string_of_uint d) = Npos (Pos.of_uint_acc d acc).
Proof.
  revert acc. induction d; intros acc; cbn [NilEmpty.string_of_uint to_number_from
    Pos.of_uint_acc]; [done|rewrite <-IHd; f_equal; vm_compute digit_value; lia..].
Qed.

Lemma to_number_from_zero (d : Decimal.uint) :
  to_number_from 0%N (NilEmpty.string_of_uint d) = Pos.of_uint d.
Proof.
  induction d; cbn [NilEmpty.string_of_uint to_number_from Pos.of_uint]; [done|..];
    try (rewrite <-to_number_from_uint; f_equal; vm_compute digit_value; lia).
  exact IHd.
Qed.

Lemma to_number_number_to_string (n : N) : to_number (number_to_string n) = n.
Proof.
  unfold to_number, number_to_string, NilZero.string_of_uint.
  rewrite <-(DecimalN.Unsigned.of_to n) at 2. unfold N.of_uint.
  destruct (N.to_uint n) eqn:Hn; try apply to_number_from_zero.
  apply (f_equal N.of_uint) in Hn. rewrite DecimalN.Unsigned.of_to in Hn. by subst.
Qed.

Lemma bumped_shape (kind : BumpKind) (major minor patch : N) :
  let '(a, b, c) := bump_numbers kind major minor patch in
  bumped kind major minor patch =
    number_to_string a +:+ "." +:+ number_to_string b +:+ "." +:+ number_to_string c ∧
  semver_match (bumped kind major minor patch) =
    Some (number_to_string a, number_to_string b, number_to_string c).
Proof.
  assert (∀ a b c,
    semver_match (number_to_string a +:+ "." +:+ number_to_string b +:+ "." +:+
                  number_to_string c) =
    Some (number_to_string a, number_to_string b, number_to_string c)) as Hmatch.
  { intros a b c. apply semver_match_spec. exists "". rewrite append_nil_r.
    split_and!; [done|apply number_to_string_digits..|by left]. }
  destruct kind; cbn [bump_numbers bumped]; (split; [done|]).
  - exact (Hmatch major minor (patch + 1)%N).
  - exact (Hmatch major (minor + 1)%N 0%N).
  - exact (Hmatch (major + 1)%N 0%N 0%N).
Qed.

(** Property X16.  What [semverBump] returns can be bumped again: the
    second bump parses the three numbers the first one printed, so it
    returns the bump of the bumped numbers (whose pre-release suffix is
    gone).  The numbers are taken below [Number.MAX_SAFE_INTEGER], where
    the doubles of the source are exact. *)
Theorem semverBump_again (v : string) (kind kind' : BumpKind) (MA MI PA : string) :
  semver_shape v MA MI PA →
  (to_number MA < MAX_SAFE_INTEGER)%N →
  (to_number MI < MAX_SAFE_INTEGER)%N →
  (to_number PA < MAX_SAFE_INTEGER)%N →
  ∃ next,
    semverBump v kind = Returned next ∧
    semverBump next kind' =
      Returned (let '(major, minor, patch) :=
                  bump_numbers kind (to_number MA) (to_number MI) (to_number PA) in
                bumped kind' major minor patch).
Proof.
  unfold MAX_SAFE_INTEGER. intros Hshape%semver_match_spec HMA HMI HPA.
  exists (bumped kind (to_number MA) (to_number MI) (to_number PA)). split.
  - apply semverBump_safe; [done|unfold MAX_SAFE_INTEGER; lia..].
  - pose proof (bumped_shape kind (to_number MA) (to_number MI) (to_number PA)) as Hb.
    destruct kind; cbn [bump_numbers] in *; destruct Hb as [_ Hmatch];
      rewrite (semverBump_safe _ kind' _ _ _ Hmatch);
      rewrite ?to_number_number_to_string;
      first [reflexivity | unfold MAX_SAFE_INTEGER; lia].
Qed.

(** A version [semverBump] returns starts with a digit, or with the [I] of
    [Infinity]. *)
Lemma semverBump_head (v : string) (kind : BumpKind) (next : string) :
  semverBump v kind = Returned next →
  ∃ c rest, next = String c rest ∧ (is_digit c = true ∨ c = "I"%char).
Proof.
  unfold semverBump. destruct (semver_match v) as [[[MA MI] PA]|]; [|done].
  destruct kind; intros [= <-];
    match goal with
    | |- context [double_to_string ?x +:+ "." +:+ _] =>
        destruct (double_to_string_head x) as (c & rest & -> & Hc)
    end;
    rewrite append_cons; by eexists _, _.
Qed.

(** Property X17.  The operator of a range survives any number of
    releases: rewriting a range for a version [semverBump] has returned and
    then for another version gives what rewriting it for the other version
    at once gives. *)
Theorem preserveOperator_again (oldRange v next newVersion : string) (kind : BumpKind) :
  semverBump v kind = Returned next →
  preserveOperator (preserveOperator oldRange next) newVersion =
  preserveOperator oldRange newVersion.
Proof.
  intros (c & rest & -> & Hc)%semverBump_head.
  assert (∀ s, String.prefix "" s = true) as Hnil.
  { intros s. apply prefix_spec. by exists s. }
  assert (∀ op tail, is_digit op = false → op ≠ "I"%char →
    String.prefix (String op tail) (String c rest) = false) as Hop.
  { intros op tail Hop HI. cbn [String.prefix]. destruct (ascii_dec op c) as [->|]; [|done].
    destruct Hc; congruence. }
  unfold preserveOperator at 2 3. unfold startsWith.
  destruct (String.prefix "^" oldRange) eqn:H1.
  { unfold preserveOperator, startsWith. rewrite append_cons. cbn [String.prefix].
    by rewrite Hnil. }
  destruct (String.prefix "~" oldRange) eqn:H2.
  { unfold preserveOperator, startsWith. rewrite append_cons. cbn [String.prefix].
    by rewrite Hnil. }
  destruct (String.prefix ">=" oldRange) eqn:H3.
  { unfold preserveOperator, startsWith. rewrite !append_cons. cbn [String.prefix].
    by rewrite Hnil. }
  destruct (String.prefix "=" oldRange) eqn:H4.
  { unfold preserveOperator, startsWith. rewrite !append_cons. cbn [String.prefix].
    by rewrite Hnil. }
  unfold preserveOperator, startsWith. by rewrite !Hop by done.
Qed.

(* ===================================================================== *)
(** * Command line                                                     *)
(* ===================================================================== *)

Lemma from_entries_fresh (entries : list (string * CliValue)) (opts : CliOptions)
    (key : string) :
  key ∉ entries.*1 →
  fold_left (λ opts entry, <[entry.1 := entry.2]> opts) entries opts !! key = opts !! key.
Proof.
  revert opts. induction entries as [|[k v] entries IH]; intros opts Hkey; [done|].
  csimpl in Hkey. apply not_elem_of_cons in Hkey as [Hne Hkey].
  cbn [fold_left]. rewrite IH by done. cbn beta iota delta [fst snd].
  by apply lookup_insert_ne.
Qed.

Lemma from_entries_elem (entries : list (string * CliValue)) (opts : CliOptions)
    (key : string) (v : CliValue) :
  fold_left (λ opts entry, <[entry.1 := entry.2]> opts) entries opts !! key = Some v →
  (key, v) ∈ entries ∨ opts !! key = Some v.
Proof.
  revert opts. induction entries as [|[k v'] entries IH]; intros opts; [by right|].
  cbn [fold_left]. intros [Hin|Hopts]%IH; [left; by right|].
  cbn beta iota delta [fst snd] in Hopts. unfold CliOptions in *.
  destruct (decide (k = key)) as [->|Hne].
  - rewrite lookup_insert_eq in Hopts. injection Hopts as ->. left. left.
  - rewrite lookup_insert_ne in Hopts by done. by right.
Qed.

Lemma cli_entries_keys (args : list string) (key : string) :
  key ∈ (cli_entries args).*1 ↔ ("--" +:+ key) ∈ args.
Proof.
  induction args as [|x args IH]; cbn [cli_entries].
  - csimpl. by rewrite !elem_of_nil.
  - rewrite elem_of_cons, <-IH. destruct (strip_literal "--" x) as [k|] eqn:Hx.
    + apply strip_literal_spec in Hx as ->. csimpl. rewrite elem_of_cons.
      split; (intros [Heq|?]; [left|by right]).
      * by subst.
      * assert (strip_literal "--" ("--" +:+ key) = strip_literal "--" ("--" +:+ k))
          as Hs by (by rewrite Heq).
        rewrite (proj2 (strip_literal_spec "--" _ key) eq_refl),
          (proj2 (strip_literal_spec "--" _ k) eq_refl) in Hs. by injection Hs.
    + split; [by right|]. intros [Heq|?]; [|done].
      rewrite <-Heq, (proj2 (strip_literal_spec "--" _ key) eq_refl) in Hx. done.
Qed.

Lemma cli_entries_app (before : list string) (x : string) (after : list string) :
  ∃ entries,
    cli_entries (before ++ x :: after) = entries ++ cli_entries (x :: after).
Proof.
  induction before as [|y before [entries IH]]; [by exists []|].
  cbn [app cli_entries]. rewrite IH.
  destruct (strip_literal "--" y); [|by eexists].
  eexists (_ :: entries). reflexivity.
Qed.

Lemma cli_entries_values (args : list string) (key s : string) :
  (key, CliString s) ∈ cli_entries args →
  s ≠ "" ∧ startsWith s "--" = false ∧ s ∈ args.
Proof.
  induction args as [|x args IH]; cbn [cli_entries]; [by intros ?%elem_of_nil|].
  assert ((key, CliString s) ∈ cli_entries args →
          s ≠ "" ∧ startsWith s "--" = false ∧ s ∈ x :: args) as IH'.
  { intros (? & ? & ?)%IH. split_and!; [done..|by right]. }
  destruct (strip_literal "--" x) as [k|]; [|done].
  intros [Heq|?]%elem_of_cons; [|by apply IH'].
  injection Heq as -> Hvalue. unfold cli_value in Hvalue.
  destruct args as [|nextArg args]; [done|].
  destruct (String.eqb nextArg "") eqn:Hempty; [done|].
  destruct (startsWith nextArg "--") eqn:Hdashes; [done|].
  injection Hvalue as ->. split_and!; [|done|right; left].
  intros ->. done.
Qed.

Lemma parseCliOptions_last (before after : list string) (x key : string) :
  strip_literal "--" x = Some key → x ∉ after →
  parseCliOptions (before ++ x :: after) !! key = Some (cli_value after).
Proof.
  intros Hx%strip_literal_spec Hafter. subst x. unfold parseCliOptions, from_entries.
  destruct (cli_entries_app before ("--" +:+ key) after) as [entries ->].
  cbn [cli_entries]. rewrite (proj2 (strip_literal_spec "--" _ key) eq_refl).
  rewrite fold_left_app. cbn beta iota delta [fold_left fst snd].
  rewrite from_entries_fresh by (by rewrite cli_entries_keys).
  apply lookup_insert_eq.
Qed.

Lemma parseCliOptions_absent (args : list string) (x key : string) :
  strip_literal "--" x = Some key → x ∉ args → parseCliOptions args !! key = None.
Proof.
  intros Hx%strip_literal_spec Hnot. subst x. unfold parseCliOptions, from_entries.
  rewrite from_entries_fresh by (by rewrite cli_entries_keys). apply lookup_empty.
Qed.

(** Property X18.  [parseCliOptions] has an option [key] exactly when
    [--key] is among the arguments.  Its value is decided by the last
    [--key]: the argument behind it, unless there is none, it is empty or
    it starts with [--], when the value is [true].  A string value is
    never empty, never starts with [--] and is one of the arguments. *)
Theorem parseCliOptions_lookup (args : list string) (key : string) :
  (parseCliOptions args !! key = None ↔ ("--" +:+ key) ∉ args) ∧
  (∀ before after,
     args = before ++ ("--" +:+ key) :: after → ("--" +:+ key) ∉ after →
     parseCliOptions args !! key =
       Some match after with
            | nextArg :: _ =>
                if negb (String.eqb nextArg "") && negb (startsWith nextArg "--")
                then CliString nextArg else CliTrue
            | [] => CliTrue
            end) ∧
  (∀ s, parseCliOptions args !! key = Some (CliString s) →
     s ≠ "" ∧ startsWith s "--" = false ∧ s ∈ args).
Proof.
  assert (strip_literal "--" ("--" +:+ key) = Some key) as Hkey
    by (by apply strip_literal_spec).
  split_and!.
  - split; [|by apply parseCliOptions_absent].
    intros Hnone Hin. apply list_elem_of_split_r in Hin as (before & after & -> & Hafter).
    by rewrite (parseCliOptions_last _ _ _ key) in Hnone.
  - intros before after -> Hafter. by apply parseCliOptions_last.
  - intros s [Hin|Hempty]%from_entries_elem; [by eapply cli_entries_values|].
    unfold CliOptions in *. by rewrite lookup_empty in Hempty.
Qed.

Lemma some_piece (s : string) :
  existsb (λ piece, negb (String.eqb piece "")) (split_lines s) =
  negb (string_forallb (λ c, Ascii.eqb c "010") s).
Proof.
  induction s as [|c s IH]; [done|]. cbn [split_lines string_forallb].
  destruct (Ascii.eqb c "010"); [exact IH|].
  by destruct (split_lines s).
Qed.

(** Property X19.  [changedSinceLastTag] never changes the world.  Without
    a tag it answers true; with one it answers true exactly when what
    [git diff --name-only] prints has a character other than a line feed,
    and throws what the command throws. *)
Theorem changedSinceLastTag_spec (diffNames : string → result string) (w : World) :
  changedSinceLastTag diffNames w =
  match lastTag w with
  | None => (Returned true, w)
  | Some lastTag =>
      match diffNames lastTag with
      | Returned diff =>
          (Returned (negb (string_forallb (λ c, Ascii.eqb c "010") diff)), w)
      | Thrown msg => (Thrown msg, w)
      end
  end.
Proof.
  unfold changedSinceLastTag. destruct (lastTag w) as [t|]; [|done].
  destruct (diffNames t) as [diff|msg]; [|done]. by rewrite some_piece.
Qed.

Lemma changedSinceLastTag_world (diffNames : string → result string) (w w' : World)
    (r : result bool) :
  changedSinceLastTag diffNames w = (r, w') → w' = w.
Proof.
  unfold changedSinceLastTag. destruct (lastTag w) as [t|]; [|by intros [= _ <-]].
  destruct (diffNames t); by intros [= _ <-].
Qed.

Ltac end_main :=
  let Heq := fresh in intros Heq; lazy iota beta in Heq; injection Heq as <- <-.

(** Property X20.  When [main] ends without having completed a command
    and without reporting an error, it leaves the world as it was, no
    manifest written and no command run: that is when it shows the help or
    the version, when the command is unknown, and when nothing has changed
    since the last tag.  Only [version] ends with [Skipped] or shows the
    version, and an unknown command is none of [help], [version] and
    [publish]. *)
Theorem main_untouched (env : Process) (argv : list string) (w w' : World)
    (outcome : Outcome) :
  main env argv w = (outcome, w') →
  outcome ≠ Completed → (∀ msg, outcome ≠ Failed msg) →
  w' = w ∧
  (outcome = Skipped → argv !! 2%nat = Some "version") ∧
  (outcome = ShowedVersion → argv !! 2%nat = Some "version") ∧
  (∀ cmd, outcome = UnknownCommand cmd →
     argv !! 2%nat = Some cmd ∧ cmd ∉ ["help"; "version"; "publish"]).
Proof.
  intros Hmain Hcompleted Hfailed. revert Hmain.
  unfold main. cbv zeta. set (opts := parseCliOptions (drop 3 argv)).
  destruct (argv !! 2%nat) as [cmd|] eqn:Hcmd; cbn [default from_option id];
    [|cbn [String.eqb orb]; by end_main].
  destruct (String.eqb cmd "" || String.eqb cmd "help" || truthy (opts !! "help"))
    eqn:Hhelp; [by end_main|].
  apply orb_false_iff in Hhelp as [[Hempty Hhelp]%orb_false_iff _].
  apply String.eqb_neq in Hempty, Hhelp.
  destruct (String.eqb cmd "version") eqn:Hversion.
  { apply String.eqb_eq in Hversion as ->. cbn [andb].
    destruct (truthy (opts !! "version") || truthy (opts !! "v"));
      [by end_main|].
    destruct (bump_type_of (string_or (opts !! "type") "patch")) as [type|];
      [|end_main; by edestruct Hfailed].
    destruct (changedSinceLastTag (diffNames env) w) as [[[|]|msg] w1] eqn:Hchanged;
      apply changedSinceLastTag_world in Hchanged as ->;
      [|by end_main|end_main; by edestruct Hfailed].
    destruct (version _ _ w) as [[[]|msg] w2] eqn:Hv;
      end_main; [done|by edestruct Hfailed]. }
  cbn [andb]. apply String.eqb_neq in Hversion.
  destruct (String.eqb cmd "publish") eqn:Hpublish.
  { destruct (String.eqb (string_unless_true (opts !! "tag") "" "") "");
      [end_main; by edestruct Hfailed|].
    destruct (publish _ _ w) as [[[]|msg] w2];
      end_main; [done|by edestruct Hfailed]. }
  apply String.eqb_neq in Hpublish.
  end_main. split_and!; [done..|].
  intros ? [= <-]. split; [done|]. set_solver.
Qed.

Lemma main_command (env : Process) (argv : list string) (w : World) (cmd : string) :
  argv !! 2%nat = Some cmd → cmd ≠ "" → cmd ≠ "help" →
  ("--help") ∉ drop 3 argv →
  main env argv w =
  let opts := parseCliOptions (drop 3 argv) in
  if String.eqb cmd "version" && (truthy (opts !! "version") || truthy (opts !! "v"))
  then (ShowedVersion, w)
  else
    let lockstep := mkConfig (cwd env) (detectPackageManager (present env) (cwd env)) in
    if String.eqb cmd "version" then
      match bump_type_of (string_or (opts !! "type") "patch") with
      | None => (Failed "--type must be patch|minor|major|auto", w)
      | Some type =>
          match changedSinceLastTag (diffNames env) w with
          | (Thrown msg, w') => (Failed msg, w')
          | (Returned false, w') => (Skipped, w')
          | (Returned true, w') =>
              match version lockstep
                      (mkVersionOptions type (truthy (opts !! "ci"))
                         (truthy (opts !! "no-git-commit"))) w' with
              | (Returned _, w'') => (Completed, w'')
              | (Thrown msg, w'') => (Failed msg, w'')
              end
          end
      end
    else if String.eqb cmd "publish" then
      let tag := string_unless_true (opts !! "tag") "" "" in
      if String.eqb tag ""
      then (Failed "--tag parameter is required for publish command", w)
      else
        match publish lockstep
                (mkPublishOptions
                   (Some (string_unless_true (opts !! "access") "public" "public"))
                   (truthy (opts !! "dry")) tag (truthy (opts !! "git-push"))) w with
        | (Returned _, w') => (Completed, w')
        | (Thrown msg, w') => (Failed msg, w')
        end
    else (UnknownCommand cmd, w).
Proof.
  intros Hcmd Hempty Hhelp Hflag. unfold main. cbv zeta. rewrite Hcmd.
  cbn [default from_option id].
  apply String.eqb_neq in Hempty, Hhelp. rewrite Hempty, Hhelp.
  rewrite (parseCliOptions_absent _ "--help" "help") by done. done.
Qed.

(** Property X21.  [publish] on the command line, without [--help]: when
    there is no [--tag], or the last [--tag] is the last argument or stands
    before an empty argument or another option, [main] fails with
    [--tag parameter is required for publish command] and changes nothing;
    when the last [--tag] stands before a value, [publish] is called with
    that value as tag. *)
Theorem main_publish_tag (env : Process) (argv : list string) (w : World) :
  argv !! 2%nat = Some "publish" →
  "--help" ∉ drop 3 argv →
  (("--tag" ∉ drop 3 argv ∨
    ∃ before after,
      drop 3 argv = before ++ "--tag" :: after ∧ "--tag" ∉ after ∧
      match after with
      | nextArg :: _ => nextArg = "" ∨ startsWith nextArg "--" = true
      | [] => True
      end) →
   main env argv w = (Failed "--tag parameter is required for publish command", w)) ∧
  (∀ before nextArg more,
     drop 3 argv = before ++ "--tag" :: nextArg :: more →
     "--tag" ∉ more → nextArg ≠ "" → startsWith nextArg "--" = false →
     let opts := parseCliOptions (drop 3 argv) in
     main env argv w =
     match publish (mkConfig (cwd env) (detectPackageManager (present env) (cwd env)))
             (mkPublishOptions
                (Some (string_unless_true (opts !! "access") "public" "public"))
                (truthy (opts !! "dry")) nextArg (truthy (opts !! "git-push"))) w with
     | (Returned _, w') => (Completed, w')
     | (Thrown msg, w') => (Failed msg, w')
     end).
Proof.
  intros Hcmd Hhelp. rewrite (main_command env argv w "publish") by done.
  cbv zeta. cbn [String.eqb Ascii.eqb Bool.eqb andb]. split.
  - intros [Habsent|(before & after & Hrest & Hlast & Hvalue)].
    + by rewrite (parseCliOptions_absent _ "--tag" "tag").
    + rewrite Hrest, (parseCliOptions_last before after "--tag" "tag") by done.
      assert (cli_value after = CliTrue) as ->; [|done].
      destruct after as [|nextArg more]; [done|]. unfold cli_value.
      destruct Hvalue as [Hvalue|Hvalue]; rewrite Hvalue; [done|].
      by rewrite andb_false_r.
  - intros before nextArg more Hrest Hlast Hempty Hdashes.
    assert ("--tag" ∉ nextArg :: more) as Hlast'.
    { apply not_elem_of_cons. split; [|done]. intros <-. done. }
    apply String.eqb_neq in Hempty as Hempty'.
    assert (parseCliOptions (drop 3 argv) !! "tag" = Some (CliString nextArg)) as Htag.
    { rewrite Hrest, (parseCliOptions_last before _ "--tag" "tag") by done.
      unfold cli_value. by rewrite Hempty', Hdashes. }
    rewrite !Htag. cbn [string_unless_true string_or]. by rewrite !Hempty'.
Qed.

(** Property X22.  [version] on the command line, without [--help],
    [--version] and [--v]: when the last [--type] is not followed by one of
    [patch], [minor], [major] and [auto] (it is the last argument, or
    another option follows), [main] fails with
    [--type must be patch|minor|major|auto] and changes nothing; without
    [--type] the bump is patch; otherwise it is the one named behind the
    last [--type]. *)
Theorem main_version_type (env : Process) (argv : list string) (w : World) :
  argv !! 2%nat = Some "version" →
  "--help" ∉ drop 3 argv → "--version" ∉ drop 3 argv → "--v" ∉ drop 3 argv →
  ((∃ before after,
      drop 3 argv = before ++ "--type" :: after ∧ "--type" ∉ after ∧
      match after with
      | nextArg :: _ => nextArg ∉ ["patch"; "minor"; "major"; "auto"]
      | [] => True
      end) →
   main env argv w = (Failed "--type must be patch|minor|major|auto", w)) ∧
  (∀ type,
     match type with
     | Fixed Patch =>
         "--type" ∉ drop 3 argv ∨
         ∃ before more, drop 3 argv = before ++ "--type" :: "patch" :: more ∧
                        "--type" ∉ more
     | Fixed Minor =>
         ∃ before more, drop 3 argv = before ++ "--type" :: "minor" :: more ∧
                        "--type" ∉ more
     | Fixed Major =>
         ∃ before more, drop 3 argv = before ++ "--type" :: "major" :: more ∧
                        "--type" ∉ more
     | Auto =>
         ∃ before more, drop 3 argv = before ++ "--type" :: "auto" :: more ∧
                        "--type" ∉ more
     end →
     let opts := parseCliOptions (drop 3 argv) in
     main env argv w =
     match changedSinceLastTag (diffNames env) w with
     | (Thrown msg, w') => (Failed msg, w')
     | (Returned false, w') => (Skipped, w')
     | (Returned true, w') =>
         match version (mkConfig (cwd env) (detectPackageManager (present env) (cwd env)))
                 (mkVersionOptions type (truthy (opts !! "ci"))
                    (truthy (opts !! "no-git-commit"))) w' with
         | (Returned _, w'') => (Completed, w'')
         | (Thrown msg, w'') => (Failed msg, w'')
         end
     end).
Proof.
  intros Hcmd Hhelp Hversion Hv. rewrite (main_command env argv w "version") by done.
  cbv zeta. rewrite (parseCliOptions_absent _ "--version" "version"),
    (parseCliOptions_absent _ "--v" "v")
    by done.
  cbn [String.eqb Ascii.eqb Bool.eqb andb orb truthy].
  assert (∀ before value more,
    drop 3 argv = before ++ "--type" :: value :: more → "--type" ∉ more →
    value ∈ ["patch"; "minor"; "major"; "auto"] →
    string_or (parseCliOptions (drop 3 argv) !! "type") "patch" = value) as Hvalue.
  { intros before value more -> Hlast Hin.
    rewrite (parseCliOptions_last before _ "--type" "type"); [|done|].
    - unfold cli_value.
      repeat (apply elem_of_cons in Hin as [->|Hin]; [done|]). by apply elem_of_nil in Hin.
    - apply not_elem_of_cons. split; [|done]. intros <-.
      repeat (apply elem_of_cons in Hin as [?|Hin]; [done|]). by apply elem_of_nil in Hin. }
  split.
  - intros (before & after & Hrest & Hlast & Hbad).
    rewrite Hrest, (parseCliOptions_last before after "--type" "type") by done.
    assert (bump_type_of (string_or (Some (cli_value after)) "patch") = None) as ->;
      [|done].
    destruct after as [|nextArg more]; [done|]. unfold cli_value.
    destruct (negb (String.eqb nextArg "") && negb (startsWith nextArg "--")) eqn:Hnext;
      [|done].
    apply andb_true_iff in Hnext as [Hempty%negb_true_iff _].
    cbn [string_or]. rewrite Hempty. unfold bump_type_of.
    destruct (String.eqb_spec nextArg "patch") as [->|_]; [set_solver|].
    destruct (String.eqb_spec nextArg "minor") as [->|_]; [set_solver|].
    destruct (String.eqb_spec nextArg "major") as [->|_]; [set_solver|].
    destruct (String.eqb_spec nextArg "auto") as [->|_]; [set_solver|]. done.
  - intros [[| |]|] Htype.
    + destruct Htype as [Habsent|(before & more & Hrest & Hlast)].
      * by rewrite (parseCliOptions_absent _ "--type" "type").
      * rewrite (Hvalue before "patch" more) by (done || set_solver). done.
    + destruct Htype as (before & more & Hrest & Hlast).
      rewrite (Hvalue before "minor" more) by (done || set_solver). done.
    + destruct Htype as (before & more & Hrest & Hlast).
      rewrite (Hvalue before "major" more) by (done || set_solver). done.
    + destruct Htype as (before & more & Hrest & Hlast).
      rewrite (Hvalue before "auto" more) by (done || set_solver). done.
Qed.

Lemma parseCliOptions_truthy (args : list string) (x key : string) :
  strip_literal "--" x = Some key → x ∈ args →
  truthy (parseCliOptions args !! key) = true.
Proof.
  intros Hx (before & after & -> & Hafter)%list_elem_of_split_r.
  rewrite (parseCliOptions_last before after x key) by done. unfold cli_value.
  destruct after as [|nextArg more]; [done|].
  destruct (String.eqb nextArg "") eqn:Hempty; [done|].
  destruct (startsWith nextArg "--"); [done|]. cbn [negb andb truthy].
  by rewrite Hempty.
Qed.

(** Property X23.  [main] shows the help exactly when there is no command,
    the command is empty or [help], or [--help] is among the options,
    whatever the command and the other options are; nothing is written or
    run then. *)
Theorem main_help (env : Process) (argv : list string) (w w' : World) :
  main env argv w = (ShowedHelp, w') ↔
  w' = w ∧
  (argv !! 2%nat = None ∨ argv !! 2%nat = Some "" ∨ argv !! 2%nat = Some "help" ∨
   "--help" ∈ drop 3 argv).
Proof.
  assert (argv !! 2%nat = None ∨ argv !! 2%nat = Some "" ∨ argv !! 2%nat = Some "help" ∨
          "--help" ∈ drop 3 argv → main env argv w = (ShowedHelp, w)) as Hshown.
  { intros Hhelp. unfold main. cbv zeta.
    destruct Hhelp as [->|[->|[->|Hflag]]]; [done..|].
    rewrite (parseCliOptions_truthy _ "--help" "help") by done.
    by rewrite orb_true_r. }
  split; [|intros [-> Hhelp]; by apply Hshown].
  intros Hmain.
  assert (argv !! 2%nat = None ∨ argv !! 2%nat = Some "" ∨ argv !! 2%nat = Some "help" ∨
          "--help" ∈ drop 3 argv) as Hhelp.
  { destruct (argv !! 2%nat) as [cmd|] eqn:Hcmd; [|by left].
    destruct (decide (cmd = "")) as [->|Hempty]; [right; by left|].
    destruct (decide (cmd = "help")) as [->|Hhelp]; [right; right; by left|].
    destruct (decide ("--help" ∈ drop 3 argv)) as [?|Hflag]; [by repeat right|].
    rewrite (main_command env argv w cmd) in Hmain by done. cbv zeta in Hmain.
    destruct (String.eqb cmd "version" && _); [done|].
    destruct (String.eqb cmd "version").
    + destruct (bump_type_of _); [|done].
      destruct (changedSinceLastTag (diffNames env) w) as [[[|]|?] ?]; [|done..].
      by destruct (version _ _ _) as [[[]|?] ?].
    + destruct (String.eqb cmd "publish"); [|done].
      destruct (String.eqb _ ""); [done|].
      by destruct (publish _ _ _) as [[[]|?] ?]. }
  split; [|done]. rewrite (Hshown Hhelp) in Hmain. by injection Hmain.
Qed.

(* ===================================================================== *)
(** * Finding the packages                                             *)
(* ===================================================================== *)

Lemma Node_nested_ind (P : Node → Prop) :
  P File → P Dangling →
  (∀ entries, Forall (λ entry, P entry.2) entries → P (Directory entries)) →
  ∀ node, P node.
Proof.
  intros HFile HDangling HDirectory. fix IH 1.
  intros [| |entries]; [exact HFile|exact HDangling|].
  apply HDirectory. induction entries as [|[name entry] entries IHentries].
  - constructor.
  - constructor; [apply IH|exact IHentries].
Qed.

Lemma searchRecursively_entries (path_join : string → string → string)
    (dirPath : string) (entries : list (string * Node)) (p : string) :
  p ∈ searchRecursively path_join dirPath (Directory entries) ↔
  ∃ name inside,
    (name, Directory inside) ∈ entries ∧
    ((has_entry "package.json" inside = true ∧ p = path_join dirPath name) ∨
     p ∈ searchRecursively path_join (path_join dirPath name) (Directory inside)).
Proof.
  induction entries as [|[name entry] entries IH].
  - cbn [searchRecursively]. split; [by intros ?%elem_of_nil|].
    by intros (? & ? & ?%elem_of_nil & _).
  - change (searchRecursively path_join dirPath (Directory ((name, entry) :: entries))) with
      (match entry with
       | Directory inside =>
           (if has_entry "package.json" inside then [path_join dirPath name] else []) ++
           searchRecursively path_join (path_join dirPath name) entry ++
           searchRecursively path_join dirPath (Directory entries)
       | File | Dangling => searchRecursively path_join dirPath (Directory entries)
       end).
    destruct entry as [| |inside].
    + rewrite IH. split; intros (n & i & Hin & H); exists n, i; (split; [|done]).
      * by right.
      * by apply elem_of_cons in Hin as [[=]|?].
    + rewrite IH. split; intros (n & i & Hin & H); exists n, i; (split; [|done]).
      * by right.
      * by apply elem_of_cons in Hin as [[=]|?].
    + rewrite !elem_of_app, IH. split.
      * intros [Hhere|[Hin|(n & i & Hin & H)]].
        -- exists name, inside. split; [left|]. left.
           destruct (has_entry "package.json" inside); [|by apply elem_of_nil in Hhere].
           by apply list_elem_of_singleton in Hhere.
        -- exists name, inside. split; [left|]. by right.
        -- exists n, i. split; [by right|done].
      * intros (n & i & [[= -> ->]|Hin]%elem_of_cons & H).
        -- destruct H as [[-> ->]|?]; [left; left|right; by left].
        -- right. right. by exists n, i.
Qed.

Lemma searchRecursively_reaches (path_join : string → string → string)
    (node : Node) (dirPath p : string) :
  p ∈ searchRecursively path_join dirPath node ↔
  ∃ names inside,
    names ≠ [] ∧ reaches node names (Directory inside) ∧
    has_entry "package.json" inside = true ∧ p = join_path path_join dirPath names.
Proof.
  revert dirPath. induction node as [| |entries IH] using Node_nested_ind; intros dirPath.
  - cbn [searchRecursively]. split; [by intros ?%elem_of_nil|].
    intros (names & inside & Hne & Hreach & _). inversion Hreach; by subst.
  - cbn [searchRecursively]. split; [by intros ?%elem_of_nil|].
    intros (names & inside & Hne & Hreach & _). inversion Hreach; by subst.
  - rewrite searchRecursively_entries. split.
    + intros (name & inside & Hin & [[Hhas ->]|Hp]).
      * exists [name], inside. split_and!; [done| |done..].
        eapply reaches_down; [done|constructor].
      * rewrite Forall_forall in IH. apply (IH _ Hin) in Hp
          as (names & inside' & Hne & Hreach & Hhas & ->).
        exists (name :: names), inside'. split_and!; [done| |done..].
        by eapply reaches_down.
    + intros (names & inside' & Hne & Hreach & Hhas & ->).
      inversion Hreach as [|? name inside names' ? Hin Hreach']; subst; [done|].
      exists name, inside. split; [done|].
      destruct names' as [|name' names'].
      * left. inversion Hreach'; subst. done.
      * right. rewrite Forall_forall in IH. apply (IH _ Hin).
        exists (name' :: names'), inside'. done.
Qed.

(** [exists] finds the entry [name] among [entries] when an entry of that
    name is there and is not a link that leads nowhere. *)
Lemma has_entry_spec (name : string) (entries : list (string * Node)) :
  has_entry name entries = true ↔
  ∃ node, (name, node) ∈ entries ∧ node ≠ Dangling.
Proof.
  unfold has_entry. rewrite existsb_exists. split.
  - intros ([n node] & Hin%list_elem_of_In & Hfound). cbn [fst snd] in Hfound.
    apply andb_true_iff in Hfound as [Hname%String.eqb_eq Hacc]. subst n.
    exists node. split; [done|]. by intros ->.
  - intros (node & Hin & Hne). exists (name, node).
    split; [by apply list_elem_of_In|].
    apply andb_true_iff. split; [by apply String.eqb_eq|]. by destruct node.
Qed.

(** Property X24.  When [findPackageDirs] returns, it has found exactly
    the directories strictly below an existing base directory in which
    [exists] finds [package.json] (an entry of that name that is not a
    link leading nowhere), at any depth and whatever the directories on
    the way hold: the base itself is not among them, and packages nested
    in a package are.  Each is found under the path that [path.join]
    builds from the root, the base and the names on the way, whatever
    [path.join] makes of them.  A base path that is not a directory makes
    it throw. *)
Theorem search_bases_found (path_join : string → string → string)
    (fs : string → option Node) (root : string) (packagesDirs : list string) :
  (∀ dirs, search_bases path_join fs root packagesDirs = Returned dirs →
     ∀ p, p ∈ dirs ↔
       ∃ base entries names inside,
         base ∈ packagesDirs ∧
         fs (path_join root base) = Some (Directory entries) ∧
         names ≠ [] ∧ reaches (Directory entries) names (Directory inside) ∧
         (∃ node, ("package.json", node) ∈ inside ∧ node ≠ Dangling) ∧
         p = join_path path_join (path_join root base) names) ∧
  (∀ base, base ∈ packagesDirs → fs (path_join root base) = Some File →
     ∃ msg, search_bases path_join fs root packagesDirs = Thrown msg).
Proof.
  induction packagesDirs as [|base rest [IHfound IHthrown]]; cbn [search_bases].
  { split.
    - intros dirs [= <-] p. split; [by intros ?%elem_of_nil|].
      by intros (? & ? & ? & ? & ?%elem_of_nil & _).
    - by intros ? ?%elem_of_nil. }
  unfold search_base.
  destruct (fs (path_join root base)) as [[| |entries]|] eqn:Hbase.
  - split; [done|]. intros; by eexists.
  - destruct (search_bases path_join fs root rest) as [more|msg] eqn:Hrest.
    + split.
      * intros dirs [= <-] p. cbn [app]. rewrite (IHfound more eq_refl p). split.
        -- intros (b & es & names & inside & ? & ?).
           exists b, es, names, inside. split; [by right|done].
        -- intros (b & es & names & inside & [->|Hb]%elem_of_cons & Hfs & H);
             [congruence|]. by exists b, es, names, inside.
      * intros b [->|Hb]%elem_of_cons Hfs; [congruence|]. by destruct (IHthrown b Hb Hfs) as [? [=]].
    + split; [done|]. intros; by eexists.
  - destruct (search_bases path_join fs root rest) as [more|msg] eqn:Hrest.
    + split.
      * intros dirs Hdirs p.
        assert (dirs = searchRecursively path_join (path_join root base)
                         (Directory entries) ++ more)
          as -> by congruence.
        rewrite elem_of_app, (IHfound more eq_refl p), searchRecursively_reaches. split.
        -- intros [(names & inside & ? & ? & ?%has_entry_spec & ?)
                  |(b & es & names & inside & ? & ?)].
           ++ exists base, entries, names, inside. split_and!; [left|done..].
           ++ exists b, es, names, inside. split; [by right|done].
        -- intros (b & es & names & inside & [->|Hb]%elem_of_cons & Hfs & H).
           ++ left. rewrite Hbase in Hfs. injection Hfs as <-.
              destruct H as (? & ? & Hpkg & ?).
              apply (proj2 (has_entry_spec _ _)) in Hpkg.
              exists names, inside. by split_and!.
           ++ right. by exists b, es, names, inside.
      * intros b [->|Hb]%elem_of_cons Hfs; [congruence|]. by destruct (IHthrown b Hb Hfs) as [? [=]].
    + split; [done|]. intros; by eexists.
  - destruct (search_bases path_join fs root rest) as [more|msg] eqn:Hrest.
    + split.
      * intros dirs [= <-] p. cbn [app]. rewrite (IHfound more eq_refl p). split.
        -- intros (b & es & names & inside & ? & ?).
           exists b, es, names, inside. split; [by right|done].
        -- intros (b & es & names & inside & [->|Hb]%elem_of_cons & Hfs & H);
             [congruence|]. by exists b, es, names, inside.
      * intros b [->|Hb]%elem_of_cons Hfs; [congruence|]. by destruct (IHthrown b Hb Hfs) as [? [=]].
    + split; [done|]. intros; by eexists.
Qed.

(* ===================================================================== *)
(** * Instances                                                        *)
(* ===================================================================== *)

Lemma example_workspace_built :
  buildWorkspace example_world = (Returned (workspace_of example_packages), example_world).
Proof. vm_compute. reflexivity. Qed.

Lemma rooted_workspace_built :
  buildWorkspace rooted_world = (Returned (workspace_of example_packages), rooted_world).
Proof. vm_compute. reflexivity. Qed.

Lemma version_commands_example :
  ∃ next,
    semverBump "1.0.0" Minor = Returned next ∧
    executed released_world =
      [("git add .", None);
       ("git commit -m " +:+ dquote +:+ "chore(release): v" +:+ next +:+ " [skip ci]" +:+
          dquote, None);
       ("git tag v" +:+ next, None)].
Proof.
  destruct (version_commands example_config minor_release example_world released_world)
    as (ws & kind & current & next & Hbuild & Hkind & _ & Hens & Hbump & Hexec).
  { vm_compute. reflexivity. }
  exists next. rewrite (Hkind Minor eq_refl) in Hbump.
  rewrite example_workspace_built in Hbuild. injection Hbuild as <-.
  vm_compute in Hens. injection Hens as <-.
  split; [exact Hbump|exact Hexec].
Defined.

Lemma version_frame_example :
  ∃ next,
    semverBump "1.0.0" Minor = Returned next ∧
    files rooted_released_world !! "./package.json" =
      Some (PackageJson.mk "root" next None (Some [("a", JString "^1.0.0")]) None None) ∧
    files rooted_released_world !! "demo/package.json" =
      Some (PackageJson.mk "demo" "0.0.1" (Some [("a", JString "^1.0.0")]) None None None).
Proof.
  destruct (version_frame example_config minor_release rooted_world rooted_released_world
              "./package.json")
    as (ws & kind & current & next & Hbuild & Hkind & _ & Hens & Hbump & Hroot & Hframe).
  { reflexivity. }
  { vm_compute. reflexivity. }
  { intros dir Hdir. unfold rooted_world in Hdir. cbn [packageDirs] in Hdir.
    repeat (apply elem_of_cons in Hdir as [->|Hdir]; [vm_compute; discriminate|]).
    by apply elem_of_nil in Hdir. }
  exists next. rewrite (Hkind Minor eq_refl) in Hbump.
  rewrite rooted_workspace_built in Hbuild. injection Hbuild as <-.
  vm_compute in Hens. injection Hens as <-.
  split_and!; [exact Hbump|rewrite Hroot; reflexivity|].
  rewrite Hframe; [reflexivity| |vm_compute; discriminate].
  intros dir Hdir. unfold rooted_world in Hdir. cbn [packageDirs] in Hdir.
  repeat (apply elem_of_cons in Hdir as [->|Hdir]; [vm_compute; discriminate|]).
  by apply elem_of_nil in Hdir.
Defined.

Lemma version_keeps_workspace_example :
  ∃ ws' next,
    semverBump "1.0.0" Minor = Returned next ∧
    buildWorkspace released_world = (Returned ws', released_world) ∧
    ensureAllSameVersion (WorkspaceInfo.packages ws') = Returned next ∧
    topoSort (WorkspaceInfo.packages ws') (WorkspaceInfo.graph ws') =
      topoSort example_packages (build_graph example_packages).
Proof.
  destruct (version_keeps_workspace example_config minor_release example_world
              released_world)
    as (ws & ws' & kind & current & next & Hbuild & Hkind & _ & Hens & Hbump & Hbuild' &
        Hens' & _ & _ & Htopo).
  { vm_compute. reflexivity. }
  exists ws', next. rewrite (Hkind Minor eq_refl) in Hbump.
  rewrite example_workspace_built in Hbuild. injection Hbuild as <-.
  vm_compute in Hens. injection Hens as <-.
  split_and!; [exact Hbump|exact Hbuild'|exact Hens'|exact Htopo].
Defined.

Lemma publish_commands_example :
  ∃ ps,
    names ps = ["c"; "b"; "a"] ∧
    executed published_world =
      ((λ p, ("npm publish --access public --tag feature-x-alpha ",
              Some (WorkspacePackage.dir p))) <$> ps) ++
      [("git push --follow-tags", None)].
Proof.
  destruct (publish_commands example_config alpha_publish example_world published_world)
    as (ws & order & ps & Hbuild & Htopo & Hnames & _ & Hexec & _).
  { vm_compute. reflexivity. }
  exists ps. rewrite example_workspace_built in Hbuild. injection Hbuild as <-.
  vm_compute in Htopo. injection Htopo as <-.
  split; [exact Hnames|exact Hexec].
Defined.

Lemma publish_dependencies_first_example :
  ∃ ps,
    ps ≡ₚ example_packages ∧
    executed published_world =
      ((λ p, ("npm publish --access public --tag feature-x-alpha ",
              Some (WorkspacePackage.dir p))) <$> ps) ++
      [("git push --follow-tags", None)].
Proof.
  destruct (publish_dependencies_first example_config alpha_publish example_world
              published_world (workspace_of example_packages))
    as (ps & Hperm & Hexec & _).
  { vm_compute. reflexivity. }
  { vm_compute. reflexivity. }
  { apply (bool_decide_unpack _). vm_compute. reflexivity. }
  exists ps. split; [exact Hperm|exact Hexec].
Defined.

Lemma publish_refuses_cycles_example :
  publish example_config alpha_publish mutual_world =
    (Thrown "Cycle detected in local dependency graph.", mutual_world) ∧
  acyclic example_packages.
Proof.
  split.
  - apply (publish_refuses_cycles example_config alpha_publish mutual_world
             (workspace_of mutual_packages)).
    + vm_compute. discriminate.
    + vm_compute. reflexivity.
    + apply (bool_decide_unpack _). vm_compute. reflexivity.
    + exists "x". apply (tc_l _ _ "y"); [|apply tc_once];
        apply build_graph_edge; vm_compute dependents; by left.
  - apply (publish_refuses_cycles example_config alpha_publish example_world
             (workspace_of example_packages)) with published_world.
    + vm_compute. discriminate.
    + vm_compute. reflexivity.
    + apply (bool_decide_unpack _). vm_compute. reflexivity.
    + vm_compute. reflexivity.
Defined.

Lemma topoSort_roots_first_example :
  ∃ roots rest,
    ["c"; "b"; "a"] = roots ++ rest ∧
    roots `sublist_of` names example_packages ∧
    (∀ n, n ∈ roots ↔ n ∈ names example_packages ∧ ∀ d, ¬ depends_on example_packages n d) ∧
    (∀ n, n ∈ rest → ∃ d, depends_on example_packages n d).
Proof.
  apply (topoSort_roots_first example_packages ["c"; "b"; "a"]).
  - apply (bool_decide_unpack _). vm_compute. reflexivity.
  - vm_compute. reflexivity.
Defined.

Lemma topoSort_independent_example :
  topoSort independent_packages (build_graph independent_packages) = Returned ["p"; "q"].
Proof.
  apply (topoSort_independent independent_packages).
  - apply (bool_decide_unpack _). vm_compute. reflexivity.
  - intros p field key Hp Hkey. unfold independent_packages in Hp.
    repeat (apply elem_of_cons in Hp as [->|Hp];
      [destruct field; vm_compute in Hkey;
       repeat (apply elem_of_cons in Hkey as [->|Hkey];
                 [apply (bool_decide_unpack _); vm_compute; reflexivity|]);
       by apply elem_of_nil in Hkey|]).
    by apply elem_of_nil in Hp.
Defined.

Lemma semverBump_again_example :
  ∃ next,
    semverBump "1.2.3-beta.1" Minor = Returned next ∧
    semverBump next Patch = Returned "1.3.1".
Proof.
  apply (semverBump_again "1.2.3-beta.1" Minor Patch "1" "2" "3").
  - apply semver_match_spec. vm_compute. reflexivity.
  - vm_compute. reflexivity.
  - vm_compute. reflexivity.
  - vm_compute. reflexivity.
Defined.

Lemma preserveOperator_again_example :
  preserveOperator (preserveOperator "~1.0.0" "1.1.0") "1.2.0" =
  preserveOperator "~1.0.0" "1.2.0".
Proof.
  apply (preserveOperator_again "~1.0.0" "1.0.0" "1.1.0" "1.2.0" Minor).
  vm_compute. reflexivity.
Defined.

Lemma main_untouched_example :
  (main example_process ["node"; "lockstep"; "deploy"] example_world).2 = example_world ∧
  "deploy" ∉ ["help"; "version"; "publish"].
Proof.
  destruct (main_untouched example_process ["node"; "lockstep"; "deploy"] example_world
              (main example_process ["node"; "lockstep"; "deploy"] example_world).2
              (UnknownCommand "deploy"))
    as (Hworld & _ & _ & Hcmd).
  { vm_compute. reflexivity. }
  { discriminate. }
  { discriminate. }
  split; [exact Hworld|exact (proj2 (Hcmd "deploy" eq_refl))].
Defined.

Lemma main_publish_tag_example :
  main example_process ["node"; "lockstep"; "publish"; "--tag"; "--dry"] example_world =
  (Failed "--tag parameter is required for publish command", example_world).
Proof.
  apply (main_publish_tag example_process
           ["node"; "lockstep"; "publish"; "--tag"; "--dry"] example_world).
  - reflexivity.
  - apply (bool_decide_unpack _). vm_compute. reflexivity.
  - right. exists [], ["--dry"]. split_and!; [reflexivity| |right; reflexivity].
    apply (bool_decide_unpack _). vm_compute. reflexivity.
Defined.

Lemma main_version_type_example :
  main example_process ["node"; "lockstep"; "version"; "--ci"; "--type"] example_world =
  (Failed "--type must be patch|minor|major|auto", example_world).
Proof.
  apply (main_version_type example_process
           ["node"; "lockstep"; "version"; "--ci"; "--type"] example_world).
  - reflexivity.
  - apply (bool_decide_unpack _). vm_compute. reflexivity.
  - apply (bool_decide_unpack _). vm_compute. reflexivity.
  - apply (bool_decide_unpack _). vm_compute. reflexivity.
  - exists ["--ci"], []. split_and!; [reflexivity| |exact I].
    apply (bool_decide_unpack _). vm_compute. reflexivity.
Defined.
